(** * NUAA course-enrolment script: a shallow embedding of [xuanke_final.py]

    The development follows the source file top to bottom: the Python values
    it manipulates ([str], [bytes], exceptions), the bounce detector
    [is_login_bounce], the decoder [smart_read], the catalog parser and the
    selection loop of [course_info], and the submission loop of
    [grab_courses] run against an explicit clock and an explicit network. *)

From Stdlib.Strings Require Import Ascii String Byte.
From Stdlib Require Import List Sorted Bool Arith NArith ZArith QArith Lia Lqa.
Import ListNotations.

(* ===================================================================== *)
(** * Python values                                                       *)
(* ===================================================================== *)

(** A Python [str] is a sequence of Unicode code points. *)
Definition char := N.
Definition str := list char.

(** [lit "..."] reads a literal of this file (UTF-8 bytes) as a [str]. *)
Fixpoint utf8_points (need : nat) (acc : N) (bs : list N) : str :=
  match bs with
  | [] => []
  | b :: rest =>
      match need with
      | O =>
          if (b <? 128)%N then b :: utf8_points 0 0%N rest
          else if (b <? 224)%N then utf8_points 1 (N.land b 31) rest
          else if (b <? 240)%N then utf8_points 2 (N.land b 15) rest
          else utf8_points 3 (N.land b 7) rest
      | S k =>
          let acc' := (acc * 64 + N.land b 63)%N in
          match k with
          | O => acc' :: utf8_points 0 0%N rest
          | S _ => utf8_points k acc' rest
          end
      end
  end.

Definition lit (s : string) : str :=
  utf8_points 0 0%N (map N_of_ascii (list_ascii_of_string s)).
Arguments lit s%_string.

(** A Python [bytes] object. *)
Definition bytes := list byte.

(** The exceptions the modelled code can meet (all of them subclasses of
    [Exception], so every [except Exception] clause catches them), and a
    call that either returns or raises. *)
Inductive exn :=
| ValueError
| IndexError
| LookupError
| OSError.

Inductive result (A : Type) :=
| Ok (a : A)
| Raise (e : exn).
Arguments Ok {A} a.
Arguments Raise {A} e.

(** ** What the interpreter supplies

    The ASCII rows of the Unicode tables are written out below; the rows
    beyond ASCII and the configured limit of [int()] belong to the running
    interpreter and are taken as given. *)
Record runtime := {
  (** [Py_UNICODE_TODECIMAL] of a non-ASCII character: its value when the
      character is a decimal digit (category Nd). *)
  nonascii_decimal : char -> option N;
  (** Non-ASCII characters that [str.isdigit] accepts without their being
      decimal digits (superscripts, circled digits, ...). *)
  nonascii_digit : char -> bool;
  (** [str.lower] at a non-ASCII position of a string: the characters it
      produces there (the position matters for final sigma). *)
  nonascii_lower : str -> nat -> str;
  (** [sys.get_int_max_str_digits()]; 0 switches the limit off. *)
  int_max_str_digits : nat
}.

(** The interpreter that knows ASCII only; it serves as a concrete instance. *)
Definition ascii_runtime : runtime :=
  {| nonascii_decimal := fun _ => None;
     nonascii_digit := fun _ => false;
     nonascii_lower := fun s i => firstn 1 (skipn i s);
     int_max_str_digits := 4300 |}.

Section Strings.

Variable R : runtime.

(** ** [str] primitives *)

Definition str_eqb (a b : str) : bool :=
  if list_eq_dec N.eq_dec a b then true else false.

(** [hay.startswith(p)], returning what follows the prefix. *)
Fixpoint strip_prefix (p hay : str) : option str :=
  match p, hay with
  | [], _ => Some hay
  | _ :: _, [] => None
  | a :: p', b :: hay' => if (a =? b)%N then strip_prefix p' hay' else None
  end.

Definition startswith (p hay : str) : bool :=
  match strip_prefix p hay with Some _ => true | None => false end.

(** [needle in hay] on strings. *)
Fixpoint py_in (needle hay : str) : bool :=
  startswith needle hay
  || match hay with
     | [] => false
     | _ :: hay' => py_in needle hay'
     end.

(** [s.split(sep)] for a non-empty separator: [skip] counts the characters
    of a separator just found that are still to be passed over, [cur] holds
    the chunk being read, newest character first. *)
Fixpoint split_from (sep : str) (skip : nat) (cur : str) (s : str) : list str :=
  match s with
  | [] => [rev cur]
  | c :: s' =>
      match skip with
      | S k => split_from sep k cur s'
      | O =>
          if startswith sep s
          then rev cur :: split_from sep (length sep - 1) [] s'
          else split_from sep 0 (c :: cur) s'
      end
  end.

Definition str_split (sep s : str) : list str := split_from sep 0 [] s.

(** [s.lower()]: ASCII letters are folded here, other characters by the
    interpreter's table. *)
Definition ascii_lower (c : char) : char :=
  if ((65 <=? c) && (c <=? 90))%N then (c + 32)%N else c.

Fixpoint lower_from (whole : str) (i : nat) (s : str) : str :=
  match s with
  | [] => []
  | c :: s' =>
      (if (c <? 128)%N then [ascii_lower c] else nonascii_lower R whole i)
      ++ lower_from whole (S i) s'
  end.

Definition str_lower (s : str) : str := lower_from s 0 s.

(** ** Digits: [\d], [str.isdigit] and [int] *)

Definition to_decimal (c : char) : option N :=
  if (c <? 128)%N
  then if ((48 <=? c) && (c <=? 57))%N then Some (c - 48)%N else None
  else nonascii_decimal R c.

Definition is_decimal (c : char) : bool :=
  match to_decimal c with Some _ => true | None => false end.

Definition is_digit (c : char) : bool :=
  is_decimal c || (negb (c <? 128)%N && nonascii_digit R c).

(** [t.isdigit()] *)
Definition isdigit (t : str) : bool :=
  match t with
  | [] => false
  | _ :: _ => forallb is_digit t
  end.

Fixpoint decimal_value (acc : N) (t : str) : option N :=
  match t with
  | [] => Some acc
  | c :: t' =>
      match to_decimal c with
      | Some d => decimal_value (acc * 10 + d) t'
      | None => None
      end
  end.

(** [int(t)] for a [t] made of digit characters only, which is how the
    source calls it (behind [t.isdigit()]): no sign, blank or underscore
    can occur.  A digit that is no decimal digit, and a string longer than
    the configured limit, raise [ValueError]. *)
Definition py_int (t : str) : result N :=
  match t with
  | [] => Raise ValueError
  | _ :: _ =>
      match decimal_value 0 t with
      | None => Raise ValueError
      | Some v =>
          if (length t <=? 640)%nat then Ok v
          else if (int_max_str_digits R =? 0)%nat then Ok v
          else if (length t <=? int_max_str_digits R)%nat then Ok v
          else Raise ValueError
      end
  end.

(** ** The fragment of [re] the source uses

    A pattern is a sequence of literals and of one captured, greedy
    repetition of a character class ([\d+], [[^']*], [[一-龥]+]).
    [re_match] matches a pattern at the start of a string and returns the
    captured groups with the unread rest. *)
Inductive re_item :=
| Lit (s : str)
| Group (cls : char -> bool) (least : nat).

Definition pattern := list re_item.

(** The greedy repetition: read as many characters of the class as there
    are, then give one back at a time until [next] matches what follows. *)
Fixpoint repeat_class (cls : char -> bool) (least : nat)
    (next : str -> option (list str * str)) (s taken : str) {struct s}
  : option (list str * str) :=
  let stop :=
    if (least <=? length taken)%nat
    then match next s with
         | Some (gs, r) => Some (rev taken :: gs, r)
         | None => None
         end
    else None in
  match s with
  | c :: s' =>
      if cls c
      then match repeat_class cls least next s' (c :: taken) with
           | Some m => Some m
           | None => stop
           end
      else stop
  | [] => stop
  end.

Fixpoint re_match (pat : pattern) (s : str) {struct pat}
  : option (list str * str) :=
  match pat with
  | [] => Some ([], s)
  | Lit l :: pat' =>
      match strip_prefix l s with
      | Some s' => re_match pat' s'
      | None => None
      end
  | Group cls least :: pat' => repeat_class cls least (re_match pat') s []
  end.

(** [pat.findall(s)] for a pattern with one group that matches no empty
    string: scan left to right, report the group of each match and resume
    after the match ([skip] counts the matched characters still to pass). *)
Fixpoint findall_from (pat : pattern) (skip : nat) (s : str) : list str :=
  match s with
  | [] => []
  | _ :: s' =>
      match skip with
      | S k => findall_from pat k s'
      | O =>
          match re_match pat s with
          | Some (gs, r) =>
              hd [] gs :: findall_from pat (length s - length r - 1) s'
          | None => findall_from pat 0 s'
          end
      end
  end.

Definition findall (pat : pattern) (s : str) : list str := findall_from pat 0 s.

End Strings.

(* ===================================================================== *)
(** * Responses and the bounce detector                                   *)
(* ===================================================================== *)

(** What the code reads of a [requests.Response].  Reading [url] (and
    lower-casing it) or [text] may raise; [content] may be [None]; the two
    encoding hints are read with [getattr(resp, ..., None)]. *)
Record response := {
  resp_url : result str;
  resp_text : result str;
  resp_content : option bytes;
  resp_encoding : option str;
  resp_apparent_encoding : option str;
  resp_status_code : Z
}.

Section Bounce.

Variable R : runtime.

Definition is_login_bounce (resp : response) : bool :=
  let url_l :=
    match resp_url resp with
    | Ok x => str_lower R x
    | Raise _ => []
    end in
  let text :=
    match resp_text resp with
    | Ok t => t
    | Raise _ => []
    end in
  py_in (lit "统一身份认证") text || py_in (lit "authserver") url_l.

End Bounce.

(* ===================================================================== *)
(** * The decoder [smart_read]                                            *)
(* ===================================================================== *)

(** The library calls of the decoder: [gzip.decompress], [zlib.decompress]
    and [raw.decode(enc, errors="ignore")] for a codec name [enc]. *)
Record codecs := {
  gzip_decompress : bytes -> result bytes;
  zlib_decompress : bytes -> result bytes;
  bytes_decode : bytes -> str -> result str
}.

Section Decoder.

Variable C : codecs.

(** [b[i]] behind a length test; the default is never read. *)
Definition byte_at (b : bytes) (i : nat) : byte := nth i b x00.

Definition _maybe_decompress (b : bytes) : bytes :=
  if (2 <=? length b)%nat && Byte.eqb (byte_at b 0) x1f
     && Byte.eqb (byte_at b 1) x8b
  then match gzip_decompress C b with
       | Ok d => d
       | Raise _ => b
       end
  else if (2 <=? length b)%nat && Byte.eqb (byte_at b 0) x78
          && existsb (Byte.eqb (byte_at b 1)) [x01; x5e; x9c; xda]
  then match zlib_decompress C b with
       | Ok d => d
       | Raise _ => b
       end
  else b.

(** The candidate encodings, in the order the loop tries them. *)
Definition encodings (resp : response) : list (option str) :=
  [resp_encoding resp; resp_apparent_encoding resp;
   Some (lit "utf-8"); Some (lit "gb18030"); Some (lit "gbk");
   Some (lit "gb2312"); Some (lit "latin1")].

(** The [for enc in ...] loop: [None] when it ends without returning. *)
Fixpoint decode_first (raw : bytes) (encs : list (option str))
  : option (str * str) :=
  match encs with
  | [] => None
  | None :: rest => decode_first raw rest
  | Some [] :: rest => decode_first raw rest
  | Some enc :: rest =>
      match bytes_decode C raw enc with
      | Ok t => Some (t, enc)
      | Raise _ => decode_first raw rest
      end
  end.

Definition smart_read (resp : response) : result (str * str) :=
  let raw := match resp_content resp with Some b => b | None => [] end in
  let raw := _maybe_decompress raw in
  match decode_first raw (encodings resp) with
  | Some r => Ok r
  | None =>
      match bytes_decode C raw (lit "utf-8") with
      | Ok t => Ok (t, lit "utf-8")
      | Raise e => Raise e
      end
  end.

End Decoder.

(* ===================================================================== *)
(** * [course_info]: the catalog parser and the selection loop            *)
(* ===================================================================== *)

(** How a function body ends for its caller. *)
Inductive ending (A : Type) :=
| Returned (a : A)
| Uncaught (e : exn)
| SysExit (code : Z).
Arguments Returned {A} a.
Arguments Uncaught {A} e.
Arguments SysExit {A} code.

(** The lines [course_info] prints after the catalog has been fetched. *)
Inductive info_line :=
| NoCourseId (excerpt : str)                (* 未解析到任何课程 ID *)
| CourseRow (i : nat) (cid name : str)      (* 序号 / 课程ID / 课程名称 *)
| IllegalInput (t : str)                    (* 非法输入 *)
| NotFound (t : str)                        (* 未找到该序号/课程ID *)
| NothingChosen.                            (* 未选择任何课程，退出。 *)

Section CourseInfo.

Variable R : runtime.

(** The compiled patterns [find_id], an id: marker, a captured run of
    digits and a comma, and [find_name], a name: marker, an opening quote,
    a captured run of characters other than a quote, a closing quote and a
    comma. *)
Definition find_id : pattern :=
  [Lit (lit "id:"); Group (is_decimal R) 1; Lit (lit ",")].

Definition find_name : pattern :=
  [Lit (lit "name:'"); Group (fun c => negb (c =? 39)%N) 0; Lit (lit "',")].

(** The loop over [text.split("code:")]: one name per chunk, stopping at
    the first chunk that has none. *)
Fixpoint collect_names (items : list str) : list str :=
  match items with
  | [] => []
  | item :: rest =>
      match findall find_name item with
      | [] => []
      | name :: _ => name :: collect_names rest
      end
  end.

Definition id_list (text : str) : list str := findall find_id text.

Definition name_list (text : str) : list str :=
  collect_names (str_split (lit "code:") text).

(** [n = min(len(id_list), len(name_list))] *)
Definition entry_count (ids names : list str) : nat :=
  Nat.min (length ids) (length names).

(** The rows printed by [for i in range(n)]. *)
Definition course_rows (ids names : list str) : list (nat * str * str) :=
  map (fun i => (i, nth i ids [], nth i names []))
      (seq 0 (entry_count ids names)).

(** The entries parsed from a catalog body. *)
Definition catalog (text : str) : list (nat * str * str) :=
  course_rows (id_list text) (name_list text).

(** [t in id_set], with [id_set = set(id_list)]. *)
Definition in_id_set (ids : list str) (t : str) : bool :=
  existsb (str_eqb t) ids.

(** The [for t in tokens] loop, with [chosen] and the lines printed so
    far carried along; it ends normally or with an exception of [int] or
    of the indexing. *)
Fixpoint select_loop (ids : list str) (n : nat) (tokens : list str)
    (chosen : list str) (out : list info_line)
  : list info_line * result (list str) :=
  match tokens with
  | [] => (out, Ok chosen)
  | t :: rest =>
      if negb (isdigit R t)
      then select_loop ids n rest chosen (out ++ [IllegalInput t])
      else
        match py_int R t with
        | Raise e => (out, Raise e)
        | Ok idx =>
            if (idx <? N.of_nat n)%N
            then match nth_error ids (N.to_nat idx) with
                 | Some cid => select_loop ids n rest (chosen ++ [cid]) out
                 | None => (out, Raise IndexError)
                 end
            else if in_id_set ids t
            then select_loop ids n rest (chosen ++ [t]) out
            else select_loop ids n rest chosen (out ++ [NotFound t])
        end
  end.

(** The tokens the source splits from a fixed line, in place of a line
    read from the operator. *)
Definition fixed_tokens : list str :=
  [lit "400785"; lit "398319"; lit "398891"; lit "398568"].

(** [course_info] from the parse on, for an accepted catalog [text] and the
    operator's [tokens]: the printed lines and how the function ends. *)
Definition course_info (text : str) (tokens : list str)
  : list info_line * ending (list str) :=
  let ids := id_list text in
  let names := name_list text in
  match ids with
  | [] => ([NoCourseId (firstn 300 text)], SysExit 1)
  | _ :: _ =>
      let n := entry_count ids names in
      let rows := map (fun r => CourseRow (fst (fst r)) (snd (fst r)) (snd r))
                      (course_rows ids names) in
      match select_loop ids n tokens [] rows with
      | (out, Raise e) => (out, Uncaught e)
      | (out, Ok []) => (out ++ [NothingChosen], SysExit 0)
      | (out, Ok chosen) => (out, Returned chosen)
      end
  end.

End CourseInfo.

(* ===================================================================== *)
(** * [grab_courses]: the submission loop                                 *)
(* ===================================================================== *)

Definition BASE : str := lit "https://aao-eas.nuaa.edu.cn".
Definition POST_INTERVAL : Q := 0.7.
Definition BACKOFF_SECONDS : Q := 3.
Definition POST_MIN_GAP : Q := 0.8.

(** A form body: the fields of the dict, in the order they are written. *)
Definition form := list (str * str).

(** The dict built for one [cid] of [lesson_ids]. *)
Definition form_of (cid : str) : form :=
  [(lit "optype", lit "true");
   (lit "operator0", cid ++ lit ":true:0");
   (lit "lesson0", cid)].

Definition forms (lesson_ids : list str) : list form := map form_of lesson_ids.

Definition post_urls (pid used_param : str) : list str :=
  let base_post := BASE ++ lit "/eams/stdElectCourse!batchOperator.action" in
  if str_eqb used_param (lit "profileId")
  then [base_post ++ lit "?profileId=" ++ pid;
        base_post ++ lit "?electionProfile.id=" ++ pid]
  else [base_post ++ lit "?electionProfile.id=" ++ pid;
        base_post ++ lit "?profileId=" ++ pid].

(** The lines the loop prints. *)
Inductive grab_line :=
| StartWaiting                               (* 开始等待放闸时间…… *)
| Reply (ts : Q) (status : Z) (msg : str)    (* [ts] status -> msg *)
| SubmitFailed                               (* 提交未成功 *)
| NotOpenYet (remain : Q).                   (* 抢课界面未开启，剩余 *)

(** What the loop does to the outside, in seconds: it sleeps, it issues a
    POST (recorded with the readings of the monotonic clock and of the wall
    clock at the moment of the call) and it prints. *)
Inductive event :=
| Sleep (d : Q)
| Post (url : str) (data : form) (at_mono at_wall : Q)
| Print (l : grab_line).

(** The outside: what the k-th interaction yields.  A POST returns a
    response or raises, and takes some time; a sleep may overrun.  The
    statements between two interactions take no time. *)
Record world := {
  post_result : nat -> result response;
  post_duration : nat -> Q;
  sleep_overrun : nat -> Q
}.

(** The loop's state: both clocks, the local [last_post_ts] and the
    interactions so far, newest first. *)
Record state := {
  mono : Q;
  wall : Q;
  last_post_ts : Q;
  log : list event
}.

Definition Qltb (x y : Q) : bool := negb (Qle_bool y x).

Section Scheduler.

Variable R : runtime.
Variable C : codecs.
Variable W : world.

Definition emit (ev : event) (st : state) : state :=
  {| mono := mono st; wall := wall st;
     last_post_ts := last_post_ts st; log := ev :: log st |}.

Definition advance (d : Q) (st : state) : state :=
  {| mono := mono st + d; wall := wall st + d;
     last_post_ts := last_post_ts st; log := log st |}.

Definition record_post (st : state) : state :=
  {| mono := mono st; wall := wall st;
     last_post_ts := mono st; log := log st |}.

(** [time.sleep(d)] *)
Definition time_sleep (d : Q) (st : state) : state :=
  advance (d + sleep_overrun W (length (log st))) (emit (Sleep d) st).

(** [session.post(url, data=data, ...)] *)
Definition session_post (url : str) (data : form) (st : state)
  : result response * state :=
  let k := length (log st) in
  (post_result W k,
   advance (post_duration W k) (emit (Post url data (mono st) (wall st)) st)).

Definition print (l : grab_line) (st : state) : state := emit (Print l) st.

(** The pacing gate in front of every POST. *)
Definition throttle (st : state) : state :=
  let gap := mono st - last_post_ts st in
  if Qltb gap POST_MIN_GAP then time_sleep (POST_MIN_GAP - gap) st else st.

Definition is_cjk (c : char) : bool := ((19968 <=? c) && (c <=? 40869))%N.

Definition message (body : str) : str :=
  let chinese := findall [Group is_cjk 1] body in
  match concat chinese with
  | [] => firstn 180 body
  | msg => msg
  end.

Definition too_fast (body : str) (status : Z) : bool :=
  py_in (lit "请不要过快点击") body
  || existsb (Z.eqb status) [429; 503]%Z.

(** One turn of [for url in post_urls]: [true] when the turn ends in
    [break] (with [sent_ok] set), [false] when it ends in [continue]. *)
Definition attempt (url : str) (data : form) (st : state) : bool * state :=
  let st := throttle st in
  let (r, st) := session_post url data st in
  match r with
  | Raise _ => (false, st)
  | Ok resp =>
      let st := record_post st in
      if is_login_bounce R resp then (false, st)
      else
        match smart_read C resp with
        | Raise _ => (false, st)
        | Ok (body, _) =>
            let st := print (Reply (wall st) (resp_status_code resp)
                                   (message body)) st in
            let st := if too_fast body (resp_status_code resp)
                      then time_sleep BACKOFF_SECONDS st else st in
            (true, st)
        end
  end.

(** [for url in post_urls], returning [sent_ok]. *)
Fixpoint submit (urls : list str) (data : form) (st : state) : bool * state :=
  match urls with
  | [] => (false, st)
  | url :: rest =>
      let (sent, st') := attempt url data st in
      if sent then (true, st') else submit rest data st'
  end.

(** One turn of [for data in forms]. *)
Definition submit_course (urls : list str) (st : state) (data : form) : state :=
  let (sent_ok, st') := submit urls data st in
  if sent_ok then st' else print SubmitFailed st'.

(** One turn of [while True], for the open time [dt]. *)
Definition iteration (dt : Q) (urls : list str) (fs : list form) (st : state)
  : state :=
  let now := wall st in
  let st :=
    if Qle_bool dt now
    then fold_left (submit_course urls) fs st
    else print (NotOpenYet (dt - now)) st in
  time_sleep POST_INTERVAL st.

Fixpoint loop (turns : nat) (dt : Q) (urls : list str) (fs : list form)
    (st : state) : state :=
  match turns with
  | O => st
  | S k => loop k dt urls fs (iteration dt urls fs st)
  end.

(** [grab_courses] up to the end of a given number of turns of its loop,
    started when the clocks read [mono0] and [wall0], for the open time
    [dt] that [strptime] yields. *)
Definition grab_courses (lesson_ids : list str) (pid used_param : str)
    (dt mono0 wall0 : Q) (turns : nat) : state :=
  loop turns dt (post_urls pid used_param) (forms lesson_ids)
       {| mono := mono0; wall := wall0; last_post_ts := 0;
          log := [Print StartWaiting] |}.

End Scheduler.

(** The interactions in the order they happened. *)
Definition trace (st : state) : list event := rev (log st).

(* ===================================================================== *)
(** * The rest of the file: profile ids, session set-up, catalog fetch    *)
(* ===================================================================== *)

(** ** More of what the interpreter supplies

    The rows beyond ASCII of two more tables: the characters that count
    as white space (for [\s] and [str.strip]) and those that count as
    letters or digits (for [\b]). *)
Record runtime_classes := {
  nonascii_space : char -> bool;
  nonascii_alnum : char -> bool
}.

Definition ascii_classes : runtime_classes :=
  {| nonascii_space := fun _ => false; nonascii_alnum := fun _ => false |}.


(** [DEFAULT_TPL.format(pid=pid)] *)
Definition DEFAULT_TPL (pid : str) : str :=
  BASE ++ lit "/eams/stdElectCourse!defaultPage.action?electionProfile.id="
       ++ pid.


(** The headers of a session, as [requests] keeps them: under the
    lower-cased name, the name as written and the value, in the order the
    names were first set. *)
Definition headers := list (str * (str * str)).

(** A GET as it leaves the session. *)
Record request := {
  req_url : str;
  req_headers : headers
}.

(** The network on the side of the GETs: what the k-th of them yields. *)
Record web := {
  get_result : nat -> request -> result response
}.

(** A [requests.Session]: its headers and the GETs it has sent, newest
    first. *)
Record session := {
  sess_headers : headers;
  sess_sent : list request
}.


(** The lines [course_info] prints, from its first line on. *)
Inductive course_line :=
| Fetching                           (* 正在获取抢课信息，请稍候…… *)
| BadStatus (status : Z)             (* 课程列表请求返回异常状态码： *)
| Excerpt (t : str)                  (* text[:300] *)
| HitProfile (pid used : str)        (* 命中的选课档案ID: pid (参数名 used) *)
| Available                          (* 可选课程： *)
| AskTokens                          (* 请输入想要抢的‘序号’或‘课程ID’ *)
| Info (l : info_line).

Section Fetch.

Variable R : runtime.
Variable T : runtime_classes.
Variable C : codecs.
Variable Wb : web.

(** ** Character classes *)

Definition is_space (c : char) : bool :=
  if (c <? 128)%N
  then ((9 <=? c) && (c <=? 13))%N || ((28 <=? c) && (c <=? 32))%N
  else nonascii_space T c.

(** [\w]: a letter, a digit or the underscore. *)
Definition is_word (c : char) : bool :=
  if (c <? 128)%N
  then ((48 <=? c) && (c <=? 57))%N || ((65 <=? c) && (c <=? 90))%N
       || ((97 <=? c) && (c <=? 122))%N || (c =? 95)%N
  else nonascii_alnum T c.

(** [s.strip()] *)
Fixpoint lstrip (s : str) : str :=
  match s with
  | [] => []
  | c :: s' => if is_space c then lstrip s' else s
  end.

Definition str_strip (s : str) : str := rev (lstrip (rev (lstrip s))).

(** ** The fragment of [re] that [_ID_PATTERNS] uses

    A pattern is a sequence of alternations; an alternative is a sequence
    of literals, classes (once, any number of times, at most once, or
    captured once or more, all greedy) and word boundaries.  The matcher
    knows the character before the position it stands at. *)
Inductive rx_item :=
| Chars (s : str)
| OneOf (cls : char -> bool)
| Many (cls : char -> bool)
| Maybe (cls : char -> bool)
| Capture (cls : char -> bool)
| Boundary.

Definition rx := list (list (list rx_item)).

Definition rx_cont := option char -> str -> option (list str * str).

Definition below (most : option nat) (n : nat) : bool :=
  match most with
  | Some m => (n <? m)%nat
  | None => true
  end.

(** A class between [least] and [most] times, longest first. *)
Fixpoint rx_repeat (cls : char -> bool) (least : nat) (most : option nat)
    (capture : bool) (next : rx_cont) (prev : option char) (s taken : str)
    {struct s} : option (list str * str) :=
  let stop :=
    if (least <=? length taken)%nat
    then match next prev s with
         | Some (gs, r) => Some (if capture then rev taken :: gs else gs, r)
         | None => None
         end
    else None in
  match s with
  | c :: s' =>
      if cls c && below most (length taken)
      then match rx_repeat cls least most capture next (Some c) s'
                           (c :: taken) with
           | Some m => Some m
           | None => stop
           end
      else stop
  | [] => stop
  end.

Definition word_at (c : option char) : bool :=
  match c with
  | Some x => is_word x
  | None => false
  end.

Definition last_of (l : str) (prev : option char) : option char :=
  match rev l with
  | c :: _ => Some c
  | [] => prev
  end.

Fixpoint rx_items (items : list rx_item) (next : rx_cont)
    (prev : option char) (s : str) {struct items}
  : option (list str * str) :=
  match items with
  | [] => next prev s
  | Chars l :: rest =>
      match strip_prefix l s with
      | Some s' => rx_items rest next (last_of l prev) s'
      | None => None
      end
  | OneOf cls :: rest =>
      rx_repeat cls 1 (Some 1%nat) false (rx_items rest next) prev s []
  | Many cls :: rest =>
      rx_repeat cls 0 None false (rx_items rest next) prev s []
  | Maybe cls :: rest =>
      rx_repeat cls 0 (Some 1%nat) false (rx_items rest next) prev s []
  | Capture cls :: rest =>
      rx_repeat cls 1 None true (rx_items rest next) prev s []
  | Boundary :: rest =>
      if xorb (word_at prev) (word_at (hd_error s))
      then rx_items rest next prev s
      else None
  end.

(** The alternatives of an alternation, in their order. *)
Fixpoint rx_alts (alts : list (list rx_item)) (next : rx_cont)
    (prev : option char) (s : str) : option (list str * str) :=
  match alts with
  | [] => None
  | items :: more =>
      match rx_items items next prev s with
      | Some m => Some m
      | None => rx_alts more next prev s
      end
  end.

Fixpoint rx_match (p : rx) : rx_cont :=
  match p with
  | [] => fun _ s => Some ([], s)
  | alts :: p' => rx_alts alts (rx_match p')
  end.

(** [pat.findall(s)] for a pattern with one group that matches no empty
    string. *)
Fixpoint rx_findall_from (p : rx) (skip : nat) (prev : option char)
    (s : str) : list str :=
  match s with
  | [] => []
  | c :: s' =>
      match skip with
      | S k => rx_findall_from p k (Some c) s'
      | O =>
          match rx_match p prev s with
          | Some (gs, r) =>
              hd [] gs
              :: rx_findall_from p (length s - length r - 1) (Some c) s'
          | None => rx_findall_from p 0 (Some c) s'
          end
      end
  end.

Definition rx_findall (p : rx) (s : str) : list str :=
  rx_findall_from p 0 None s.

(** ** [_extract_profile_ids] *)

Definition is_quote (c : char) : bool := ((c =? 39) || (c =? 34))%N.
Definition is_assign (c : char) : bool := ((c =? 58) || (c =? 61))%N.

(** The keyword between word boundaries, white space, a colon or an
    equals sign, white space, maybe a quote, and the digits; and the
    keyword behind a question mark or an ampersand, an equals sign, and
    the digits. *)
Definition _ID_PATTERNS : list rx :=
  [ [ [ [Boundary; Chars (lit "profileId"); Boundary];
        [Boundary; Chars (lit "electionProfile.id"); Boundary] ];
      [ [Many is_space; OneOf is_assign; Many is_space; Maybe is_quote;
         Capture (is_decimal R)] ] ];
    [ [ [Chars (lit "?")]; [Chars (lit "&")] ];
      [ [Chars (lit "profileId")]; [Chars (lit "electionProfile.id")] ];
      [ [Chars (lit "="); Capture (is_decimal R)] ] ] ].

(** The loop that drops what was seen before and keeps the order. *)
Fixpoint dedup_loop (hits seen out : list str) : list str :=
  match hits with
  | [] => out
  | h :: rest =>
      if existsb (str_eqb h) seen
      then dedup_loop rest seen out
      else dedup_loop rest (h :: seen) (out ++ [h])
  end.

Definition _extract_profile_ids (html : str) : list str :=
  dedup_loop (flat_map (fun pat => rx_findall pat html) _ID_PATTERNS) [] [].

(** ** The session *)




(** [session.get(url, ...)] *)
Definition session_get (url : str) (s : session) : result response * session :=
  let req := {| req_url := url; req_headers := sess_headers s |} in
  (get_result Wb (length (sess_sent s)) req,
   {| sess_headers := sess_headers s; sess_sent := req :: sess_sent s |}).


(** ** [_try_fetch_data] and the fetch of [course_info] *)

(** The test the source writes four times: the status is 200, the text
    holds the id: marker and, lower-cased, no html tag. *)
Definition accepted (status : Z) (text : str) : bool :=
  (status =? 200)%Z && py_in (lit "id:") text
  && negb (py_in (lit "<html") (str_lower R text)).

Definition rejected (status : Z) (text : str) : bool :=
  negb (status =? 200)%Z || negb (py_in (lit "id:") text)
  || py_in (lit "<html") (str_lower R text).

Definition data_url (param pid : str) : str :=
  BASE ++ lit "/eams/stdElectCourse!data.action?" ++ param ++ lit "=" ++ pid.

Definition _try_fetch_data (s : session) (pid : str)
  : result (Z * str * str) * session :=
  let (r1, s) := session_get (data_url (lit "electionProfile.id") pid) s in
  match r1 with
  | Raise e => (Raise e, s)
  | Ok r1 =>
      match smart_read C r1 with
      | Raise e => (Raise e, s)
      | Ok (t1, _) =>
          if accepted (resp_status_code r1) t1
          then (Ok (resp_status_code r1, t1, lit "electionProfile.id"), s)
          else
            let (r2, s) := session_get (data_url (lit "profileId") pid) s in
            match r2 with
            | Raise e => (Raise e, s)
            | Ok r2 =>
                match smart_read C r2 with
                | Raise e => (Raise e, s)
                | Ok (t2, _) =>
                    (Ok (resp_status_code r2, t2, lit "profileId"), s)
                end
            end
      end
  end.

(** What the fetch holds at a time: status, text, parameter name, and the
    profile id in force. *)
Definition fetched := (Z * str * str * str)%type.

(** The loop over [[pid] + candidates]. *)
Fixpoint try_candidates (cands : list str) (cur : fetched) (s : session)
  : result fetched * session :=
  match cands with
  | [] => (Ok cur, s)
  | cand :: rest =>
      match _try_fetch_data s cand with
      | (Raise e, s') => (Raise e, s')
      | (Ok (status, text, used), s') =>
          if accepted status text
          then (Ok (status, text, used, cand), s')
          else try_candidates rest (status, text, used, snd cur) s'
      end
  end.

(** The candidates read from a page: [_extract_profile_ids(page.text)]. *)
Definition page_candidates (page : response) : result (list str) :=
  match resp_text page with
  | Ok t => Ok (_extract_profile_ids t)
  | Raise e => Raise e
  end.

(** [course_info] down to the last test before the parse. *)
Definition course_info_fetch (s : session) (pid : str)
  : result fetched * session :=
  match _try_fetch_data s pid with
  | (Raise e, s) => (Raise e, s)
  | (Ok (status, text, used), s) =>
      if rejected status text
      then
        let (rw, s) := session_get (DEFAULT_TPL pid) s in
        match rw with
        | Raise e => (Raise e, s)
        | Ok warm =>
            match page_candidates warm with
            | Raise e => (Raise e, s)
            | Ok [] =>
                let (rd, s) :=
                  session_get
                    (BASE ++ lit "/eams/stdElectCourse!defaultPage.action") s in
                match rd with
                | Raise e => (Raise e, s)
                | Ok dp =>
                    match page_candidates dp with
                    | Raise e => (Raise e, s)
                    | Ok candidates =>
                        try_candidates (pid :: candidates)
                                       (status, text, used, pid) s
                    end
                end
            | Ok candidates =>
                try_candidates (pid :: candidates) (status, text, used, pid) s
            end
        end
      else (Ok (status, text, used, pid), s)
  end.

(** [course_info(session, pid)] for the operator's [tokens]: the printed
    lines, how the function ends, and the session. *)
Definition course_info_session (s : session) (pid : str) (tokens : list str)
  : list course_line * ending (list str * str * str) * session :=
  match course_info_fetch s pid with
  | (Raise e, s') => ([Fetching], Uncaught e, s')
  | (Ok (status, text, used, pid'), s') =>
      if rejected status text
      then ([Fetching; BadStatus status; Excerpt (firstn 300 text)],
            SysExit 1, s')
      else
        let ids := id_list R text in
        let names := name_list text in
        match ids with
        | [] =>
            ([Fetching; Info (NoCourseId (firstn 300 text))], SysExit 1, s')
        | _ :: _ =>
            let n := entry_count ids names in
            let head :=
              [Fetching; HitProfile pid' used; Available]
              ++ map (fun r => Info (CourseRow (fst (fst r)) (snd (fst r))
                                               (snd r)))
                     (course_rows ids names)
              ++ [AskTokens] in
            match select_loop R ids n tokens [] [] with
            | (warn, Raise e) => (head ++ map Info warn, Uncaught e, s')
            | (warn, Ok []) =>
                (head ++ map Info warn ++ [Info NothingChosen], SysExit 0, s')
            | (warn, Ok chosen) =>
                (head ++ map Info warn, Returned (chosen, pid', used), s')
            end
        end
  end.

End Fetch.

(* ===================================================================== *)
(** * [main]                                                              *)
(* ===================================================================== *)


(** [get_cookie_manual], for the line the operator pastes. *)
Definition get_cookie_manual (T : runtime_classes) (line : str) : str :=
  str_strip T line.



(* ===================================================================== *)
(** * Vocabulary of the statements and sample surroundings                *)
(* ===================================================================== *)

(** [needle] occurs in [hay]. *)
Definition contains (needle hay : str) : Prop :=
  exists pre post, hay = pre ++ needle ++ post.

(** [sep.join(parts)] *)
Fixpoint str_join (sep : str) (parts : list str) : str :=
  match parts with
  | [] => []
  | x :: rest =>
      match rest with
      | [] => x
      | _ :: _ => x ++ sep ++ str_join sep rest
      end
  end.

(** [b] begins with the bytes [p]. *)
Definition begins_with (p b : bytes) : Prop := exists rest, b = p ++ rest.

Definition gzip_magic (b : bytes) : Prop := begins_with [x1f; x8b] b.

Definition zlib_header (b : bytes) : Prop :=
  exists second, In second [x01; x5e; x9c; xda] /\ begins_with [x78; second] b.

(** Decompression whose failure is swallowed. *)
Definition keep_on_failure (r : result bytes) (b : bytes) : bytes :=
  match r with
  | Ok d => d
  | Raise _ => b
  end.

(** A small codec table for concrete runs: it finds no valid compressed
    stream, knows the codecs utf-8 and latin1, and reads with them the
    ASCII bytes of its input, dropping the others. *)
Definition sample_codecs : codecs :=
  {| gzip_decompress := fun _ => Raise OSError;
     zlib_decompress := fun _ => Raise OSError;
     bytes_decode := fun raw enc =>
       if str_eqb enc (lit "utf-8") || str_eqb enc (lit "latin1")
       then Ok (filter (fun c => (c <? 128)%N) (map Byte.to_N raw))
       else Raise LookupError |}.

(** The catalog body of the specification's example, and a body in which
    every record writes its name before its code. *)
Definition spec_body : str :=
  lit "...id:1001,code:x name:'Math',id:1002,code:y name:'Physics',...".

(** The two records of that body, without the text around them. *)
Definition spec_records : str :=
  lit "id:1001,code:x name:'Math',id:1002,code:y name:'Physics',".

Definition ordered_body : str :=
  lit "id:1001,name:'Math',code:x,id:1002,name:'Physics',code:y,".

Definition two_entries : list (nat * str * str) :=
  [(0%nat, lit "1001", lit "Math"); (1%nat, lit "1002", lit "Physics")].

(** The selection rule, token by token: what becomes of one token. *)
Inductive verdict :=
| Pick (cid : str)
| Skip (warning : info_line).

Inductive token_rule (R : runtime) (ids : list str) (n : nat) (t : str)
  : verdict -> Prop :=
| rule_not_numeric :
    isdigit R t = false ->
    token_rule R ids n t (Skip (IllegalInput t))
| rule_position v cid :
    isdigit R t = true -> py_int R t = Ok v ->
    (v < N.of_nat n)%N -> nth_error ids (N.to_nat v) = Some cid ->
    token_rule R ids n t (Pick cid)
| rule_literal v :
    isdigit R t = true -> py_int R t = Ok v ->
    (N.of_nat n <= v)%N -> In t ids ->
    token_rule R ids n t (Pick t)
| rule_unknown v :
    isdigit R t = true -> py_int R t = Ok v ->
    (N.of_nat n <= v)%N -> ~ In t ids ->
    token_rule R ids n t (Skip (NotFound t)).

Definition picks (vs : list verdict) : list str :=
  flat_map (fun v => match v with Pick cid => [cid] | Skip _ => [] end) vs.

Definition warnings (vs : list verdict) : list info_line :=
  flat_map (fun v => match v with Pick _ => [] | Skip w => [w] end) vs.

(** An interpreter that knows one character beyond ASCII, the superscript
    two: [str.isdigit] accepts it, and it is no decimal digit. *)
Definition superscript_runtime : runtime :=
  {| nonascii_decimal := fun _ => None;
     nonascii_digit := fun c => (c =? 178)%N;
     nonascii_lower := fun s i => firstn 1 (skipn i s);
     int_max_str_digits := 4300 |}.

(** A token of 4301 digits, one more than [int] converts by default. *)
Definition overlong_token : str := repeat 49%N 4301.

(** A catalog body of two ids and one name whose second id is a row
    number. *)
Definition row_number_body : str := lit "id:7001,name:'A',code:x,id:0,".

(** The text holds an id as [find_id] reads it: the id: marker, a run of
    one decimal digit or more, and a comma. *)
Definition holds_id (R : runtime) (text : str) : Prop :=
  exists pre d post,
    text = pre ++ lit "id:" ++ d ++ lit "," ++ post
    /\ d <> [] /\ forallb (is_decimal R) d = true.

(** The lines printed for the entries of a catalog body. *)
Definition row_lines (R : runtime) (text : str) : list info_line :=
  map (fun r => CourseRow (fst (fst r)) (snd (fst r)) (snd r))
      (catalog R text).

(** The rule skips the token [t] with the warning [w]. *)
Definition skipped (R : runtime) (ids : list str) (n : nat) (t : str)
    (w : info_line) : Prop :=
  token_rule R ids n t (Skip w).

(** Time does not run backwards: a POST takes no negative time and a
    sleep lasts at least as long as asked. *)
Definition time_forward (W : world) : Prop :=
  (forall k, 0 <= post_duration W k) /\ (forall k, 0 <= sleep_overrun W k).

(** Every POST comes back with a response. *)
Definition always_answers (W : world) : Prop :=
  forall k, exists resp, post_result W k = Ok resp.

(** The readings of the monotonic clock at which the POSTs were issued. *)
Fixpoint post_times (l : list event) : list Q :=
  match l with
  | [] => []
  | Post _ _ m _ :: l' => m :: post_times l'
  | _ :: l' => post_times l'
  end.

(** In a log, newest first: each POST was issued at least the minimum gap
    after every earlier one. *)
Definition paced (l : list event) : Prop :=
  StronglySorted (fun later earlier => earlier + POST_MIN_GAP <= later)
                 (post_times l).

(** Every POST of a log was issued when the wall clock read [dt] or more. *)
Definition posts_after (dt : Q) (l : list event) : Prop :=
  Forall (fun ev => match ev with Post _ _ _ w => dt <= w | _ => True end) l.

(** Every POST of a log went to one of [urls] with one of the forms [fs]. *)
Definition posts_among (urls : list str) (fs : list form) (l : list event)
  : Prop :=
  Forall (fun ev => match ev with
                    | Post url data _ _ => In url urls /\ In data fs
                    | _ => True
                    end) l.

(** How one attempt ends: the POST raised and nothing was recorded, or it
    returned and its completion was recorded, after which the attempt
    ended in [continue], or in [break] behind a printed line and, maybe, a
    back-off sleep. *)
Inductive attempt_end (W : world) (url : str) (data : form) (st : state)
  : bool * state -> Prop :=
| end_raised e :
    post_result W (length (log (throttle W st))) = Raise e ->
    attempt_end W url data st
      (false, snd (session_post W url data (throttle W st)))
| end_continue resp :
    post_result W (length (log (throttle W st))) = Ok resp ->
    attempt_end W url data st
      (false, record_post (snd (session_post W url data (throttle W st))))
| end_break resp l :
    post_result W (length (log (throttle W st))) = Ok resp ->
    attempt_end W url data st
      (true, print l
               (record_post (snd (session_post W url data (throttle W st)))))
| end_break_backoff resp l :
    post_result W (length (log (throttle W st))) = Ok resp ->
    attempt_end W url data st
      (true, time_sleep W BACKOFF_SECONDS
               (print l
                  (record_post
                     (snd (session_post W url data (throttle W st)))))).

(** Unfolds the primitives of the loop on the state at hand. *)
Ltac step_state :=
  cbn [log wall mono last_post_ts record_post print emit advance time_sleep
       session_post snd fst post_times] in *.

(** A world for concrete runs: every POST raises at once, and sleeps last
    exactly as long as asked. *)
Definition refusing : world :=
  {| post_result := fun _ => Raise OSError;
     post_duration := fun _ => 0;
     sleep_overrun := fun _ => 0 |}.

(** A world in which every POST is answered after a tenth of a second with
    an empty page of status 200. *)
Definition answering : world :=
  {| post_result := fun _ =>
       Ok {| resp_url := Ok (lit "https://aao-eas.nuaa.edu.cn/eams/x");
             resp_text := Ok []; resp_content := Some [];
             resp_encoding := Some (lit "utf-8");
             resp_apparent_encoding := None; resp_status_code := 200 |};
     post_duration := fun _ => 0.1;
     sleep_overrun := fun _ => 0 |}.

(** A candidate encoding the decoding loop passes over: an absent or
    empty hint, or a codec name with which decoding raises. *)
Definition passed_over (C : codecs) (raw : bytes) (o : option str) : Prop :=
  match o with
  | None => True
  | Some enc => enc = [] \/ exists e, bytes_decode C raw enc = Raise e
  end.

(** The longest run of characters of a class at the start of a string, and
    what follows it. *)
Fixpoint run_of (cls : char -> bool) (s : str) : str :=
  match s with
  | [] => []
  | c :: s' => if cls c then c :: run_of cls s' else []
  end.

Fixpoint after_run (cls : char -> bool) (s : str) : str :=
  match s with
  | [] => []
  | c :: s' => if cls c then after_run cls s' else s
  end.

(** The POSTs of a log, newest first: where each went and what it carried. *)
Fixpoint posted (l : list event) : list (str * form) :=
  match l with
  | [] => []
  | Post url data _ _ :: l' => (url, data) :: posted l'
  | _ :: l' => posted l'
  end.

(** The sleeps of a log, newest first. *)
Fixpoint sleeps (l : list event) : list Q :=
  match l with
  | [] => []
  | Sleep d :: l' => d :: sleeps l'
  | _ :: l' => sleeps l'
  end.

(** A log that does not end in the failure line. *)
Definition not_failed (l : list event) : Prop :=
  forall older, l <> Print SubmitFailed :: older.


Definition fresh_state : state :=
  {| mono := 1000; wall := 20; last_post_ts := 0; log := [] |}.





(** ** The profile ids, the session and [main] *)

(** The classes of the groups of an alternative, in their order. *)
Definition captures (items : list rx_item) : list (char -> bool) :=
  flat_map (fun it => match it with Capture cls => [cls] | _ => [] end) items.

(** The classes of the groups of a pattern whose alternatives agree on
    their groups. *)
Definition rx_captures (p : rx) : list (char -> bool) :=
  flat_map (fun alts => captures (hd [] alts)) p.

Definition uniform (p : rx) : Prop :=
  Forall (fun alts =>
            Forall (fun items => captures items = captures (hd [] alts)) alts)
         p.

(** A captured group of one character or more, all of a class. *)
Definition group_of (cls : char -> bool) (g : str) : Prop :=
  g <> [] /\ forallb cls g = true.

(** A list without its repetitions: of every element the first occurrence
    stays. *)
Fixpoint first_seen (l : list str) : list str :=
  match l with
  | [] => []
  | x :: rest => x :: filter (fun y => negb (str_eqb y x)) (first_seen rest)
  end.

(** What the two patterns find in a page, those of the first pattern
    before those of the second. *)
Definition id_hits (R : runtime) (T : runtime_classes) (html : str)
  : list str :=
  flat_map (fun pat => rx_findall T pat html) (_ID_PATTERNS R T).

(** From the session [s] on, the GETs [new], newest first, were sent with
    the headers of [s], which are still those of the session [s']. *)
Definition sends (s : session) (new : list request) (s' : session) : Prop :=
  sess_headers s' = sess_headers s
  /\ sess_sent s' = new ++ sess_sent s
  /\ Forall (fun rq => req_headers rq = sess_headers s) new.

(** The newest of the GETs [sent] went to [url] and was answered with the
    status [status] and a body that [smart_read] reads as [text]. *)
Definition answered (C : codecs) (Wb : web) (sent : list request)
    (url : str) (status : Z) (text : str) : Prop :=
  exists req older resp enc,
    sent = req :: older /\ req_url req = url
    /\ get_result Wb (length older) req = Ok resp
    /\ smart_read C resp = Ok (text, enc)
    /\ resp_status_code resp = status.

(** The two names under which the profile id is passed. *)
Definition param_names : list str :=
  [lit "electionProfile.id"; lit "profileId"].

(** The GET number [k] of a session, counted from 0, went to [url] and
    came back with a page whose text reads [text]. *)
Definition page_at (Wb : web) (sent : list request) (k : nat)
    (url text : str) : Prop :=
  exists newer req older resp,
    sent = newer ++ req :: older /\ length older = k /\ req_url req = url
    /\ get_result Wb k req = Ok resp /\ resp_text resp = Ok text.

(** The candidates that [course_info] reads from the pages it fetches, in
    a session that had sent [k] GETs when it was called: the ids that
    [_extract_profile_ids] finds in the default page of the profile, the
    answer to its GET number 2, or, when it finds none there, in the
    default page without a profile, the answer to its GET number 3. *)
Definition candidates_read (R : runtime) (T : runtime_classes) (Wb : web)
    (sent : list request) (k : nat) (pid : str) (cands : list str) : Prop :=
  exists warm,
    page_at Wb sent (k + 2) (DEFAULT_TPL pid) warm
    /\ ((_extract_profile_ids R T warm <> []
         /\ cands = _extract_profile_ids R T warm)
        \/ (_extract_profile_ids R T warm = []
            /\ exists dp,
                 page_at Wb sent (k + 3)
                   (BASE ++ lit "/eams/stdElectCourse!defaultPage.action") dp
                 /\ cands = _extract_profile_ids R T dp)).



(** An ASCII text as the bytes of a body. *)
Definition ascii_bytes (s : str) : bytes :=
  map (fun c => match Byte.of_N c with Some b => b | None => x00 end) s.

Definition page (status : Z) (body : str) : response :=
  {| resp_url := Ok (lit "https://aao-eas.nuaa.edu.cn/eams/x");
     resp_text := Ok body; resp_content := Some (ascii_bytes body);
     resp_encoding := Some (lit "utf-8");
     resp_apparent_encoding := None; resp_status_code := status |}.

(** A web for concrete runs: it serves a catalog of two courses for the
    profile 4665 under the parameter profileId, an error page for every
    other catalog request, and elsewhere a page with a link to that
    profile. *)
Definition sample_web : web :=
  {| get_result := fun _ req =>
       if str_eqb (req_url req) (data_url (lit "profileId") (lit "4665"))
       then Ok (page 200 (lit "id:400785,name:'Algebra',code:1,id:398319,name:'Logic',code:2,"))
       else if py_in (lit "data.action") (req_url req)
       then Ok (page 200 (lit "<HTML>no such profile</HTML>"))
       else Ok (page 200 (lit "<a href='defaultPage.action?electionProfile.id=4665'>")) |}.

(** A web that sends every request to the login page. *)
Definition login_web : web :=
  {| get_result := fun _ _ =>
       Ok {| resp_url :=
               Ok (lit "https://authserver.nuaa.edu.cn/authserver/login");
             resp_text := Ok []; resp_content := Some [];
             resp_encoding := None; resp_apparent_encoding := None;
             resp_status_code := 200 |} |}.



(** A session that has sent nothing yet and has no headers. *)
Definition new_session : session := {| sess_headers := []; sess_sent := [] |}.

(** The catalog that [sample_web] serves. *)
Definition sample_catalog : str :=
  lit "id:400785,name:'Algebra',code:1,id:398319,name:'Logic',code:2,".




(* ===================================================================== *)
(** * Strings                                                             *)
(* ===================================================================== *)

Lemma strip_prefix_spec (p hay r : str) :
  strip_prefix p hay = Some r <-> hay = p ++ r.
Proof.
  revert hay. induction p as [|a p IH]; intros hay; simpl.
  - split; [intros [= ->] | intros ->]; reflexivity.
  - destruct hay as [|b hay]; [split; discriminate|].
    destruct (N.eqb_spec a b) as [->|Hne].
    + rewrite IH. split; [intros -> | intros [= ->]]; reflexivity.
    + split; [discriminate | intros [= H _]; symmetry in H; contradiction].
Qed.

Lemma startswith_spec (p hay : str) :
  startswith p hay = true <-> exists r, hay = p ++ r.
Proof.
  unfold startswith. split.
  - destruct (strip_prefix p hay) as [r|] eqn:E; [|discriminate].
    intros _. exists r. now apply strip_prefix_spec.
  - intros [r H]. apply strip_prefix_spec in H. now rewrite H.
Qed.

Lemma py_in_spec (needle hay : str) :
  py_in needle hay = true <-> contains needle hay.
Proof.
  unfold contains. induction hay as [|c hay IH]; simpl.
  - rewrite orb_false_r, startswith_spec. split.
    + intros [r H]. now exists [], r.
    + intros (pre & post & H). destruct pre as [|c pre]; [|discriminate].
      now exists post.
  - rewrite orb_true_iff, startswith_spec, IH. split.
    + intros [[r H] | (pre & post & H)].
      * now exists [], r.
      * exists (c :: pre), post. simpl. now rewrite H.
    + intros (pre & post & H). destruct pre as [|c' pre]; simpl in H.
      * left. now exists post.
      * right. injection H as _ H. now exists pre, post.
Qed.

(** The literals of this file denote the code points they spell. *)
Example lit_phrase :
  lit "统一身份认证"
  = [0x7edf; 0x4e00; 0x8eab; 0x4efd; 0x8ba4; 0x8bc1]%N.
Proof. reflexivity. Qed.

Example lit_too_fast :
  lit "请不要过快点击"
  = [0x8bf7; 0x4e0d; 0x8981; 0x8fc7; 0x5feb; 0x70b9; 0x51fb]%N.
Proof. reflexivity. Qed.

(** ** [split]: the scan resumes after each separator *)

Lemma split_from_skip (sep cur u r : str) :
  split_from sep (length u) cur (u ++ r) = split_from sep 0 cur r.
Proof. induction u as [|c u IH]; simpl; [reflexivity | exact IH]. Qed.

Lemma split_from_sep (sep cur r : str) :
  sep <> [] ->
  split_from sep 0 cur (sep ++ r) = rev cur :: split_from sep 0 [] r.
Proof.
  destruct sep as [|c sep]; [contradiction|]. intros _.
  assert (H : startswith (c :: sep) ((c :: sep) ++ r) = true)
    by (apply startswith_spec; now exists r).
  cbn [app split_from] in *. rewrite H. cbn [length].
  rewrite Nat.sub_succ, Nat.sub_0_r. now rewrite split_from_skip.
Qed.

Lemma split_from_char (sep cur : str) (c : char) (s : str) :
  startswith sep (c :: s) = false ->
  split_from sep 0 cur (c :: s) = split_from sep 0 (c :: cur) s.
Proof. intros H. cbn [split_from]. now rewrite H. Qed.

Lemma split_from_not_nil (sep : str) (skip : nat) (cur s : str) :
  split_from sep skip cur s <> [].
Proof.
  revert skip cur. induction s as [|c s IH]; intros skip cur; simpl.
  - discriminate.
  - destruct skip; [|apply IH].
    destruct (startswith sep (c :: s)); [discriminate | apply IH].
Qed.

(** Joining the chunks with the separator gives the text back. *)
Lemma str_join_split (sep s : str) :
  sep <> [] -> str_join sep (str_split sep s) = s.
Proof.
  intros Hsep. unfold str_split.
  assert (H : forall n s cur, (length s <= n)%nat ->
              str_join sep (split_from sep 0 cur s) = rev cur ++ s).
  { induction n as [|n IH]; intros s' cur Hlen.
    - destruct s'; [|simpl in Hlen; lia]. simpl. now rewrite app_nil_r.
    - destruct s' as [|c s']; [simpl; now rewrite app_nil_r|].
      destruct (startswith sep (c :: s')) eqn:E.
      + apply startswith_spec in E as [r Hr]. rewrite Hr.
        rewrite split_from_sep by exact Hsep.
        assert (Hlen' : (length r <= n)%nat).
        { apply (f_equal (@length char)) in Hr. rewrite length_app in Hr.
          simpl in Hlen, Hr. destruct sep; [contradiction|].
          simpl in Hr. lia. }
        pose proof (IH r [] Hlen') as Hr'.
        pose proof (split_from_not_nil sep 0 [] r) as Hne.
        cbn [str_join]. destruct (split_from sep 0 [] r); [contradiction|].
        now rewrite Hr'.
      + rewrite split_from_char by exact E.
        rewrite IH by (simpl in Hlen; lia). simpl.
        now rewrite <- app_assoc. }
  now apply (H (length s) s []).
Qed.

Example split_examples :
  str_split (lit "code:") (lit "abcode:code:") = [lit "ab"; []; []]
  /\ str_split (lit "code:") [] = [[]]
  /\ str_split (lit "code:") (lit "cocode:x") = [lit "co"; lit "x"].
Proof. repeat split. Qed.

(** ** Occurrences across a concatenation *)

(** An occurrence of [w] in [pre ++ f] lies in [pre], or lies in [f], or
    begins in [pre] and ends in [f], which then starts with what is left
    of [w]. *)
Lemma contains_app_cases (w pre f : str) :
  contains w (pre ++ f) ->
  contains w pre \/ contains w f
  \/ exists k, (0 < k < length w)%nat /\ startswith (skipn k w) f = true.
Proof.
  intros (a & b & H).
  apply app_eq_app in H as [l [[Hpre Hwb] | [Ha Hf]]].
  - apply app_eq_app in Hwb as [l' [[Hw Hf] | [Hl Hb]]].
    + destruct l as [|c l].
      * right; left. exists [], b. simpl in Hw. now subst.
      * destruct l' as [|c' l'].
        -- left. exists a, []. rewrite app_nil_r in *. now subst.
        -- right; right. exists (length (c :: l)). split.
           ++ subst w. rewrite length_app. simpl. lia.
           ++ subst w. rewrite skipn_app, skipn_all, Nat.sub_diag.
              apply startswith_spec. exists b. exact Hf.
    + left. exists a, l'. now subst.
  - right; left. now exists l, b.
Qed.

Lemma contains_cons (w s : str) (c : char) :
  contains w s -> contains w (c :: s).
Proof. intros (a & b & ->). now exists (c :: a), b. Qed.

(** A separator that occurs neither in [a] nor across the end of [a] is
    first found right after [a]. *)
Lemma split_first_chunk (sep a b cur : str) :
  sep <> [] -> ~ contains sep (a ++ removelast sep) ->
  split_from sep 0 cur (a ++ sep ++ b)
  = (rev cur ++ a) :: split_from sep 0 [] b.
Proof.
  intros Hsep. revert cur. induction a as [|c a IH]; intros cur Hno.
  - cbn [app]. rewrite app_nil_r. now apply split_from_sep.
  - assert (E : startswith sep (c :: a ++ sep ++ b) = false).
    { destruct (startswith sep (c :: a ++ sep ++ b)) eqn:E; [|reflexivity].
      exfalso. apply Hno. apply startswith_spec in E as [r Hr].
      change (c :: a ++ sep ++ b) with ((c :: a) ++ sep ++ b) in Hr.
      apply app_eq_app in Hr as [l [[Hx _] | [Hx Hl]]].
      - exists [], (l ++ removelast sep). rewrite Hx. simpl.
        now rewrite <- app_assoc.
      - apply app_eq_app in Hl as [m [[Hs _] | [Hs _]]].
        + destruct m as [|c' m].
          * rewrite app_nil_r in Hs. subst l.
            apply (f_equal (@length char)) in Hx.
            rewrite length_app in Hx. simpl in Hx. lia.
          * assert (Hrl : removelast sep = l ++ removelast (c' :: m))
              by (rewrite Hs; apply removelast_app; discriminate).
            exists [], (removelast (c' :: m)).
            rewrite Hrl, app_assoc, <- Hx. reflexivity.
        + subst l. apply (f_equal (@length char)) in Hx.
          rewrite !length_app in Hx. simpl in Hx. lia. }
    cbn [app]. rewrite split_from_char by exact E.
    rewrite IH.
    + simpl. now rewrite <- app_assoc.
    + intros H. apply Hno. cbn [app]. now apply contains_cons.
Qed.

(** ** [findall]: the scan resumes after each match *)

Lemma repeat_class_rest cls least next (s taken : str) gs r :
  (forall s' gs' r', next s' = Some (gs', r') -> exists used, s' = used ++ r') ->
  repeat_class cls least next s taken = Some (gs, r) ->
  exists used, s = used ++ r.
Proof.
  intros Hnext. revert taken. induction s as [|c s IH]; intros taken; simpl.
  - destruct (least <=? length taken)%nat; [|discriminate].
    destruct (next []) as [[gs' r']|] eqn:E; [|discriminate].
    intros [= _ <-]. exact (Hnext _ _ _ E).
  - assert (Hstop :
      (if (least <=? length taken)%nat
       then match next (c :: s) with
            | Some (gs0, r0) => Some (rev taken :: gs0, r0)
            | None => None
            end
       else None) = Some (gs, r) -> exists used, c :: s = used ++ r).
    { destruct (least <=? length taken)%nat; [|discriminate].
      destruct (next (c :: s)) as [[gs' r']|] eqn:E; [|discriminate].
      intros [= _ <-]. exact (Hnext _ _ _ E). }
    destruct (cls c); [|exact Hstop].
    destruct (repeat_class cls least next s (c :: taken)) as [m|] eqn:E;
      [|exact Hstop].
    intros [= ->]. destruct (IH _ E) as [used ->]. now exists (c :: used).
Qed.

Lemma re_match_rest (pat : pattern) (s : str) gs r :
  re_match pat s = Some (gs, r) -> exists used, s = used ++ r.
Proof.
  revert s gs r. induction pat as [|[l|cls least] pat IH]; intros s gs r;
    cbn [re_match].
  - intros [= _ <-]. now exists [].
  - destruct (strip_prefix l s) as [s'|] eqn:E; [|discriminate].
    apply strip_prefix_spec in E. intros H.
    destruct (IH _ _ _ H) as [used ->]. exists (l ++ used).
    now rewrite <- app_assoc.
  - apply repeat_class_rest. exact IH.
Qed.

Lemma findall_from_skip (pat : pattern) (u r : str) :
  findall_from pat (length u) (u ++ r) = findall_from pat 0 r.
Proof. induction u as [|c u IH]; simpl; [reflexivity | exact IH]. Qed.

Lemma findall_match (pat : pattern) (used r : str) gs :
  used <> [] -> re_match pat (used ++ r) = Some (gs, r) ->
  findall pat (used ++ r) = hd [] gs :: findall pat r.
Proof.
  intros Hne Hm. unfold findall. destruct used as [|c u]; [contradiction|].
  cbn [app findall_from] in *. rewrite Hm. f_equal.
  replace (length (c :: u ++ r) - length r - 1)%nat with (length u).
  - apply findall_from_skip.
  - change (length (c :: u ++ r)) with (S (length (u ++ r))).
    rewrite length_app. lia.
Qed.

Lemma findall_no_match (pat : pattern) (c : char) (s : str) :
  re_match pat (c :: s) = None -> findall pat (c :: s) = findall pat s.
Proof. intros H. unfold findall. cbn [findall_from]. now rewrite H. Qed.

Lemma lower_from_app (R : runtime) (whole : str) (i : nat) (a b : str) :
  lower_from R whole i (a ++ b)
  = lower_from R whole i a ++ lower_from R whole (length a + i) b.
Proof.
  revert i. induction a as [|c a IH]; intros i; simpl; [reflexivity|].
  rewrite IH, <- app_assoc, Nat.add_succ_r. reflexivity.
Qed.

Lemma lower_from_ascii (R : runtime) (whole : str) (i : nat) (m : str) :
  Forall (fun c => (c < 128)%N) m ->
  lower_from R whole i m = map ascii_lower m.
Proof.
  intros H. revert i. induction H as [|c m Hc _ IH]; intros i; simpl.
  - reflexivity.
  - apply N.ltb_lt in Hc. rewrite Hc, IH. reflexivity.
Qed.

(** A spelling of an ASCII word in any case is found in the lowered string. *)
Lemma str_lower_contains (R : runtime) (pre m post : str) :
  Forall (fun c => (c < 128)%N) m ->
  contains (map ascii_lower m) (str_lower R (pre ++ m ++ post)).
Proof.
  intros H. unfold str_lower.
  rewrite lower_from_app, lower_from_app, (lower_from_ascii R _ _ m H).
  eexists _, _. reflexivity.
Qed.

(* ===================================================================== *)
(** * The bounce detector                                                 *)
(* ===================================================================== *)

(** C5. [is_login_bounce] answers true exactly when the body text was read
    and contains the phrase, or the URL was read and, lower-cased,
    contains the marker; a read that raises counts as the signal being
    absent.  In particular every ASCII spelling of the marker, in whatever
    case, is detected. *)
Theorem is_login_bounce_iff (R : runtime) (resp : response) :
  (is_login_bounce R resp = true <->
     (exists t, resp_text resp = Ok t /\ contains (lit "统一身份认证") t)
     \/ (exists x, resp_url resp = Ok x
                   /\ contains (lit "authserver") (str_lower R x)))
  /\ (forall pre m post,
        resp_url resp = Ok (pre ++ m ++ post) ->
        Forall (fun c => (c < 128)%N) m ->
        map ascii_lower m = lit "authserver" ->
        is_login_bounce R resp = true).
Proof.
  assert (Hiff :
    is_login_bounce R resp = true <->
     (exists t, resp_text resp = Ok t /\ contains (lit "统一身份认证") t)
     \/ (exists x, resp_url resp = Ok x
                   /\ contains (lit "authserver") (str_lower R x))).
  { unfold is_login_bounce. rewrite orb_true_iff, !py_in_spec.
    assert (Hnil : forall w : str, w <> [] -> ~ contains w []).
    { intros w Hw (pre & post & H). symmetry in H.
      apply app_eq_nil in H as [_ H]. apply app_eq_nil in H as [H _].
      contradiction. }
    destruct (resp_text resp) as [t|e], (resp_url resp) as [x|e'].
    - split.
      + intros [H|H]; [left; now exists t | right; now exists x].
      + intros [(t' & [= <-] & H) | (x' & [= <-] & H)]; auto.
    - split.
      + intros [H|H]; [left; now exists t |].
        exfalso. revert H. apply Hnil. discriminate.
      + intros [(t' & [= <-] & H) | (x' & [=] & _)]. auto.
    - split.
      + intros [H|H]; [| right; now exists x].
        exfalso. revert H. apply Hnil. discriminate.
      + intros [(t' & [=] & _) | (x' & [= <-] & H)]. auto.
    - split.
      + intros [H|H]; exfalso; revert H; apply Hnil; discriminate.
      + intros [(t' & [=] & _) | (x' & [=] & _)]. }
  split; [exact Hiff|].
  intros pre m post Hurl Hascii Hm. apply Hiff. right.
  exists (pre ++ m ++ post). split; [exact Hurl|].
  rewrite <- Hm. now apply str_lower_contains.
Qed.

(** A response that was sent back from the authentication service: the
    body could not be read, the URL spells the marker with capitals. *)
Lemma is_login_bounce_iff_witness :
  is_login_bounce ascii_runtime
    {| resp_url := Ok (lit "https://AuthServer.nuaa.edu.cn/login");
       resp_text := Raise OSError; resp_content := None;
       resp_encoding := None; resp_apparent_encoding := None;
       resp_status_code := 200 |} = true.
Proof.
  apply (proj2 (is_login_bounce_iff ascii_runtime _)
               (lit "https://") (lit "AuthServer") (lit ".nuaa.edu.cn/login")).
  - reflexivity.
  - repeat constructor.
  - reflexivity.
Defined.

(* ===================================================================== *)
(** * The decoder                                                         *)
(* ===================================================================== *)

Section DecoderFacts.

Variable C : codecs.

Lemma byte_eqb_true (x y : byte) : Byte.eqb x y = true <-> x = y.
Proof. split; [apply byte_dec_bl | apply byte_dec_lb]. Qed.

Lemma gzip_test_spec (b : bytes) :
  (2 <=? length b)%nat && Byte.eqb (byte_at b 0) x1f
    && Byte.eqb (byte_at b 1) x8b = true
  <-> gzip_magic b.
Proof.
  unfold gzip_magic, begins_with, byte_at.
  rewrite !andb_true_iff, !byte_eqb_true, Nat.leb_le. split.
  - intros [[Hlen H0] H1].
    destruct b as [|b0 [|b1 rest]]; simpl in *; try lia.
    subst. now exists rest.
  - intros [rest ->]. simpl. repeat split. lia.
Qed.

Lemma zlib_test_spec (b : bytes) :
  (2 <=? length b)%nat && Byte.eqb (byte_at b 0) x78
    && existsb (Byte.eqb (byte_at b 1)) [x01; x5e; x9c; xda] = true
  <-> zlib_header b.
Proof.
  unfold zlib_header, begins_with, byte_at.
  rewrite !andb_true_iff, byte_eqb_true, Nat.leb_le, existsb_exists. split.
  - intros [[Hlen H0] (y & Hy & Heq)].
    destruct b as [|b0 [|b1 rest]]; simpl in Hlen, H0, Heq; try lia.
    apply byte_eqb_true in Heq. subst.
    exists y. split; [exact Hy | now exists rest].
  - intros (y & Hy & rest & ->). simpl. repeat split; try lia.
    exists y. split; [exact Hy | now apply byte_eqb_true].
Qed.

(** C7. The decompression step: bytes that begin with the gzip magic pair
    go through gzip, else bytes that begin with 0x78 and one of the four
    known second bytes go through zlib, all other bytes pass unchanged, and
    a decompression that fails leaves the bytes as they were. *)
Theorem maybe_decompress_cases (b : bytes) :
  (gzip_magic b ->
     _maybe_decompress C b = keep_on_failure (gzip_decompress C b) b)
  /\ (~ gzip_magic b -> zlib_header b ->
        _maybe_decompress C b = keep_on_failure (zlib_decompress C b) b)
  /\ (~ gzip_magic b -> ~ zlib_header b -> _maybe_decompress C b = b)
  /\ (forall e, gzip_magic b -> gzip_decompress C b = Raise e ->
        _maybe_decompress C b = b)
  /\ (forall e, ~ gzip_magic b -> zlib_header b ->
        zlib_decompress C b = Raise e -> _maybe_decompress C b = b).
Proof.
  unfold _maybe_decompress, keep_on_failure.
  pose proof (gzip_test_spec b) as Hg. pose proof (zlib_test_spec b) as Hz.
  destruct ((2 <=? length b)%nat && Byte.eqb (byte_at b 0) x1f
            && Byte.eqb (byte_at b 1) x8b) eqn:Eg;
  destruct ((2 <=? length b)%nat && Byte.eqb (byte_at b 0) x78
            && existsb (Byte.eqb (byte_at b 1)) [x01; x5e; x9c; xda]) eqn:Ez.
  all: repeat split; intros; try reflexivity.
  all: try match goal with
           | H : _ = Raise _ |- _ => rewrite H; reflexivity
           end.
  all: exfalso; intuition discriminate.
Qed.

Lemma decode_first_some (raw : bytes) (e : str) (encs : list (option str)) :
  In (Some e) encs -> e <> [] ->
  (exists t, bytes_decode C raw e = Ok t) ->
  exists t enc, decode_first C raw encs = Some (t, enc) /\ enc <> []
                /\ In (Some enc) encs.
Proof.
  intros Hin Hne [t Ht]. induction encs as [|o encs IH]; [contradiction|].
  destruct Hin as [-> | Hin].
  - destruct e as [|c e]; [contradiction|]. simpl. rewrite Ht.
    exists t, (c :: e). repeat split; [discriminate | now left].
  - destruct (IH Hin) as (t' & enc & H1 & H2 & H3).
    destruct o as [[|c o]|]; simpl.
    + exists t', enc. repeat split; try assumption. now right.
    + destruct (bytes_decode C raw (c :: o)) as [t''|].
      * exists t'', (c :: o). repeat split; [discriminate | now left].
      * exists t', enc. repeat split; try assumption. now right.
    + exists t', enc. repeat split; try assumption. now right.
Qed.

(** C4. Given that decoding as utf-8 with errors ignored never raises,
    [smart_read] returns, for every response (content absent, empty or
    with any bytes, hints absent, empty or naming no codec), a text and a
    non-empty encoding name, which is one of the candidates it tried. *)
Theorem smart_read_total (resp : response) :
  (forall raw, exists t, bytes_decode C raw (lit "utf-8") = Ok t) ->
  exists text enc,
    smart_read C resp = Ok (text, enc) /\ enc <> []
    /\ In (Some enc) (encodings resp).
Proof.
  intros Hutf8. unfold smart_read.
  set (raw := _maybe_decompress C _).
  destruct (decode_first_some raw (lit "utf-8") (encodings resp))
    as (t & enc & H1 & H2 & H3).
  - unfold encodings. simpl. auto.
  - discriminate.
  - apply Hutf8.
  - rewrite H1. now exists t, enc.
Qed.

End DecoderFacts.

(** Bytes with the gzip magic pair and a broken header pass through. *)
Lemma maybe_decompress_cases_witness :
  gzip_magic [x1f; x8b; x00; xff]
  /\ _maybe_decompress sample_codecs [x1f; x8b; x00; xff]
     = [x1f; x8b; x00; xff].
Proof.
  assert (H : gzip_magic [x1f; x8b; x00; xff]) by (now exists [x00; xff]).
  split; [exact H|].
  exact (proj1 (maybe_decompress_cases sample_codecs [x1f; x8b; x00; xff]) H).
Defined.

(** Broken gzip bytes, a hint that names no codec and a missing hint. *)
Lemma smart_read_total_witness :
  exists text enc,
    smart_read sample_codecs
      {| resp_url := Ok (lit "https://aao-eas.nuaa.edu.cn/eams/home.action");
         resp_text := Ok []; resp_content := Some [x1f; x8b; x00; xff];
         resp_encoding := Some (lit "no-such-codec");
         resp_apparent_encoding := None;
         resp_status_code := 200 |} = Ok (text, enc)
    /\ enc <> []
    /\ In (Some enc) (encodings
      {| resp_url := Ok (lit "https://aao-eas.nuaa.edu.cn/eams/home.action");
         resp_text := Ok []; resp_content := Some [x1f; x8b; x00; xff];
         resp_encoding := Some (lit "no-such-codec");
         resp_apparent_encoding := None;
         resp_status_code := 200 |}).
Proof.
  apply (smart_read_total sample_codecs).
  intros raw. eexists. reflexivity.
Defined.

(* ===================================================================== *)
(** * The catalog parser                                                  *)
(* ===================================================================== *)

Section CatalogFacts.

Variable R : runtime.

(** A captured repetition extends what was already taken by characters of
    the class, and is at least as long as asked. *)
Lemma repeat_class_group cls least next (s taken : str) gs r :
  repeat_class cls least next s taken = Some (gs, r) ->
  exists more gs',
    gs = (rev taken ++ more) :: gs' /\ forallb cls more = true
    /\ (least <= length taken + length more)%nat.
Proof.
  revert taken. induction s as [|c s IH]; intros taken; simpl.
  - destruct (Nat.leb_spec least (length taken)) as [Hl|]; [|discriminate].
    destruct (next []) as [[gs' r']|]; [|discriminate].
    intros [= <- <-]. exists [], gs'. rewrite app_nil_r. simpl.
    repeat split. lia.
  - assert (Hstop :
      (if (least <=? length taken)%nat
       then match next (c :: s) with
            | Some (gs0, r0) => Some (rev taken :: gs0, r0)
            | None => None
            end
       else None) = Some (gs, r) ->
      exists more gs',
        gs = (rev taken ++ more) :: gs' /\ forallb cls more = true
        /\ (least <= length taken + length more)%nat).
    { destruct (Nat.leb_spec least (length taken)) as [Hl|]; [|discriminate].
      destruct (next (c :: s)) as [[gs' r']|]; [|discriminate].
      intros [= <- <-]. exists [], gs'. rewrite app_nil_r. simpl.
      repeat split. lia. }
    destruct (cls c) eqn:Hc; [|exact Hstop].
    destruct (repeat_class cls least next s (c :: taken)) as [m|] eqn:E;
      [|exact Hstop].
    intros [= ->]. destruct (IH _ E) as (more & gs' & -> & Hall & Hlen).
    exists (c :: more), gs'. simpl in *. rewrite <- app_assoc. simpl.
    rewrite Hc, Hall. repeat split. lia.
Qed.

(** What [findall] reports is the first group of a match that begins
    somewhere in the string. *)
Lemma findall_from_In (pat : pattern) (skip : nat) (s g : str) :
  In g (findall_from pat skip s) ->
  exists before s' gs r,
    s = before ++ s' /\ re_match pat s' = Some (gs, r) /\ g = hd [] gs.
Proof.
  revert skip. induction s as [|c s IH]; intros skip;
    cbn [findall_from]; [contradiction|].
  assert (Hlater : forall k, In g (findall_from pat k s) ->
            exists before s' gs r,
              c :: s = before ++ s' /\ re_match pat s' = Some (gs, r)
              /\ g = hd [] gs).
  { intros k Hin. destruct (IH k Hin) as (before & s' & gs & r & -> & H).
    now exists (c :: before), s', gs, r. }
  destruct skip as [|k]; [|apply Hlater].
  destruct (re_match pat (c :: s)) as [[gs r]|] eqn:E; [|apply Hlater].
  intros [<- | Hin]; [|revert Hin; apply Hlater].
  now exists [], (c :: s), gs, r.
Qed.

(** Every parsed id is a non-empty run of decimal digits. *)
Lemma id_list_decimal (text t : str) :
  In t (id_list R text) -> t <> [] /\ forallb (is_decimal R) t = true.
Proof.
  intros H. apply findall_from_In in H as (before & s' & gs & r & _ & E & ->).
  unfold find_id in E. cbn [re_match] in E.
  destruct (strip_prefix (lit "id:") s') as [s''|]; [|discriminate].
  apply repeat_class_group in E as (more & gs' & -> & Hall & Hlen).
  cbn [rev app hd length] in *. split; [|exact Hall].
  destruct more; [simpl in Hlen; lia | discriminate].
Qed.

(** A text without the name: marker holds no name. *)
Lemma no_name_without_marker (s : str) :
  ~ contains (lit "name:'") s -> findall find_name s = [].
Proof.
  intros Hno. destruct (findall find_name s) as [|g more] eqn:E;
    [reflexivity|].
  exfalso. apply Hno.
  assert (Hin : In g (findall_from find_name 0 s))
    by (unfold findall in E; rewrite E; now left).
  apply findall_from_In in Hin as (before & s' & gs & r & -> & Hm & _).
  unfold find_name in Hm. cbn [re_match] in Hm.
  destruct (strip_prefix (lit "name:'") s') as [s''|] eqn:Hp; [|discriminate].
  apply strip_prefix_spec in Hp. exists before, s''. now rewrite Hp.
Qed.

(** A text whose first chunk holds no name has no entry. *)
Lemma catalog_first_chunk (text : str) :
  findall find_name (hd [] (str_split (lit "code:") text)) = [] ->
  name_list text = [] /\ catalog R text = [].
Proof.
  intros H. assert (Hn : name_list text = []).
  { unfold name_list.
    destruct (str_split (lit "code:") text) as [|item rest]; [reflexivity|].
    cbn [hd] in H. cbn [collect_names]. now rewrite H. }
  split; [exact Hn|].
  unfold catalog, course_rows, entry_count. rewrite Hn. simpl.
  now rewrite Nat.min_0_r.
Qed.

Lemma spec_records_parts :
  spec_records
  = lit "id:1001," ++ lit "code:"
    ++ lit "x name:'Math',id:1002,code:y name:'Physics',".
Proof. vm_compute. reflexivity. Qed.

(** Whatever stands around the two records of the specification's
    example, as long as the text before them holds neither marker, the
    first chunk ends with the first id and holds no name. *)
Lemma catalog_spec_records (pre post : str) :
  ~ contains (lit "code:") pre -> ~ contains (lit "name:'") pre ->
  hd [] (str_split (lit "code:") (pre ++ spec_records ++ post))
  = pre ++ lit "id:1001,"
  /\ name_list (pre ++ spec_records ++ post) = []
  /\ catalog R (pre ++ spec_records ++ post) = [].
Proof.
  intros Hcode Hname.
  assert (Hchunk :
    hd [] (str_split (lit "code:") (pre ++ spec_records ++ post))
    = pre ++ lit "id:1001,").
  { rewrite spec_records_parts, <- !app_assoc.
    rewrite (app_assoc pre (lit "id:1001,")).
    unfold str_split. rewrite split_first_chunk; [reflexivity | discriminate |].
    rewrite <- app_assoc. intros H.
    apply contains_app_cases in H as [H | [H | (k & Hk & H)]].
    - contradiction.
    - apply py_in_spec in H. vm_compute in H. discriminate.
    - assert (Hk' : (k = 1 \/ k = 2 \/ k = 3 \/ k = 4)%nat)
        by (vm_compute in Hk; lia).
      destruct Hk' as [-> | [-> | [-> | ->]]]; vm_compute in H; discriminate. }
  split; [exact Hchunk|].
  apply catalog_first_chunk. rewrite Hchunk.
  apply no_name_without_marker. intros H.
  apply contains_app_cases in H as [H | [H | (k & Hk & H)]].
  - contradiction.
  - apply py_in_spec in H. vm_compute in H. discriminate.
  - assert (Hk' : (k = 1 \/ k = 2 \/ k = 3 \/ k = 4 \/ k = 5)%nat)
      by (vm_compute in Hk; lia).
    destruct Hk' as [-> | [-> | [-> | [-> | ->]]]];
      vm_compute in H; discriminate.
Qed.

Lemma decimal_isdigit (t : str) :
  t <> [] -> forallb (is_decimal R) t = true -> isdigit R t = true.
Proof.
  intros Hne Hall. destruct t as [|c t]; [contradiction|].
  unfold isdigit. rewrite forallb_forall in *. intros x Hx.
  unfold is_digit. now rewrite (Hall x Hx).
Qed.

Lemma str_eqb_spec (a b : str) : str_eqb a b = true <-> a = b.
Proof.
  unfold str_eqb. destruct (list_eq_dec N.eq_dec a b); split; auto.
  discriminate.
Qed.

Lemma in_id_set_spec (ids : list str) (t : str) :
  in_id_set ids t = true <-> In t ids.
Proof.
  unfold in_id_set. rewrite existsb_exists. split.
  - intros (x & Hx & Heq). apply str_eqb_spec in Heq. now subst.
  - intros H. exists t. split; [exact H | now apply str_eqb_spec].
Qed.

Lemma in_id_set_false (ids : list str) (t : str) :
  ~ In t ids -> in_id_set ids t = false.
Proof.
  intros H. destruct (in_id_set ids t) eqn:E; [|reflexivity].
  apply in_id_set_spec in E. contradiction.
Qed.

Lemma course_rows_length (ids names : list str) :
  length (course_rows ids names) = Nat.min (length ids) (length names).
Proof. unfold course_rows, entry_count. now rewrite length_map, length_seq. Qed.

Lemma course_rows_In (ids names : list str) i cid name :
  In (i, cid, name) (course_rows ids names) <->
  (i < entry_count ids names)%nat
  /\ nth_error ids i = Some cid /\ nth_error names i = Some name.
Proof.
  unfold course_rows. rewrite in_map_iff. unfold entry_count. split.
  - intros (j & [= <- <- <-] & Hj). apply in_seq in Hj.
    repeat split; [lia | |]; apply nth_error_nth'; lia.
  - intros (Hi & Hc & Hn). exists i. split.
    + now rewrite (nth_error_nth _ _ _ Hc), (nth_error_nth _ _ _ Hn).
    + apply in_seq. lia.
Qed.

(** Name extraction stops at the first chunk that holds no name. *)
Lemma collect_names_stops (pre : list str) (item : str) (post : list str) :
  Forall (fun c => findall find_name c <> []) pre ->
  findall find_name item = [] ->
  collect_names (pre ++ item :: post)
  = map (fun c => hd [] (findall find_name c)) pre.
Proof.
  intros Hpre Hitem. induction Hpre as [|c pre Hc _ IH]; simpl.
  - now rewrite Hitem.
  - destruct (findall find_name c) as [|nm more]; [contradiction|].
    simpl. now rewrite IH.
Qed.

Example spec_body_records : spec_body = lit "..." ++ spec_records ++ lit "...".
Proof. vm_compute. reflexivity. Qed.

(** C1, as the code has it.  For the body of the specification's example
    the two ids are found, but its first chunk, the text before the first
    code: marker, holds no name, so name extraction stops at once: there
    is no name, the entry count is min(2, 0) = 0 and no entry is produced;
    the same holds whatever stands around the two records, as long as the
    text before them holds neither marker.  The two entries (0, 1001,
    Math) and (1, 1002, Physics) are what the parser produces for a body
    whose records write the name before the code.  In general the ids are
    the matches of the id: marker, the names are taken one per
    code:-delimited chunk up to the first chunk without a name, and the
    entries pair the i-th id with the i-th name for i below the minimum of
    the two lengths. *)
Theorem catalog_parse :
  id_list R spec_body = [lit "1001"; lit "1002"]
  /\ str_split (lit "code:") spec_body
     = [lit "...id:1001,"; lit "x name:'Math',id:1002,";
        lit "y name:'Physics',..."]
  /\ findall find_name (lit "...id:1001,") = []
  /\ name_list spec_body = []
  /\ catalog R spec_body = []
  /\ (forall pre post,
        ~ contains (lit "code:") pre -> ~ contains (lit "name:'") pre ->
        catalog R (pre ++ spec_records ++ post) = [])
  /\ catalog R ordered_body = two_entries
  /\ (forall text,
        length (catalog R text)
        = Nat.min (length (id_list R text)) (length (name_list text)))
  /\ (forall text i cid name,
        In (i, cid, name) (catalog R text) <->
        (i < Nat.min (length (id_list R text)) (length (name_list text)))%nat
        /\ nth_error (id_list R text) i = Some cid
        /\ nth_error (name_list text) i = Some name)
  /\ (forall pre item post,
        Forall (fun c => findall find_name c <> []) pre ->
        findall find_name item = [] ->
        collect_names (pre ++ item :: post)
        = map (fun c => hd [] (findall find_name c)) pre).
Proof.
  do 5 (split; [vm_compute; reflexivity|]).
  split; [intros pre post Hc Hn; now apply catalog_spec_records|].
  split; [vm_compute; reflexivity|].
  split; [|split].
  - intros text. apply course_rows_length.
  - intros text i cid name. apply course_rows_In.
  - apply collect_names_stops.
Qed.

End CatalogFacts.

(** The specification's example does not parse to the two entries,
    whatever the interpreter's tables. *)
Lemma catalog_spec_body_differs :
  ~ (exists R : runtime, catalog R spec_body = two_entries).
Proof. intros [R H]. vm_compute in H. discriminate. Qed.

(** The early stop on the chunks of a body whose records write the name
    before the code: the third chunk holds no name. *)
Lemma catalog_parse_witness :
  collect_names
    ([lit "id:1001,name:'Math',"; lit "x,id:1002,name:'Physics',"]
       ++ lit "y," :: [])
  = [lit "Math"; lit "Physics"].
Proof.
  apply (proj2 (proj2 (proj2 (proj2 (proj2 (proj2 (proj2 (proj2 (proj2
           (catalog_parse ascii_runtime)))))))))
         [lit "id:1001,name:'Math',"; lit "x,id:1002,name:'Physics',"]
         (lit "y,") []).
  - repeat constructor; vm_compute; discriminate.
  - reflexivity.
Defined.

(* ===================================================================== *)
(** * The selection loop                                                  *)
(* ===================================================================== *)

Section SelectionFacts.

Variable R : runtime.

(** A token of ASCII digits that is not overlong is one [int] converts. *)
Lemma py_int_ascii_digits (t : str) :
  isdigit R t = true -> Forall (fun c => (c < 128)%N) t ->
  (length t <= 640)%nat -> exists v, py_int R t = Ok v.
Proof.
  intros Hd Hascii Hlen.
  assert (Hval : forall acc, exists v, decimal_value R acc t = Some v).
  { assert (Hall : forallb (is_digit R) t = true)
      by (destruct t; [discriminate | exact Hd]).
    clear Hd Hlen. induction Hascii as [|c t Hc _ IH]; intros acc; simpl.
    - now exists acc.
    - simpl in Hall. apply andb_true_iff in Hall as [Hdc Hall].
      unfold is_digit, is_decimal in Hdc. apply N.ltb_lt in Hc.
      rewrite Hc in Hdc. simpl in Hdc. rewrite orb_false_r in Hdc.
      destruct (to_decimal R c) as [d|]; [|discriminate]. now apply IH. }
  destruct (Hval 0%N) as [v Hv]. exists v. unfold py_int.
  destruct t as [|c t]; [discriminate|]. rewrite Hv.
  apply Nat.leb_le in Hlen. now rewrite Hlen.
Qed.

(** One turn of the loop, by the case its token falls in. *)
Lemma select_loop_step (ids : list str) (n : nat) (t : str)
    (rest chosen : list str) (out : list info_line) :
  (isdigit R t = false ->
     select_loop R ids n (t :: rest) chosen out
     = select_loop R ids n rest chosen (out ++ [IllegalInput t]))
  /\ (forall v cid,
        isdigit R t = true -> py_int R t = Ok v -> (v < N.of_nat n)%N ->
        nth_error ids (N.to_nat v) = Some cid ->
        select_loop R ids n (t :: rest) chosen out
        = select_loop R ids n rest (chosen ++ [cid]) out)
  /\ (forall v,
        isdigit R t = true -> py_int R t = Ok v -> (N.of_nat n <= v)%N ->
        In t ids ->
        select_loop R ids n (t :: rest) chosen out
        = select_loop R ids n rest (chosen ++ [t]) out)
  /\ (forall v,
        isdigit R t = true -> py_int R t = Ok v -> (N.of_nat n <= v)%N ->
        ~ In t ids ->
        select_loop R ids n (t :: rest) chosen out
        = select_loop R ids n rest chosen (out ++ [NotFound t])).
Proof.
  repeat split.
  - intros Hd. cbn [select_loop]. now rewrite Hd.
  - intros v cid Hd Hv Hlt Hnth. cbn [select_loop].
    apply N.ltb_lt in Hlt. now rewrite Hd, Hv, Hlt, Hnth.
  - intros v Hd Hv Hge Hin. cbn [select_loop].
    apply N.ltb_ge in Hge. apply in_id_set_spec in Hin.
    now rewrite Hd, Hv, Hge, Hin.
  - intros v Hd Hv Hge Hin. cbn [select_loop].
    apply N.ltb_ge in Hge. apply in_id_set_false in Hin.
    now rewrite Hd, Hv, Hge, Hin.
Qed.

(** The loop returns the picks and prints the warnings of its tokens, in
    the order of the tokens. *)
Lemma select_loop_rule (ids : list str) (n : nat) (tokens : list str)
    (vs : list verdict) :
  Forall2 (token_rule R ids n) tokens vs ->
  forall chosen out,
    select_loop R ids n tokens chosen out
    = (out ++ warnings vs, Ok (chosen ++ picks vs)).
Proof.
  induction 1 as [|t v tokens vs Hrule _ IH]; intros chosen out.
  - simpl. now rewrite !app_nil_r.
  - destruct (select_loop_step ids n t tokens chosen out)
      as (S1 & S2 & S3 & S4).
    destruct Hrule as [Hd | w cid Hd Hw Hlt Hnth | w Hd Hw Hge Hin
                      | w Hd Hw Hge Hin].
    + rewrite (S1 Hd), IH. simpl. now rewrite <- app_assoc.
    + rewrite (S2 w cid Hd Hw Hlt Hnth), IH. simpl. now rewrite <- app_assoc.
    + rewrite (S3 w Hd Hw Hge Hin), IH. simpl. now rewrite <- app_assoc.
    + rewrite (S4 w Hd Hw Hge Hin), IH. simpl. now rewrite <- app_assoc.
Qed.

(** Every token that is not numeric, or that [int] converts, falls under
    the rule, provided the entry count does not exceed the id list. *)
Lemma token_rule_total (ids : list str) (n : nat) (t : str) :
  (n <= length ids)%nat ->
  (isdigit R t = true -> exists v, py_int R t = Ok v) ->
  exists v, token_rule R ids n t v.
Proof.
  intros Hn Ht. destruct (isdigit R t) eqn:Hd.
  - destruct (Ht eq_refl) as [v Hv].
    destruct (N.lt_ge_cases v (N.of_nat n)) as [Hlt|Hge].
    + destruct (nth_error ids (N.to_nat v)) as [cid|] eqn:Hnth.
      * exists (Pick cid). now apply rule_position with v.
      * apply nth_error_None in Hnth. lia.
    + destruct (in_id_set ids t) eqn:Hin.
      * apply in_id_set_spec in Hin. exists (Pick t).
        now apply rule_literal with v.
      * exists (Skip (NotFound t)). apply rule_unknown with v; auto.
        intros H. apply in_id_set_spec in H. congruence.
  - exists (Skip (IllegalInput t)). now apply rule_not_numeric.
Qed.

(** The selection loop on the tokens that [int] converts, token by token:
    a token that is not numeric is skipped with a warning; a token whose
    value is a position of the entry list resolves to the id at that
    position, which exists; otherwise a token that is literally a known id
    is taken as it is; any other token is skipped with a warning; the
    chosen ids and the warnings come in the order of the tokens.  In
    particular, with three entries of which entry 1 has id 1002, and no
    course of id 9, the tokens 1, 1002 and 9 choose exactly two ids, the
    first by position and the second literally, and the third token is
    skipped with a warning. *)
Lemma select_loop_follows_rule (ids names : list str) :
  (forall t rest chosen out,
     isdigit R t = false ->
     select_loop R ids (entry_count ids names) (t :: rest) chosen out
     = select_loop R ids (entry_count ids names) rest chosen
                   (out ++ [IllegalInput t]))
  /\ (forall t v rest chosen out,
        isdigit R t = true -> py_int R t = Ok v ->
        (v < N.of_nat (entry_count ids names))%N ->
        exists cid,
          nth_error ids (N.to_nat v) = Some cid
          /\ select_loop R ids (entry_count ids names) (t :: rest) chosen out
             = select_loop R ids (entry_count ids names) rest
                           (chosen ++ [cid]) out)
  /\ (forall t v rest chosen out,
        isdigit R t = true -> py_int R t = Ok v ->
        (N.of_nat (entry_count ids names) <= v)%N -> In t ids ->
        select_loop R ids (entry_count ids names) (t :: rest) chosen out
        = select_loop R ids (entry_count ids names) rest
                      (chosen ++ [t]) out)
  /\ (forall t v rest chosen out,
        isdigit R t = true -> py_int R t = Ok v ->
        (N.of_nat (entry_count ids names) <= v)%N -> ~ In t ids ->
        select_loop R ids (entry_count ids names) (t :: rest) chosen out
        = select_loop R ids (entry_count ids names) rest chosen
                      (out ++ [NotFound t]))
  /\ (forall tokens vs chosen out,
        Forall2 (token_rule R ids (entry_count ids names)) tokens vs ->
        select_loop R ids (entry_count ids names) tokens chosen out
        = (out ++ warnings vs, Ok (chosen ++ picks vs)))
  /\ (entry_count ids names = 3%nat ->
      nth_error ids 1 = Some (lit "1002") ->
      ~ In (lit "9") ids ->
      select_loop R ids (entry_count ids names)
                  [lit "1"; lit "1002"; lit "9"] [] []
      = ([NotFound (lit "9")], Ok [lit "1002"; lit "1002"])).
Proof.
  split; [|split; [|split; [|split; [|split]]]].
  - intros t rest chosen out.
    apply (select_loop_step ids (entry_count ids names) t rest chosen out).
  - intros t v rest chosen out Hd Hv Hlt.
    destruct (nth_error ids (N.to_nat v)) as [cid|] eqn:Hnth.
    + exists cid. split; [reflexivity|].
      now apply (select_loop_step ids (entry_count ids names) t rest
                                  chosen out) with v.
    + apply nth_error_None in Hnth. unfold entry_count in Hlt. lia.
  - intros t v rest chosen out.
    apply (select_loop_step ids (entry_count ids names) t rest chosen out).
  - intros t v rest chosen out.
    apply (select_loop_step ids (entry_count ids names) t rest chosen out).
  - intros tokens vs chosen out H. now apply select_loop_rule.
  - intros Hn H1 H9.
    apply (select_loop_rule ids (entry_count ids names)
             [lit "1"; lit "1002"; lit "9"]
             [Pick (lit "1002"); Pick (lit "1002"); Skip (NotFound (lit "9"))]).
    rewrite Hn. repeat constructor.
    + now apply rule_position with 1%N.
    + apply rule_literal with 1002%N; try reflexivity.
      * vm_compute. discriminate.
      * now apply nth_error_In with 1%nat.
    + apply rule_unknown with 9%N; try reflexivity; [|exact H9].
      vm_compute. discriminate.
Qed.

(** The loop stops at the first token that [isdigit] lets through and
    [int] rejects: the tokens before it are treated by the rule, the
    [ValueError] ends the loop, and no later token is looked at. *)
Lemma select_loop_raises (ids : list str) (n : nat) (pre : list str)
    (vs : list verdict) (t : str) (rest : list str) :
  Forall2 (token_rule R ids n) pre vs ->
  isdigit R t = true -> py_int R t = Raise ValueError ->
  forall chosen out,
    select_loop R ids n (pre ++ t :: rest) chosen out
    = (out ++ warnings vs, Raise ValueError).
Proof.
  intros Hpre Hd Hi.
  induction Hpre as [|p v pre vs Hrule _ IH]; intros chosen out.
  - cbn [app select_loop warnings flat_map]. rewrite Hd, Hi. cbn [negb].
    now rewrite app_nil_r.
  - cbn [app].
    destruct (select_loop_step ids n p (pre ++ t :: rest) chosen out)
      as (S1 & S2 & S3 & S4).
    destruct Hrule as [Hp | w cid Hp Hw Hlt Hnth | w Hp Hw Hge Hin
                      | w Hp Hw Hge Hin].
    + rewrite (S1 Hp), IH. simpl. now rewrite <- app_assoc.
    + rewrite (S2 w cid Hp Hw Hlt Hnth), IH. reflexivity.
    + rewrite (S3 w Hp Hw Hge Hin), IH. reflexivity.
    + rewrite (S4 w Hp Hw Hge Hin), IH. simpl. now rewrite <- app_assoc.
Qed.

(** C10. The literal test looks a token up in the whole list of parsed
    ids, after the test of the position.  For a token that [int] converts:
    when its value is a position of the entry list, the id at that
    position is chosen, whatever the token is; when it is not, the token
    is chosen exactly when it is one of the parsed ids, wherever it stands
    in the id list, also at or beyond the entry count, where no row was
    printed for it, and else it is skipped with a warning. *)
Theorem literal_id_full_list (text t : str) (v : N) :
  isdigit R t = true -> py_int R t = Ok v ->
  ((v < N.of_nat (entry_count (id_list R text) (name_list text)))%N ->
   exists cid,
     nth_error (id_list R text) (N.to_nat v) = Some cid
     /\ forall rest chosen out,
          select_loop R (id_list R text)
                      (entry_count (id_list R text) (name_list text))
                      (t :: rest) chosen out
          = select_loop R (id_list R text)
                        (entry_count (id_list R text) (name_list text))
                        rest (chosen ++ [cid]) out)
  /\ ((N.of_nat (entry_count (id_list R text) (name_list text)) <= v)%N ->
      (In t (id_list R text) ->
       forall rest chosen out,
         select_loop R (id_list R text)
                     (entry_count (id_list R text) (name_list text))
                     (t :: rest) chosen out
         = select_loop R (id_list R text)
                       (entry_count (id_list R text) (name_list text))
                       rest (chosen ++ [t]) out)
      /\ (~ In t (id_list R text) ->
          forall rest chosen out,
            select_loop R (id_list R text)
                        (entry_count (id_list R text) (name_list text))
                        (t :: rest) chosen out
            = select_loop R (id_list R text)
                          (entry_count (id_list R text) (name_list text))
                          rest chosen (out ++ [NotFound t]))
      /\ (select_loop R (id_list R text)
                      (entry_count (id_list R text) (name_list text))
                      [t] [] []
          = ([], Ok [t])
          <-> In t (id_list R text))
      /\ (forall i,
            nth_error (id_list R text) i = Some t ->
            (entry_count (id_list R text) (name_list text) <= i)%nat ->
            select_loop R (id_list R text)
                        (entry_count (id_list R text) (name_list text))
                        [t] [] []
            = ([], Ok [t]))).
Proof.
  intros Hd Hint.
  set (ids := id_list R text). set (n := entry_count ids (name_list text)).
  split.
  - intros Hlt. destruct (nth_error ids (N.to_nat v)) as [cid|] eqn:Hnth.
    + exists cid. split; [reflexivity|]. intros rest chosen out.
      now apply (select_loop_step ids n t rest chosen out) with v.
    + apply nth_error_None in Hnth. unfold n, entry_count in Hlt. lia.
  - intros Hge.
    assert (Hin : In t ids ->
                  forall rest chosen out,
                    select_loop R ids n (t :: rest) chosen out
                    = select_loop R ids n rest (chosen ++ [t]) out).
    { intros Hin rest chosen out.
      now apply (select_loop_step ids n t rest chosen out) with v. }
    assert (Hout : ~ In t ids ->
                   forall rest chosen out,
                     select_loop R ids n (t :: rest) chosen out
                     = select_loop R ids n rest chosen (out ++ [NotFound t])).
    { intros Hno rest chosen out.
      now apply (select_loop_step ids n t rest chosen out) with v. }
    split; [exact Hin|]. split; [exact Hout|]. split; [split|].
    + intros H. destruct (in_id_set ids t) eqn:E;
        [now apply in_id_set_spec|].
      assert (Hno : ~ In t ids).
      { intros Hi. apply in_id_set_spec in Hi. congruence. }
      rewrite (Hout Hno) in H. discriminate H.
    + intros Hi. now rewrite (Hin Hi).
    + intros i Hnth _. rewrite (Hin (nth_error_In _ _ Hnth)). reflexivity.
Qed.

End SelectionFacts.

(** Three entries, entry 1 of id 1002, and the tokens 1, 1002 and 9. *)
Lemma select_loop_follows_rule_witness :
  select_loop ascii_runtime [lit "1001"; lit "1002"; lit "1003"]
    (entry_count [lit "1001"; lit "1002"; lit "1003"]
                 [lit "Math"; lit "Physics"; lit "Logic"])
    [lit "1"; lit "1002"; lit "9"] [] []
  = ([NotFound (lit "9")], Ok [lit "1002"; lit "1002"]).
Proof.
  apply (proj2 (proj2 (proj2 (proj2 (proj2
           (select_loop_follows_rule ascii_runtime
              [lit "1001"; lit "1002"; lit "1003"]
              [lit "Math"; lit "Physics"; lit "Logic"])))))).
  - reflexivity.
  - reflexivity.
  - intros [H|[H|[H|[]]]]; discriminate H.
Defined.

(** C6. A token that [isdigit] accepts and [int] rejects is not skipped
    with a warning: the [ValueError] of [int] ends the loop, and with it
    [course_info], before any later token is looked at.  Such tokens are
    a digit that is no decimal digit, as the superscript two, and a run of
    digits longer than [int] converts; with three entries of ids 1001,
    1002 and 1003 the tokens 1, superscript two and 1002 choose nothing,
    and neither does the overlong token. *)
Theorem digit_token_ends_the_loop :
  (forall (R : runtime) (ids names pre : list str) (vs : list verdict)
          (t : str) (rest chosen : list str) (out : list info_line),
      Forall2 (token_rule R ids (entry_count ids names)) pre vs ->
      isdigit R t = true -> py_int R t = Raise ValueError ->
      select_loop R ids (entry_count ids names) (pre ++ t :: rest) chosen out
      = (out ++ warnings vs, Raise ValueError))
  /\ (forall (R : runtime) (text : str) (pre : list str) (vs : list verdict)
             (t : str) (rest : list str),
         id_list R text <> [] ->
         Forall2 (token_rule R (id_list R text)
                    (entry_count (id_list R text) (name_list text))) pre vs ->
         isdigit R t = true -> py_int R t = Raise ValueError ->
         snd (course_info R text (pre ++ t :: rest)) = Uncaught ValueError)
  /\ isdigit superscript_runtime (lit "²") = true
  /\ py_int superscript_runtime (lit "²") = Raise ValueError
  /\ select_loop superscript_runtime [lit "1001"; lit "1002"; lit "1003"]
       (entry_count [lit "1001"; lit "1002"; lit "1003"]
                    [lit "Math"; lit "Physics"; lit "Logic"])
       [lit "1"; lit "²"; lit "1002"] [] []
     = ([], Raise ValueError)
  /\ isdigit ascii_runtime overlong_token = true
  /\ py_int ascii_runtime overlong_token = Raise ValueError
  /\ select_loop ascii_runtime [lit "1001"; lit "1002"; lit "1003"]
       (entry_count [lit "1001"; lit "1002"; lit "1003"]
                    [lit "Math"; lit "Physics"; lit "Logic"])
       [overlong_token] [] []
     = ([], Raise ValueError).
Proof.
  split; [|split].
  - intros R ids names pre vs t rest chosen out Hpre Hd Hi.
    now apply select_loop_raises.
  - intros R text pre vs t rest Hids Hpre Hd Hi. unfold course_info.
    destruct (id_list R text) as [|i0 ids] eqn:E; [contradiction|].
    rewrite (select_loop_raises R _ _ pre vs t rest Hpre Hd Hi).
    reflexivity.
  - repeat split; vm_compute; reflexivity.
Qed.

(** The token 0 against a catalog whose second id, 0, has no row: the
    token is a parsed id beyond the entry count, and what is chosen is the
    id of row 0. *)
Lemma literal_id_row_number :
  id_list ascii_runtime row_number_body = [lit "7001"; lit "0"]
  /\ catalog ascii_runtime row_number_body = [(0%nat, lit "7001", lit "A")]
  /\ entry_count (id_list ascii_runtime row_number_body)
                 (name_list row_number_body) = 1%nat
  /\ nth_error (id_list ascii_runtime row_number_body) 1 = Some (lit "0")
  /\ select_loop ascii_runtime (id_list ascii_runtime row_number_body)
       (entry_count (id_list ascii_runtime row_number_body)
                    (name_list row_number_body))
       [lit "0"] [] []
     = ([], Ok [lit "7001"])
  /\ ~ In (lit "0") [lit "7001"].
Proof.
  repeat split; try (vm_compute; reflexivity).
  intros [H|[]]. discriminate H.
Qed.

(** A catalog of two ids and one name: one row is printed, and the second
    id, which has no row, is accepted as a token. *)
Lemma literal_id_full_list_witness :
  id_list ascii_runtime (lit "id:7001,name:'A',code:x,id:7002,")
  = [lit "7001"; lit "7002"]
  /\ catalog ascii_runtime (lit "id:7001,name:'A',code:x,id:7002,")
     = [(0%nat, lit "7001", lit "A")]
  /\ select_loop ascii_runtime
       (id_list ascii_runtime (lit "id:7001,name:'A',code:x,id:7002,"))
       (entry_count
          (id_list ascii_runtime (lit "id:7001,name:'A',code:x,id:7002,"))
          (name_list (lit "id:7001,name:'A',code:x,id:7002,")))
       [lit "7002"] [] []
     = ([], Ok [lit "7002"]).
Proof.
  split; [reflexivity|]. split; [reflexivity|].
  assert (Hd : isdigit ascii_runtime (lit "7002") = true) by reflexivity.
  assert (Hi : py_int ascii_runtime (lit "7002") = Ok 7002%N) by reflexivity.
  assert (Hge : (N.of_nat
                   (entry_count
                      (id_list ascii_runtime
                               (lit "id:7001,name:'A',code:x,id:7002,"))
                      (name_list (lit "id:7001,name:'A',code:x,id:7002,")))
                 <= 7002)%N) by (vm_compute; discriminate).
  apply (proj2 (proj2 (proj2 (proj2
           (literal_id_full_list ascii_runtime
              (lit "id:7001,name:'A',code:x,id:7002,") (lit "7002") 7002%N
              Hd Hi) Hge))) 1%nat).
  - reflexivity.
  - vm_compute. lia.
Defined.

(* ===================================================================== *)
(** * The submission loop                                                 *)
(* ===================================================================== *)

Lemma Qltb_spec (x y : Q) : Qltb x y = true <-> x < y.
Proof.
  unfold Qltb. rewrite negb_true_iff. split.
  - intros H. apply Qnot_le_lt. intros Hle.
    apply Qle_bool_iff in Hle. congruence.
  - intros H. destruct (Qle_bool y x) eqn:E; [|reflexivity].
    apply Qle_bool_iff in E. lra.
Qed.

Lemma POST_MIN_GAP_pos : 0 < POST_MIN_GAP.
Proof. reflexivity. Qed.

Section SchedulerFacts.

Variable R : runtime.
Variable C : codecs.
Variable W : world.

(** ** What each primitive does to the state *)

Lemma time_sleep_state (d : Q) (st : state) :
  log (time_sleep W d st) = Sleep d :: log st
  /\ mono (time_sleep W d st)
     = mono st + (d + sleep_overrun W (length (log st)))
  /\ wall (time_sleep W d st)
     = wall st + (d + sleep_overrun W (length (log st)))
  /\ last_post_ts (time_sleep W d st) = last_post_ts st.
Proof. repeat split. Qed.

Lemma session_post_state (url : str) (data : form) (st : state) :
  fst (session_post W url data st) = post_result W (length (log st))
  /\ log (snd (session_post W url data st))
     = Post url data (mono st) (wall st) :: log st
  /\ mono (snd (session_post W url data st))
     = mono st + post_duration W (length (log st))
  /\ wall (snd (session_post W url data st))
     = wall st + post_duration W (length (log st))
  /\ last_post_ts (snd (session_post W url data st)) = last_post_ts st.
Proof. repeat split. Qed.

Lemma attempt_ends (url : str) (data : form) (st : state) :
  attempt_end W url data st (attempt R C W url data st).
Proof.
  unfold attempt.
  destruct (session_post W url data (throttle W st)) as [r st2] eqn:E.
  assert (Hr : r = post_result W (length (log (throttle W st))))
    by (now injection E).
  assert (Hst : st2 = snd (session_post W url data (throttle W st)))
    by (now rewrite E).
  destruct r as [resp|e].
  - destruct (is_login_bounce R resp).
    + rewrite Hst. now apply end_continue with resp.
    + destruct (smart_read C resp) as [[body enc]|e].
      * destruct (too_fast body (resp_status_code resp)); rewrite Hst.
        -- now apply end_break_backoff with resp.
        -- now apply end_break with resp.
      * rewrite Hst. now apply end_continue with resp.
  - rewrite Hst. now apply end_raised with e.
Qed.

(** ** Invariants of the loop *)

Section Invariant.

Variable P : state -> Prop.
Variable urls : list str.
Variable fs : list form.

Hypothesis P_attempt :
  forall url data st,
    In url urls -> In data fs -> P st -> P (snd (attempt R C W url data st)).
Hypothesis P_print : forall l st, P st -> P (print l st).

Lemma submit_invariant (us : list str) (data : form) (st : state) :
  incl us urls -> In data fs -> P st -> P (snd (submit R C W us data st)).
Proof.
  intros Hus Hdata. revert st.
  induction us as [|url us IH]; intros st Hst; simpl; [exact Hst|].
  assert (Hu : In url urls) by (apply Hus; now left).
  pose proof (P_attempt url data st Hu Hdata Hst) as H.
  destruct (attempt R C W url data st) as [[|] st']; simpl in *.
  - exact H.
  - apply IH; [|exact H]. intros x Hx. apply Hus. now right.
Qed.

Lemma submit_course_invariant (data : form) (st : state) :
  In data fs -> P st -> P (submit_course R C W urls st data).
Proof.
  intros Hdata Hst. unfold submit_course.
  pose proof (submit_invariant urls data st (incl_refl _) Hdata Hst) as H.
  destruct (submit R C W urls data st) as [[|] st']; simpl in *.
  - exact H.
  - now apply P_print.
Qed.

Lemma pass_invariant (ds : list form) (st : state) :
  incl ds fs -> P st -> P (fold_left (submit_course R C W urls) ds st).
Proof.
  revert st. induction ds as [|data ds IH]; intros st Hds Hst; simpl.
  - exact Hst.
  - apply IH.
    + intros x Hx. apply Hds. now right.
    + apply submit_course_invariant; [apply Hds; now left | exact Hst].
Qed.

End Invariant.

Lemma loop_invariant (P : state -> Prop) (dt : Q) (urls : list str)
    (fs : list form) :
  (forall st, P st -> P (iteration R C W dt urls fs st)) ->
  forall turns st, P st -> P (loop R C W turns dt urls fs st).
Proof.
  intros Hit turns. induction turns as [|k IH]; intros st Hst; simpl.
  - exact Hst.
  - apply IH, Hit, Hst.
Qed.

End SchedulerFacts.

(** The pacing gate: it adds at most one sleep to the log, lets no clock
    run backwards, leaves [last_post_ts] alone, and ends no earlier than
    the minimum gap after [last_post_ts]. *)
Lemma throttle_state (W : world) (st : state) :
  time_forward W ->
  (mono st - last_post_ts st < POST_MIN_GAP ->
     log (throttle W st)
     = Sleep (POST_MIN_GAP - (mono st - last_post_ts st)) :: log st)
  /\ (~ mono st - last_post_ts st < POST_MIN_GAP -> throttle W st = st)
  /\ post_times (log (throttle W st)) = post_times (log st)
  /\ wall st <= wall (throttle W st)
  /\ last_post_ts (throttle W st) = last_post_ts st
  /\ last_post_ts st + POST_MIN_GAP <= mono (throttle W st).
Proof.
  intros [_ Hover]. unfold throttle.
  destruct (Qltb (mono st - last_post_ts st) POST_MIN_GAP) eqn:E.
  - apply Qltb_spec in E.
    pose proof (Hover (length (log st))) as Ho. step_state.
    repeat split; try reflexivity; try lra; try (intros; contradiction).
  - assert (Hn : ~ mono st - last_post_ts st < POST_MIN_GAP).
    { intros H. apply Qltb_spec in H. congruence. }
    repeat split; try reflexivity; try lra; try (intros; contradiction).
Qed.

(** ** C9: nothing is posted before the open time *)

Lemma attempt_posts_after (R : runtime) (C : codecs) (W : world) (dt : Q)
    (url : str) (data : form) (st : state) :
  time_forward W ->
  dt <= wall st /\ posts_after dt (log st) ->
  dt <= wall (snd (attempt R C W url data st))
  /\ posts_after dt (log (snd (attempt R C W url data st))).
Proof.
  intros HW [Hopen Hlog].
  destruct (throttle_state W st HW) as (Hs & Hk & _ & Hwall & _ & _).
  assert (Hlog1 : posts_after dt (log (throttle W st))).
  { destruct (Qlt_le_dec (mono st - last_post_ts st) POST_MIN_GAP) as [H|H].
    - rewrite (Hs H). now constructor.
    - rewrite Hk; [exact Hlog | lra]. }
  destruct HW as [Hdur Hover].
  pose proof (Hdur (length (log (throttle W st)))) as Hd.
  unfold posts_after in *.
  destruct (attempt_ends R C W url data st); step_state.
  - split; [lra|]. constructor; [lra | exact Hlog1].
  - split; [lra|]. constructor; [lra | exact Hlog1].
  - split; [lra|]. repeat constructor; [lra | exact Hlog1].
  - match goal with
    | |- context [sleep_overrun W ?k] => pose proof (Hover k) as Ho
    end.
    assert (0 <= BACKOFF_SECONDS) by (unfold BACKOFF_SECONDS; lra).
    split; [lra|]. repeat constructor; [lra | exact Hlog1].
Qed.

Lemma iteration_posts_after (R : runtime) (C : codecs) (W : world) (dt : Q)
    (urls : list str) (fs : list form) (st : state) :
  time_forward W ->
  posts_after dt (log st) ->
  posts_after dt (log (iteration R C W dt urls fs st)).
Proof.
  intros HW Hlog. unfold iteration.
  destruct (Qle_bool dt (wall st)) eqn:E.
  - apply Qle_bool_iff in E.
    assert (H : dt <= wall (fold_left (submit_course R C W urls) fs st)
                /\ posts_after dt
                     (log (fold_left (submit_course R C W urls) fs st))).
    { apply (pass_invariant R C W
               (fun s => dt <= wall s /\ posts_after dt (log s)) urls fs).
      - intros url data s _ _. now apply attempt_posts_after.
      - intros l s [H1 H2]. split; [exact H1|]. now constructor.
      - apply incl_refl.
      - now split. }
    destruct H as [_ H]. unfold posts_after. step_state. now constructor.
  - unfold posts_after. step_state. now repeat constructor.
Qed.

(** C9. While the wall clock reads less than the open time, a turn of the
    loop prints the waiting line with the remaining time, sleeps, and
    posts nothing; and in any run, of any number of turns, every POST was
    issued at a wall-clock reading that had reached the open time. *)
Theorem no_post_before_open_time (R : runtime) (C : codecs) (W : world)
    (dt : Q) :
  time_forward W ->
  (forall urls fs st,
     wall st < dt ->
     log (iteration R C W dt urls fs st)
     = Sleep POST_INTERVAL :: Print (NotOpenYet (dt - wall st)) :: log st)
  /\ (forall lesson_ids pid used_param mono0 wall0 turns url data m w,
        In (Post url data m w)
           (log (grab_courses R C W lesson_ids pid used_param
                              dt mono0 wall0 turns)) ->
        dt <= w).
Proof.
  intros HW. split.
  - intros urls fs st Hlt. unfold iteration.
    destruct (Qle_bool dt (wall st)) eqn:E.
    + apply Qle_bool_iff in E. lra.
    + reflexivity.
  - intros lesson_ids pid used_param mono0 wall0 turns url data m w Hin.
    assert (H : posts_after dt
                  (log (grab_courses R C W lesson_ids pid used_param
                                     dt mono0 wall0 turns))).
    { unfold grab_courses.
      apply (loop_invariant R C W (fun s => posts_after dt (log s))).
      - intros s. now apply iteration_posts_after.
      - simpl. now repeat constructor. }
    unfold posts_after in H. rewrite Forall_forall in H.
    exact (H _ Hin).
Qed.

(** One course, open at 10, started at 5: the first turn waits. *)
Lemma answering_time_forward : time_forward answering.
Proof. split; intros k; discriminate. Qed.

Lemma no_post_before_open_time_witness :
  log (iteration ascii_runtime sample_codecs answering 10
         (post_urls (lit "4665") (lit "profileId")) (forms [lit "500"])
         {| mono := 100; wall := 5; last_post_ts := 0;
            log := [Print StartWaiting] |})
  = [Sleep POST_INTERVAL; Print (NotOpenYet (10 - 5)); Print StartWaiting].
Proof.
  exact (proj1 (no_post_before_open_time ascii_runtime sample_codecs
                  answering 10 answering_time_forward)
               (post_urls (lit "4665") (lit "profileId")) (forms [lit "500"])
               {| mono := 100; wall := 5; last_post_ts := 0;
                  log := [Print StartWaiting] |}
               eq_refl).
Defined.

(** ** C3: the pacing gate *)

(** The log an attempt leaves: the gate's log, the POST issued when the
    gate let go, and on top of it lines and sleeps but no further POST. *)
Lemma attempt_log (R : runtime) (C : codecs) (W : world)
    (url : str) (data : form) (st : state) :
  exists tail,
    log (snd (attempt R C W url data st))
    = tail ++ Post url data (mono (throttle W st)) (wall (throttle W st))
              :: log (throttle W st)
    /\ post_times tail = [].
Proof.
  destruct (attempt_ends R C W url data st); step_state.
  - now exists [].
  - now exists [].
  - now exists [Print l].
  - now exists [Sleep BACKOFF_SECONDS; Print l].
Qed.

(** When every POST is answered, an attempt keeps the POSTs paced and no
    POST later than [last_post_ts]. *)
Lemma attempt_paced (R : runtime) (C : codecs) (W : world)
    (url : str) (data : form) (st : state) :
  time_forward W -> always_answers W ->
  Forall (fun m => m <= last_post_ts st) (post_times (log st))
  /\ paced (log st) ->
  Forall (fun m => m <= last_post_ts (snd (attempt R C W url data st)))
         (post_times (log (snd (attempt R C W url data st))))
  /\ paced (log (snd (attempt R C W url data st))).
Proof.
  intros HW Hans [Hlast Hpaced].
  destruct (throttle_state W st HW) as (_ & _ & Htimes & _ & _ & Hgap).
  destruct HW as [Hdur _].
  pose proof (Hdur (length (log (throttle W st)))) as Hd.
  pose proof POST_MIN_GAP_pos as Hpos.
  assert (Hold : Forall (fun m => m + POST_MIN_GAP <= mono (throttle W st))
                        (post_times (log st))).
  { eapply Forall_impl; [|exact Hlast]. simpl. intros m Hm. lra. }
  assert (Hnew : Forall (fun m => m <= mono (throttle W st)
                                       + post_duration W
                                           (length (log (throttle W st))))
                        (mono (throttle W st) :: post_times (log st))).
  { constructor; [lra|]. eapply Forall_impl; [|exact Hold].
    simpl. intros m Hm. lra. }
  unfold paced in *.
  destruct (attempt_ends R C W url data st) as [e He|resp He|resp l He|resp l He].
  - destruct (Hans (length (log (throttle W st)))) as [resp Hr]. congruence.
  - step_state. rewrite Htimes. split; [exact Hnew|]. now constructor.
  - step_state. rewrite Htimes. split; [exact Hnew|]. now constructor.
  - step_state. rewrite Htimes. split; [exact Hnew|]. now constructor.
Qed.

Lemma iteration_paced (R : runtime) (C : codecs) (W : world) (dt : Q)
    (urls : list str) (fs : list form) (st : state) :
  time_forward W -> always_answers W ->
  Forall (fun m => m <= last_post_ts st) (post_times (log st))
  /\ paced (log st) ->
  Forall (fun m => m <= last_post_ts (iteration R C W dt urls fs st))
         (post_times (log (iteration R C W dt urls fs st)))
  /\ paced (log (iteration R C W dt urls fs st)).
Proof.
  intros HW Hans H. unfold iteration.
  destruct (Qle_bool dt (wall st)).
  - assert (H' :
      Forall (fun m => m <= last_post_ts
                              (fold_left (submit_course R C W urls) fs st))
             (post_times (log (fold_left (submit_course R C W urls) fs st)))
      /\ paced (log (fold_left (submit_course R C W urls) fs st))).
    { apply (pass_invariant R C W
               (fun s => Forall (fun m => m <= last_post_ts s)
                                (post_times (log s)) /\ paced (log s))
               urls fs).
      - intros url data s _ _. now apply attempt_paced.
      - intros l s Hs. exact Hs.
      - apply incl_refl.
      - exact H. }
    exact H'.
  - exact H.
Qed.

(** C3. In front of every POST stands the pacing gate: when less than the
    minimum gap has passed since the recorded last-submission instant, the
    loop sleeps for exactly the rest of the gap, and otherwise not at all,
    so the POST is issued no earlier than the gap after that instant; two
    submissions with no time between the recording of the first and the
    gate of the second are a sleep of the whole gap apart.  The gate is
    one for all courses and both addresses: in a run whose POSTs are all
    answered, every POST is issued at least the gap after every earlier
    one. *)
Theorem throttle_before_every_post (R : runtime) (C : codecs) (W : world) :
  time_forward W ->
  (forall url data st,
     exists tail,
       log (snd (attempt R C W url data st))
       = tail ++ Post url data (mono (throttle W st)) (wall (throttle W st))
                 :: log (throttle W st)
       /\ post_times tail = []
       /\ (mono st - last_post_ts st < POST_MIN_GAP ->
             log (throttle W st)
             = Sleep (POST_MIN_GAP - (mono st - last_post_ts st)) :: log st)
       /\ (~ mono st - last_post_ts st < POST_MIN_GAP ->
             log (throttle W st) = log st)
       /\ last_post_ts st + POST_MIN_GAP <= mono (throttle W st)
       /\ (mono st == last_post_ts st ->
             exists d, log (throttle W st) = Sleep d :: log st
                       /\ d == POST_MIN_GAP
                       /\ mono st + POST_MIN_GAP <= mono (throttle W st)))
  /\ (always_answers W ->
      forall lesson_ids pid used_param dt mono0 wall0 turns,
        paced (log (grab_courses R C W lesson_ids pid used_param
                                 dt mono0 wall0 turns))).
Proof.
  intros HW. split.
  - intros url data st.
    destruct (attempt_log R C W url data st) as (tail & Hlog & Htail).
    destruct (throttle_state W st HW) as (Hs & Hk & _ & _ & _ & Hgap).
    pose proof POST_MIN_GAP_pos as Hpos.
    exists tail. repeat split; try assumption.
    + intros H. now rewrite (Hk H).
    + intros Hzero.
      exists (POST_MIN_GAP - (mono st - last_post_ts st)).
      repeat split; [apply Hs; lra | lra | lra].
  - intros Hans lesson_ids pid used_param dt mono0 wall0 turns.
    unfold grab_courses.
    apply (loop_invariant R C W
             (fun s => Forall (fun m => m <= last_post_ts s)
                              (post_times (log s)) /\ paced (log s))).
    + intros s. now apply iteration_paced.
    + simpl. split; constructor.
Qed.

(** Two courses in a world that answers every POST: the POSTs of the first
    turn are paced. *)
Lemma throttle_before_every_post_witness :
  paced (log (grab_courses ascii_runtime sample_codecs answering
                [lit "500"; lit "501"] (lit "4665") (lit "profileId")
                10 1000 20 1)).
Proof.
  apply (proj2 (throttle_before_every_post ascii_runtime sample_codecs
                  answering answering_time_forward)).
  intros k. eexists. reflexivity.
Defined.

(** ** C8: the submission forms *)

Lemma attempt_posts_among (R : runtime) (C : codecs) (W : world)
    (urls : list str) (fs : list form)
    (url : str) (data : form) (st : state) :
  In url urls -> In data fs ->
  posts_among urls fs (log st) ->
  posts_among urls fs (log (snd (attempt R C W url data st))).
Proof.
  intros Hu Hd Hlog.
  assert (Hlog1 : posts_among urls fs (log (throttle W st))).
  { unfold throttle.
    destruct (Qltb (mono st - last_post_ts st) POST_MIN_GAP);
      [|exact Hlog].
    unfold posts_among. step_state. now constructor. }
  unfold posts_among in *.
  destruct (attempt_ends R C W url data st); step_state;
    repeat (constructor; try easy).
Qed.

Lemma iteration_posts_among (R : runtime) (C : codecs) (W : world) (dt : Q)
    (urls : list str) (fs : list form) (st : state) :
  posts_among urls fs (log st) ->
  posts_among urls fs (log (iteration R C W dt urls fs st)).
Proof.
  intros Hlog. unfold iteration.
  destruct (Qle_bool dt (wall st)).
  - assert (H : posts_among urls fs
                  (log (fold_left (submit_course R C W urls) fs st))).
    { apply (pass_invariant R C W
               (fun s => posts_among urls fs (log s)) urls fs).
      - intros url data s Hu Hd. now apply attempt_posts_among.
      - intros l s Hs. now constructor.
      - apply incl_refl.
      - exact Hlog. }
    unfold posts_among. step_state. now constructor.
  - unfold posts_among. step_state. now repeat constructor.
Qed.

(** C8. The form of a course is a function of its id alone: three fields,
    optype, operator0 and lesson0, in this order, of which the second and
    the third are built from the id; for the id 500 they read true,
    500:true:0 and 500.  The forms are built once, one per chosen id in
    the order of the ids, and every POST of a run, in whatever turn and
    whatever the network answered before, carries the form of one of the
    chosen ids. *)
Theorem form_of_course_id (R : runtime) (C : codecs) (W : world) :
  form_of (lit "500")
  = [(lit "optype", lit "true"); (lit "operator0", lit "500:true:0");
     (lit "lesson0", lit "500")]
  /\ (forall cid,
        form_of cid
        = [(lit "optype", lit "true");
           (lit "operator0", cid ++ lit ":true:0"); (lit "lesson0", cid)])
  /\ (forall lesson_ids i cid,
        nth_error lesson_ids i = Some cid ->
        nth_error (forms lesson_ids) i = Some (form_of cid))
  /\ (forall lesson_ids pid used_param dt mono0 wall0 turns url data m w,
        In (Post url data m w)
           (log (grab_courses R C W lesson_ids pid used_param
                              dt mono0 wall0 turns)) ->
        exists cid, In cid lesson_ids /\ data = form_of cid).
Proof.
  split; [reflexivity|]. split; [reflexivity|]. split.
  - intros lesson_ids i cid H. unfold forms. now apply map_nth_error.
  - intros lesson_ids pid used_param dt mono0 wall0 turns url data m w Hin.
    assert (H : posts_among (post_urls pid used_param) (forms lesson_ids)
                  (log (grab_courses R C W lesson_ids pid used_param
                                     dt mono0 wall0 turns))).
    { unfold grab_courses.
      apply (loop_invariant R C W
               (fun s => posts_among (post_urls pid used_param)
                                     (forms lesson_ids) (log s))).
      - intros s. apply iteration_posts_among.
      - simpl. now repeat constructor. }
    unfold posts_among in H. rewrite Forall_forall in H.
    destruct (H _ Hin) as [_ Hd]. unfold forms in Hd.
    apply in_map_iff in Hd as (cid & <- & Hc). now exists cid.
Qed.

(** The first POST of a run for the course 500. *)
Lemma form_of_course_id_witness :
  exists cid, In cid [lit "500"] /\ form_of (lit "500") = form_of cid.
Proof.
  apply (proj2 (proj2 (proj2
           (form_of_course_id ascii_runtime sample_codecs answering)))
         [lit "500"] (lit "4665") (lit "profileId") 10 1000 20 1%nat
         (BASE ++ lit "/eams/stdElectCourse!batchOperator.action"
               ++ lit "?profileId=" ++ lit "4665")
         (form_of (lit "500")) 1000 20).
  vm_compute. right. right. left. reflexivity.
Defined.

(** ** C2: what an attempt records *)

(** A POST that returns is recorded at its completion, whether the
    response is a bounce or not; a POST that raises is not recorded. *)
Lemma attempt_last_post_ts (R : runtime) (C : codecs) (W : world)
    (url : str) (data : form) (st : state) :
  (forall resp,
     post_result W (length (log (throttle W st))) = Ok resp ->
     last_post_ts (snd (attempt R C W url data st))
     = mono (throttle W st) + post_duration W (length (log (throttle W st))))
  /\ (forall e,
        post_result W (length (log (throttle W st))) = Raise e ->
        last_post_ts (snd (attempt R C W url data st)) = last_post_ts st
        /\ mono (snd (attempt R C W url data st))
           = mono (throttle W st)
             + post_duration W (length (log (throttle W st)))).
Proof.
  assert (Hlast : last_post_ts (throttle W st) = last_post_ts st).
  { unfold throttle.
    now destruct (Qltb (mono st - last_post_ts st) POST_MIN_GAP). }
  split.
  - intros resp Hr.
    destruct (attempt_ends R C W url data st); step_state;
      try reflexivity; congruence.
  - intros e Hr.
    destruct (attempt_ends R C W url data st); step_state;
      try congruence. now split.
Qed.

(** C2, evaluated where it fails: one course, the open time passed, the
    monotonic clock at 1000, and a network on which every POST raises at
    once.  The turn issues two POSTs, one per address, both at the clock
    reading 1000 with no sleep between them, and at the end of the turn
    [last_post_ts] still holds its initial 0: the attempts that raised
    were not recorded and did not delay the next one. *)
Theorem raised_post_is_not_recorded :
  trace (grab_courses ascii_runtime sample_codecs refusing
           [lit "500"] (lit "4665") (lit "profileId") 10 1000 20 1)
  = [Print StartWaiting;
     Post (lit "https://aao-eas.nuaa.edu.cn/eams/stdElectCourse!batchOperator.action?profileId=4665")
          (form_of (lit "500")) 1000 20;
     Post (lit "https://aao-eas.nuaa.edu.cn/eams/stdElectCourse!batchOperator.action?electionProfile.id=4665")
          (form_of (lit "500")) 1000 20;
     Print SubmitFailed;
     Sleep POST_INTERVAL]
  /\ last_post_ts
       (grab_courses ascii_runtime sample_codecs refusing
          [lit "500"] (lit "4665") (lit "profileId") 10 1000 20 1)
     = 0
  /\ mono
       (grab_courses ascii_runtime sample_codecs refusing
          [lit "500"] (lit "4665") (lit "profileId") 10 1000 20 1)
     == 1000 + POST_INTERVAL.
Proof. repeat split. Qed.

(* ===================================================================== *)
(** * Further properties of the parser and of the selection               *)
(* ===================================================================== *)

Section CourseInfoMore.

Variable R : runtime.

Lemma py_int_raises (t : str) (e : exn) :
  py_int R t = Raise e -> e = ValueError.
Proof.
  unfold py_int. destruct t as [|c t]; [now intros [= <-]|].
  destruct (decimal_value R 0 (c :: t)); [|now intros [= <-]].
  destruct (length (c :: t) <=? 640)%nat; [discriminate|].
  destruct (int_max_str_digits R =? 0)%nat; [discriminate|].
  destruct (length (c :: t) <=? int_max_str_digits R)%nat; [discriminate|].
  now intros [= <-].
Qed.

(** How the loop ends: with the ids chosen so far and some more, each of
    them an id of the list and at most one per token; or with the
    [ValueError] of [int] on a token that [isdigit] let through. *)
Lemma select_loop_result (ids : list str) (n : nat) (tokens : list str) :
  (n <= length ids)%nat ->
  forall chosen out out' r,
    select_loop R ids n tokens chosen out = (out', r) ->
    (exists added,
        r = Ok (chosen ++ added) /\ Forall (fun c => In c ids) added
        /\ (length added <= length tokens)%nat)
    \/ (r = Raise ValueError
        /\ exists t, In t tokens /\ isdigit R t = true
                     /\ py_int R t = Raise ValueError).
Proof.
  intros Hn. induction tokens as [|t tokens IH]; intros chosen out out' r.
  - simpl. intros [= _ <-]. left. exists []. rewrite app_nil_r.
    split; [reflexivity|]. split; [constructor | simpl; lia].
  - assert (Hskip : forall o, select_loop R ids n tokens chosen o = (out', r) ->
      (exists added,
          r = Ok (chosen ++ added) /\ Forall (fun c => In c ids) added
          /\ (length added <= length (t :: tokens))%nat)
      \/ (r = Raise ValueError
          /\ exists t', In t' (t :: tokens) /\ isdigit R t' = true
                        /\ py_int R t' = Raise ValueError)).
    { intros o H. destruct (IH _ _ _ _ H) as [(added & E & Hall & Hlen)
                                            | (E & t' & Hin & Hd & Hi)].
      - left. exists added. repeat split; auto. simpl. lia.
      - right. split; [exact E|]. exists t'. repeat split; auto. now right. }
    assert (Hpick : forall cid, In cid ids ->
      select_loop R ids n tokens (chosen ++ [cid]) out = (out', r) ->
      (exists added,
          r = Ok (chosen ++ added) /\ Forall (fun c => In c ids) added
          /\ (length added <= length (t :: tokens))%nat)
      \/ (r = Raise ValueError
          /\ exists t', In t' (t :: tokens) /\ isdigit R t' = true
                        /\ py_int R t' = Raise ValueError)).
    { intros cid Hcid H.
      destruct (IH _ _ _ _ H) as [(added & E & Hall & Hlen)
                                 | (E & t' & Hin & Hd & Hi)].
      - left. exists (cid :: added). rewrite <- app_assoc in E.
        repeat split; [exact E | now constructor | simpl; lia].
      - right. split; [exact E|]. exists t'. repeat split; auto. now right. }
    cbn [select_loop]. destruct (isdigit R t) eqn:Hd; cbn [negb];
      [|apply Hskip].
    destruct (py_int R t) as [idx|e] eqn:Hi.
    + destruct (idx <? N.of_nat n)%N eqn:Hlt.
      * destruct (nth_error ids (N.to_nat idx)) as [cid|] eqn:Hnth.
        -- apply Hpick. now apply nth_error_In with (N.to_nat idx).
        -- apply nth_error_None in Hnth. apply N.ltb_lt in Hlt. lia.
      * destruct (in_id_set ids t) eqn:Hin; [|apply Hskip].
        apply Hpick. now apply in_id_set_spec.
    + intros [= _ <-]. right. pose proof (py_int_raises t e Hi) as ->.
      split; [reflexivity|]. exists t. repeat split; auto. now left.
Qed.

(** X1. What [course_info] returns is never empty, holds at most one id
    per token, and holds only ids that were parsed from the catalog body,
    each of them a string of digits. *)
Theorem course_info_returns_catalog_ids (text : str) (tokens : list str)
    (out : list info_line) (chosen : list str) :
  course_info R text tokens = (out, Returned chosen) ->
  chosen <> []
  /\ (length chosen <= length tokens)%nat
  /\ Forall (fun cid => In cid (id_list R text) /\ isdigit R cid = true)
            chosen.
Proof.
  unfold course_info. destruct (id_list R text) as [|i0 ids] eqn:Eids;
    [discriminate|].
  destruct (select_loop R (i0 :: ids)
              (entry_count (i0 :: ids) (name_list text)) tokens [] _)
    as [out' r] eqn:E.
  apply select_loop_result in E; [|unfold entry_count; lia].
  destruct E as [(added & -> & Hall & Hlen) | (-> & _)]; [|discriminate].
  simpl. destruct added as [|c added]; [discriminate|].
  intros [= _ <-]. repeat split; [discriminate | exact Hlen |].
  eapply Forall_impl; [|exact Hall]. cbv beta. intros cid Hcid.
  split; [exact Hcid|]. rewrite <- Eids in Hcid.
  destruct (id_list_decimal R text cid Hcid). now apply decimal_isdigit.
Qed.

(** X2. The lookup by position never leaves the id list: [course_info]
    never ends in [IndexError].  The one exception it can end in is the
    [ValueError] of [int] on a token that [isdigit] let through, and with
    tokens that [int] converts it ends in none. *)
Theorem course_info_uncaught (text : str) (tokens : list str) :
  (forall out e,
     course_info R text tokens = (out, Uncaught e) ->
     e = ValueError
     /\ exists t, In t tokens /\ isdigit R t = true
                  /\ py_int R t = Raise ValueError)
  /\ ((forall t, In t tokens -> isdigit R t = true ->
                 exists v, py_int R t = Ok v) ->
      forall e, snd (course_info R text tokens) <> Uncaught e).
Proof.
  assert (H : forall out e,
     course_info R text tokens = (out, Uncaught e) ->
     e = ValueError
     /\ exists t, In t tokens /\ isdigit R t = true
                  /\ py_int R t = Raise ValueError).
  { intros out e. unfold course_info.
    destruct (id_list R text) as [|i0 ids]; [discriminate|].
    destruct (select_loop R (i0 :: ids)
                (entry_count (i0 :: ids) (name_list text)) tokens [] _)
      as [out' r] eqn:E.
    apply select_loop_result in E; [|unfold entry_count; lia].
    destruct E as [(added & -> & _) | (-> & Ht)].
    - simpl. destruct added; discriminate.
    - intros [= _ <-]. now split. }
  split; [exact H|].
  intros Hconv e He.
  destruct (course_info R text tokens) as [out r] eqn:E. simpl in He.
  subst r. destruct (H out e eq_refl) as (_ & t & Hin & Hd & Hi).
  destruct (Hconv t Hin Hd) as [v Hv]. congruence.
Qed.

(** What a captured repetition has read: a run of the class, as long as
    asked, in front of what the continuation matched. *)
Lemma repeat_class_parts cls least next (s taken : str) gs r :
  repeat_class cls least next s taken = Some (gs, r) ->
  exists more s2 gs',
    s = more ++ s2 /\ forallb cls more = true
    /\ (least <= length taken + length more)%nat
    /\ next s2 = Some (gs', r) /\ gs = (rev taken ++ more) :: gs'.
Proof.
  revert taken. induction s as [|c s IH]; intros taken; simpl.
  - destruct (Nat.leb_spec least (length taken)) as [Hl|]; [|discriminate].
    destruct (next []) as [[gs' r']|] eqn:En; [|discriminate].
    intros [= <- <-]. exists [], [], gs'. simpl.
    split; [reflexivity|]. split; [reflexivity|]. split; [lia|].
    split; [exact En | now rewrite app_nil_r].
  - assert (Hstop :
      (if (least <=? length taken)%nat
       then match next (c :: s) with
            | Some (gs0, r0) => Some (rev taken :: gs0, r0)
            | None => None
            end
       else None) = Some (gs, r) ->
      exists more s2 gs',
        c :: s = more ++ s2 /\ forallb cls more = true
        /\ (least <= length taken + length more)%nat
        /\ next s2 = Some (gs', r) /\ gs = (rev taken ++ more) :: gs').
    { destruct (Nat.leb_spec least (length taken)) as [Hl|]; [|discriminate].
      destruct (next (c :: s)) as [[gs' r']|] eqn:En; [|discriminate].
      intros [= <- <-]. exists [], (c :: s), gs'. simpl.
      split; [reflexivity|]. split; [reflexivity|]. split; [lia|].
      split; [exact En | now rewrite app_nil_r]. }
    destruct (cls c) eqn:Hc; [|exact Hstop].
    destruct (repeat_class cls least next s (c :: taken)) as [m|] eqn:E;
      [|exact Hstop].
    intros [= ->].
    destruct (IH _ E) as (more & s2 & gs' & -> & Hall & Hlen & Hn & ->).
    exists (c :: more), s2, gs'. cbn [length] in Hlen.
    cbn [app forallb length]. rewrite Hc, Hall.
    split; [reflexivity|]. split; [reflexivity|]. split; [lia|].
    split; [exact Hn|]. cbn [rev]. now rewrite <- app_assoc.
Qed.

(** In front of a character that is not of the class, a repetition takes
    the whole run of the class. *)
Lemma repeat_class_whole cls least next (d : str) (c : char) (rest : str) r :
  forallb cls d = true -> cls c = false ->
  next (c :: rest) = Some ([], r) ->
  forall taken,
    (least <= length taken + length d)%nat ->
    repeat_class cls least next (d ++ c :: rest) taken
    = Some ([rev taken ++ d], r).
Proof.
  intros Hd Hc Hn. induction d as [|x d IH]; intros taken Hl.
  - cbn [app repeat_class]. rewrite Hc, Hn, app_nil_r.
    simpl in Hl. rewrite Nat.add_0_r in Hl. apply Nat.leb_le in Hl.
    now rewrite Hl.
  - simpl in Hd. apply andb_true_iff in Hd as [Hx Hd].
    cbn [app repeat_class]. rewrite Hx, (IH Hd (x :: taken)).
    + cbn [rev]. now rewrite <- app_assoc.
    + simpl in *. lia.
Qed.

(** Every parsed id stands in the text behind the marker and in front of
    a comma. *)
Lemma id_list_holds (text g : str) :
  In g (id_list R text) -> holds_id R text.
Proof.
  intros H. apply findall_from_In in H as (before & s' & gs & r & -> & E & _).
  unfold find_id in E. cbn [re_match] in E.
  destruct (strip_prefix (lit "id:") s') as [s''|] eqn:Ep; [|discriminate].
  apply strip_prefix_spec in Ep. subst s'.
  apply repeat_class_parts in E
    as (more & s2 & gs' & -> & Hall & Hlen & Hn & _).
  destruct (strip_prefix (lit ",") s2) as [s3|] eqn:Ec; [|discriminate].
  apply strip_prefix_spec in Ec. subst s2.
  exists before, more, s3. split; [reflexivity|]. split; [|exact Hall].
  destruct more; [simpl in Hlen; lia | discriminate].
Qed.

(** A text that holds an id has a parsed id. *)
Lemma holds_id_found (text : str) :
  holds_id R text -> id_list R text <> [].
Proof.
  intros (pre & d & post & -> & Hne & Hall).
  assert (Hm : re_match (find_id R) (lit "id:" ++ d ++ lit "," ++ post)
               = Some ([d], post)).
  { unfold find_id. cbn [re_match].
    assert (Hp : strip_prefix (lit "id:") (lit "id:" ++ d ++ lit "," ++ post)
                 = Some (d ++ lit "," ++ post))
      by now apply strip_prefix_spec.
    rewrite Hp.
    apply (repeat_class_whole (is_decimal R) 1 _ d 44%N post post Hall).
    - reflexivity.
    - reflexivity.
    - destruct d; [contradiction | simpl; lia]. }
  unfold id_list, findall. induction pre as [|c pre IH].
  - cbn [app]. change (lit "id:" ++ d ++ lit "," ++ post)
      with (105%N :: (lit "d:" ++ d ++ lit "," ++ post)) in *.
    cbn [findall_from]. rewrite Hm. discriminate.
  - cbn [app findall_from].
    destruct (re_match (find_id R) (c :: pre ++ lit "id:" ++ d ++ lit "," ++ post))
      as [[gs r]|]; [discriminate | exact IH].
Qed.

Lemma id_list_nil_iff (text : str) :
  id_list R text = [] <-> ~ holds_id R text.
Proof.
  split.
  - intros E H. now apply holds_id_found in H.
  - intros H. destruct (id_list R text) as [|g l] eqn:E; [reflexivity|].
    exfalso. apply H. apply (id_list_holds text g). rewrite E. now left.
Qed.

(** The loop chooses nothing exactly when the rule skips every token, and
    then it has printed the warnings of the tokens in their order. *)
Lemma select_loop_nothing (ids : list str) (n : nat) (tokens : list str) :
  (n <= length ids)%nat ->
  forall out out',
    select_loop R ids n tokens [] out = (out', Ok [])
    <-> exists ws, Forall2 (skipped R ids n) tokens ws /\ out' = out ++ ws.
Proof.
  intros Hn out out'. split.
  - revert out. induction tokens as [|t tokens IH]; intros out.
    + cbn [select_loop]. intros [= <-]. exists []. split; [constructor|].
      now rewrite app_nil_r.
    + assert (Hpick : forall cid,
                select_loop R ids n tokens ([] ++ [cid]) out = (out', Ok []) ->
                exists ws, Forall2 (skipped R ids n) (t :: tokens) ws
                           /\ out' = out ++ ws).
      { intros cid H. apply select_loop_result in H; [|exact Hn].
        destruct H as [(added & H & _) | (H & _)]; discriminate H. }
      assert (Hskip : forall w,
                skipped R ids n t w ->
                select_loop R ids n tokens [] (out ++ [w]) = (out', Ok []) ->
                exists ws, Forall2 (skipped R ids n) (t :: tokens) ws
                           /\ out' = out ++ ws).
      { intros w Hw H. apply IH in H as (ws & Hws & ->).
        exists (w :: ws). split; [now constructor|].
        now rewrite <- app_assoc. }
      cbn [select_loop]. destruct (isdigit R t) eqn:Hd; cbn [negb].
      * destruct (py_int R t) as [idx|e] eqn:Hi; [|discriminate].
        destruct (idx <? N.of_nat n)%N eqn:Hlt.
        -- destruct (nth_error ids (N.to_nat idx)); [apply Hpick|discriminate].
        -- apply N.ltb_ge in Hlt.
           destruct (in_id_set ids t) eqn:Hin; [apply Hpick|].
           apply Hskip. apply rule_unknown with idx; auto.
           intros H. apply in_id_set_spec in H. congruence.
      * apply Hskip. now apply rule_not_numeric.
  - intros (ws & Hws & ->).
    assert (Hvs : Forall2 (token_rule R ids n) tokens (map Skip ws)).
    { induction Hws; cbn [map]; constructor; auto. }
    rewrite (select_loop_rule R ids n tokens (map Skip ws) Hvs [] out).
    assert (Hp : picks (map Skip ws) = [])
      by (clear; induction ws; [reflexivity | exact IHws]).
    assert (Hw : warnings (map Skip ws) = ws)
      by (clear; induction ws; [reflexivity | simpl; now f_equal]).
    now rewrite Hp, Hw.
Qed.

(** X3. [course_info] exits with code 1 exactly when the body holds no
    id, that is, nowhere the id: marker, a run of decimal digits and a
    comma, whatever the tokens are, and then it has printed the excerpt
    only; it exits with code 0 exactly when the body holds an id and the
    rule skips every token, and then it has printed the rows, the warning
    of each token in the order of the tokens, and the closing line; it
    exits with no other code. *)
Theorem course_info_exit_codes (text : str) (tokens : list str) :
  (snd (course_info R text tokens) = SysExit 1 <-> ~ holds_id R text)
  /\ (~ holds_id R text ->
      course_info R text tokens
      = ([NoCourseId (firstn 300 text)], SysExit 1))
  /\ (snd (course_info R text tokens) = SysExit 0 <->
      holds_id R text
      /\ exists ws,
           Forall2 (skipped R (id_list R text)
                      (entry_count (id_list R text) (name_list text)))
                   tokens ws)
  /\ (forall ws,
        holds_id R text ->
        Forall2 (skipped R (id_list R text)
                   (entry_count (id_list R text) (name_list text)))
                tokens ws ->
        course_info R text tokens
        = (row_lines R text ++ ws ++ [NothingChosen], SysExit 0))
  /\ (forall code, snd (course_info R text tokens) = SysExit code ->
                   code = 1%Z \/ code = 0%Z).
Proof.
  pose proof (id_list_nil_iff text) as Hnil.
  pose proof (select_loop_nothing (id_list R text)
                (entry_count (id_list R text) (name_list text)) tokens
                (Nat.le_min_l _ _) (row_lines R text)) as Hnone.
  unfold course_info, row_lines, catalog in *.
  destruct (id_list R text) as [|i0 ids] eqn:Eids.
  - assert (Hno : ~ holds_id R text) by now apply Hnil.
    cbn [snd]. split; [split; auto|]. split; [reflexivity|].
    split; [split; [discriminate | intros [H _]; contradiction]|].
    split; [intros ws H; contradiction|].
    intros code [= <-]. now left.
  - assert (Hyes : holds_id R text).
    { destruct (id_list_holds text i0) as (pre & d & post & H);
        [rewrite Eids; now left|]. now exists pre, d, post. }
    destruct (select_loop R (i0 :: ids)
                (entry_count (i0 :: ids) (name_list text)) tokens [] _)
      as [out' r] eqn:E.
    assert (Hskip : forall ws,
              Forall2 (skipped R (i0 :: ids)
                         (entry_count (i0 :: ids) (name_list text)))
                      tokens ws ->
              r = Ok []
              /\ out' = map (fun r => CourseRow (fst (fst r)) (snd (fst r))
                                                (snd r))
                            (course_rows (i0 :: ids) (name_list text))
                        ++ ws).
    { intros ws Hws.
      assert (H : (out', r)
                  = (map (fun r => CourseRow (fst (fst r)) (snd (fst r))
                                             (snd r))
                         (course_rows (i0 :: ids) (name_list text)) ++ ws,
                     Ok [])).
      { apply Hnone. now exists ws. }
      injection H as -> ->. now split. }
    split; [|split; [intros H; contradiction|split; [|split]]].
    + split; [|intros H; contradiction].
      destruct r as [[|c chosen]|e]; discriminate.
    + split.
      * intros H. split; [exact Hyes|].
        destruct r as [[|c chosen]|e]; try discriminate H.
        destruct (proj1 (Hnone out') eq_refl) as (ws & Hws & _).
        now exists ws.
      * intros (_ & ws & Hws). destruct (Hskip ws Hws) as [-> _].
        reflexivity.
    + intros ws _ Hws. destruct (Hskip ws Hws) as [-> ->].
      now rewrite <- app_assoc.
    + destruct r as [[|c chosen]|e]; cbn [snd]; try discriminate.
      intros code [= <-]. now right.
Qed.

(** A parsed name holds no quote. *)
Lemma name_list_no_quote (items : list str) (name : str) :
  In name (collect_names items) -> ~ In 39%N name.
Proof.
  induction items as [|item items IH]; simpl; [contradiction|].
  destruct (findall find_name item) as [|nm more] eqn:E; [contradiction|].
  intros [<- | Hin]; [|now apply IH].
  assert (Hnm : In nm (findall_from find_name 0 item))
    by (unfold findall in E; rewrite E; now left).
  apply findall_from_In in Hnm as (before & s' & gs & r & _ & Hm & ->).
  unfold find_name in Hm. cbn [re_match] in Hm.
  destruct (strip_prefix (lit "name:'") s') as [s''|]; [|discriminate].
  apply repeat_class_group in Hm as (more' & gs' & -> & Hall & _).
  cbn [rev app hd]. intros Hq. rewrite forallb_forall in Hall.
  specialize (Hall _ Hq). discriminate.
Qed.

(** X4. Every entry of the catalog pairs a non-empty run of decimal digits
    with a name that holds no quote, and the entries are numbered from 0
    upwards in the order of the body. *)
Theorem catalog_entries_wellformed (text : str) :
  map (fun e => fst (fst e)) (catalog R text)
  = seq 0 (length (catalog R text))
  /\ (forall i cid name,
        In (i, cid, name) (catalog R text) ->
        cid <> [] /\ forallb (is_decimal R) cid = true
        /\ isdigit R cid = true /\ ~ In 39%N name).
Proof.
  split.
  - unfold catalog. rewrite course_rows_length.
    unfold course_rows, entry_count. rewrite map_map. cbn [fst].
    apply map_id.
  - intros i cid name Hin. apply course_rows_In in Hin as (_ & Hc & Hn).
    apply nth_error_In in Hc, Hn.
    destruct (id_list_decimal R text cid Hc) as [Hne Hall].
    repeat split; auto.
    + now apply decimal_isdigit.
    + now apply name_list_no_quote with (str_split (lit "code:") text).
Qed.

End CourseInfoMore.

(** A catalog of two records and the tokens 1 and 1002. *)
Lemma course_info_returns_catalog_ids_witness :
  [lit "1002"; lit "1002"] <> []
  /\ (length [lit "1002"; lit "1002"] <= length [lit "1"; lit "1002"])%nat
  /\ Forall (fun cid => In cid (id_list ascii_runtime ordered_body)
                        /\ isdigit ascii_runtime cid = true)
            [lit "1002"; lit "1002"].
Proof.
  apply (course_info_returns_catalog_ids ascii_runtime ordered_body
           [lit "1"; lit "1002"]
           [CourseRow 0 (lit "1001") (lit "Math");
            CourseRow 1 (lit "1002") (lit "Physics")]).
  vm_compute. reflexivity.
Defined.

(** The tokens of the source against a catalog of two records: [int]
    converts each of them, and no exception ends the function. *)
Lemma fixed_tokens_convert (t : str) :
  In t fixed_tokens -> isdigit ascii_runtime t = true ->
  exists v, py_int ascii_runtime t = Ok v.
Proof.
  intros Hin _. apply (py_int_ascii_digits ascii_runtime).
  - destruct Hin as [<-|[<-|[<-|[<-|[]]]]]; vm_compute; reflexivity.
  - destruct Hin as [<-|[<-|[<-|[<-|[]]]]]; vm_compute; repeat constructor.
  - destruct Hin as [<-|[<-|[<-|[<-|[]]]]];
      apply Nat.leb_le; vm_compute; reflexivity.
Qed.

Lemma course_info_uncaught_witness :
  snd (course_info ascii_runtime ordered_body fixed_tokens)
  <> Uncaught ValueError.
Proof.
  exact (proj2 (course_info_uncaught ascii_runtime ordered_body fixed_tokens)
               fixed_tokens_convert ValueError).
Defined.

(** A body that is accepted and holds no id, and a body of two records
    none of which the tokens of the source name. *)
Lemma course_info_exit_codes_witness :
  accepted ascii_runtime 200 (lit "id:soon") = true
  /\ course_info ascii_runtime (lit "id:soon") fixed_tokens
     = ([NoCourseId (firstn 300 (lit "id:soon"))], SysExit 1)
  /\ accepted ascii_runtime 200 ordered_body = true
  /\ course_info ascii_runtime ordered_body fixed_tokens
     = (row_lines ascii_runtime ordered_body
        ++ map NotFound fixed_tokens ++ [NothingChosen],
        SysExit 0).
Proof.
  assert (Hno : ~ holds_id ascii_runtime (lit "id:soon")).
  { apply id_list_nil_iff. vm_compute. reflexivity. }
  assert (Hyes : holds_id ascii_runtime ordered_body).
  { exists [], (lit "1001"),
      (lit "name:'Math',code:x,id:1002,name:'Physics',code:y,").
    split; [vm_compute; reflexivity|].
    split; [discriminate | vm_compute; reflexivity]. }
  assert (Hunknown : forall t v,
            In t fixed_tokens ->
            isdigit ascii_runtime t = true -> py_int ascii_runtime t = Ok v ->
            (2 <= v)%N ->
            skipped ascii_runtime (id_list ascii_runtime ordered_body)
              (entry_count (id_list ascii_runtime ordered_body)
                           (name_list ordered_body)) t (NotFound t)).
  { intros t v Hin Hd Hi Hv.
    apply rule_unknown with v; [exact Hd | exact Hi | |].
    - replace (entry_count (id_list ascii_runtime ordered_body)
                           (name_list ordered_body)) with 2%nat
        by (vm_compute; reflexivity).
      exact Hv.
    - replace (id_list ascii_runtime ordered_body)
        with [lit "1001"; lit "1002"] by (vm_compute; reflexivity).
      intros [H|[H|[]]]; subst t;
        destruct Hin as [H|[H|[H|[H|[]]]]]; discriminate H. }
  assert (Hws : Forall2
                  (skipped ascii_runtime (id_list ascii_runtime ordered_body)
                     (entry_count (id_list ascii_runtime ordered_body)
                                  (name_list ordered_body)))
                  fixed_tokens (map NotFound fixed_tokens)).
  { assert (Hgen : forall l : list str,
              (forall t, In t l -> In t fixed_tokens) ->
              Forall2
                (skipped ascii_runtime (id_list ascii_runtime ordered_body)
                   (entry_count (id_list ascii_runtime ordered_body)
                                (name_list ordered_body)))
                l (map NotFound l)).
    { induction l as [|t l IH]; intros Hl; cbn [map]; constructor.
      - assert (Hin : In t fixed_tokens) by (apply Hl; now left).
        pose proof Hin as Hc.
        destruct Hc as [H|[H|[H|[H|[]]]]]; subst t.
        + apply Hunknown with 400785%N;
            [exact Hin | vm_compute; reflexivity | vm_compute; reflexivity
             | vm_compute; discriminate].
        + apply Hunknown with 398319%N;
            [exact Hin | vm_compute; reflexivity | vm_compute; reflexivity
             | vm_compute; discriminate].
        + apply Hunknown with 398891%N;
            [exact Hin | vm_compute; reflexivity | vm_compute; reflexivity
             | vm_compute; discriminate].
        + apply Hunknown with 398568%N;
            [exact Hin | vm_compute; reflexivity | vm_compute; reflexivity
             | vm_compute; discriminate].
      - apply IH. intros t' Ht'. apply Hl. now right. }
    apply Hgen. auto. }
  split; [vm_compute; reflexivity|]. split.
  { exact (proj1 (proj2 (course_info_exit_codes ascii_runtime
                           (lit "id:soon") fixed_tokens)) Hno). }
  split; [vm_compute; reflexivity|].
  exact (proj1 (proj2 (proj2 (proj2
           (course_info_exit_codes ascii_runtime ordered_body fixed_tokens))))
           (map NotFound fixed_tokens) Hyes Hws).
Defined.

(** The second entry of a catalog of two records. *)
Lemma catalog_entries_wellformed_witness :
  lit "1002" <> [] /\ forallb (is_decimal ascii_runtime) (lit "1002") = true
  /\ isdigit ascii_runtime (lit "1002") = true /\ ~ In 39%N (lit "Physics").
Proof.
  apply (proj2 (catalog_entries_wellformed ascii_runtime ordered_body)
               1%nat (lit "1002") (lit "Physics")).
  vm_compute. right. left. reflexivity.
Defined.

(* ===================================================================== *)
(** * Further properties of the decoder                                   *)
(* ===================================================================== *)

Section DecoderMore.

Variable C : codecs.

Lemma decode_first_spec (raw : bytes) (encs : list (option str)) :
  match decode_first C raw encs with
  | Some (t, enc) =>
      exists before after,
        encs = before ++ Some enc :: after /\ enc <> []
        /\ bytes_decode C raw enc = Ok t
        /\ Forall (passed_over C raw) before
  | None => Forall (passed_over C raw) encs
  end.
Proof.
  induction encs as [|o encs IH]; [constructor|].
  assert (Hpass : passed_over C raw o ->
    match decode_first C raw encs with
    | Some (t, enc) =>
        exists before after,
          o :: encs = before ++ Some enc :: after /\ enc <> []
          /\ bytes_decode C raw enc = Ok t
          /\ Forall (passed_over C raw) before
    | None => Forall (passed_over C raw) (o :: encs)
    end).
  { intros Ho. destruct (decode_first C raw encs) as [[t enc]|].
    - destruct IH as (before & after & -> & Hne & Hd & Hb).
      exists (o :: before), after. repeat split; auto.
    - now constructor. }
  destruct o as [[|c e]|]; cbn [decode_first].
  - apply Hpass. now left.
  - destruct (bytes_decode C raw (c :: e)) as [t|x] eqn:E.
    + exists [], encs. repeat split; [discriminate | exact E | constructor].
    + apply Hpass. right. now exists x.
  - now apply Hpass.
Qed.

(** X5. [smart_read] returns the text decoded with the first candidate, in
    the order declared encoding, detected encoding, utf-8, gb18030, gbk,
    gb2312, latin1, that is neither absent nor empty and with which
    decoding does not raise; so a declared encoding that decodes wins.
    It raises only when decoding raises with every candidate, utf-8
    among them: the last line of the function never returns a value. *)
Theorem smart_read_first_success (resp : response) :
  (forall text enc,
     smart_read C resp = Ok (text, enc) ->
     exists before after,
       encodings resp = before ++ Some enc :: after /\ enc <> []
       /\ bytes_decode C
            (_maybe_decompress C
               match resp_content resp with Some b => b | None => [] end)
            enc = Ok text
       /\ Forall (passed_over C
                    (_maybe_decompress C
                       match resp_content resp with
                       | Some b => b
                       | None => []
                       end)) before)
  /\ (forall text enc,
        resp_encoding resp = Some enc -> enc <> [] ->
        bytes_decode C
          (_maybe_decompress C
             match resp_content resp with Some b => b | None => [] end)
          enc = Ok text ->
        smart_read C resp = Ok (text, enc))
  /\ (forall e,
        smart_read C resp = Raise e ->
        Forall (passed_over C
                  (_maybe_decompress C
                     match resp_content resp with
                     | Some b => b
                     | None => []
                     end)) (encodings resp)).
Proof.
  unfold smart_read.
  set (raw := _maybe_decompress C
                match resp_content resp with Some b => b | None => [] end).
  pose proof (decode_first_spec raw (encodings resp)) as H.
  split; [|split].
  - intros text enc.
    destruct (decode_first C raw (encodings resp)) as [[t e]|].
    + intros [= <- <-]. exact H.
    + intros Hsm. exfalso. rewrite Forall_forall in H.
      assert (Hu : passed_over C raw (Some (lit "utf-8")))
        by (apply H; unfold encodings; simpl; auto).
      destruct Hu as [Hu | [x Hx]]; [discriminate|].
      rewrite Hx in Hsm. discriminate.
  - intros text enc Henc Hne Hd. unfold encodings. rewrite Henc.
    destruct enc as [|c enc]; [contradiction|].
    cbn [decode_first]. now rewrite Hd.
  - intros e. destruct (decode_first C raw (encodings resp)) as [[t e']|];
      [discriminate|]. intros _. exact H.
Qed.

End DecoderMore.

(** A response that declares no encoding and whose detected encoding names
    no codec: the text is decoded as utf-8. *)
Lemma smart_read_first_success_witness :
  exists before after,
    encodings
      {| resp_url := Ok []; resp_text := Ok [];
         resp_content := Some [x68; x69]; resp_encoding := None;
         resp_apparent_encoding := Some (lit "no-such-codec");
         resp_status_code := 200 |}
    = before ++ Some (lit "utf-8") :: after /\ lit "utf-8" <> []
    /\ bytes_decode sample_codecs
         (_maybe_decompress sample_codecs [x68; x69]) (lit "utf-8")
       = Ok (lit "hi")
    /\ Forall (passed_over sample_codecs
                 (_maybe_decompress sample_codecs [x68; x69])) before.
Proof.
  apply (proj1 (smart_read_first_success sample_codecs
                  {| resp_url := Ok []; resp_text := Ok [];
                     resp_content := Some [x68; x69]; resp_encoding := None;
                     resp_apparent_encoding := Some (lit "no-such-codec");
                     resp_status_code := 200 |})).
  vm_compute. reflexivity.
Defined.

(* ===================================================================== *)
(** * Further properties of the submission loop                           *)
(* ===================================================================== *)

Lemma run_after (cls : char -> bool) (s : str) :
  run_of cls s ++ after_run cls s = s.
Proof.
  induction s as [|c s IH]; simpl; [reflexivity|].
  destruct (cls c); simpl; [now rewrite IH | reflexivity].
Qed.

Lemma filter_run_of (cls : char -> bool) (s : str) :
  filter cls (run_of cls s) = run_of cls s.
Proof.
  induction s as [|c s IH]; simpl; [reflexivity|].
  destruct (cls c) eqn:E; simpl; [now rewrite E, IH | reflexivity].
Qed.

(** In front of a continuation that always matches, a repetition takes the
    whole run. *)
Lemma repeat_class_run cls least next (s taken : str) :
  (forall s', next s' = Some ([], s')) ->
  repeat_class cls least next s taken
  = if (least <=? length taken + length (run_of cls s))%nat
    then Some ([rev taken ++ run_of cls s], after_run cls s)
    else None.
Proof.
  intros Hnext. revert taken. induction s as [|c s IH]; intros taken.
  - simpl. rewrite Hnext, Nat.add_0_r, app_nil_r. reflexivity.
  - cbn [repeat_class run_of after_run]. destruct (cls c).
    + rewrite IH. cbn [length rev Nat.add]. rewrite <- app_assoc. cbn [app].
      rewrite Nat.add_succ_r.
      destruct (Nat.leb_spec least (S (length taken + length (run_of cls s))));
        [reflexivity|].
      destruct (Nat.leb_spec least (length taken)); [lia | reflexivity].
    + rewrite Hnext. cbn [length]. now rewrite Nat.add_0_r, app_nil_r.
Qed.

Lemma concat_findall_class (cls : char -> bool) (s : str) :
  concat (findall [Group cls 1] s) = filter cls s.
Proof.
  assert (H : forall n s', (length s' <= n)%nat ->
            concat (findall [Group cls 1] s') = filter cls s').
  { induction n as [|n IH]; intros s' Hlen.
    - destruct s'; [reflexivity | simpl in Hlen; lia].
    - destruct s' as [|c s']; [reflexivity|].
      assert (Hm : re_match [Group cls 1] (c :: s')
                   = if (1 <=? length (run_of cls (c :: s')))%nat
                     then Some ([run_of cls (c :: s')],
                                after_run cls (c :: s'))
                     else None).
      { cbn [re_match]. rewrite repeat_class_run by reflexivity.
        reflexivity. }
      cbn [run_of after_run] in Hm. cbn [filter].
      destruct (cls c) eqn:Ec.
      + cbn [length] in Hm. cbn [Nat.leb] in Hm.
        pose proof (run_after cls s') as Hra.
        assert (Hlen' : (length (after_run cls s') <= n)%nat).
        { apply (f_equal (@length char)) in Hra. rewrite length_app in Hra.
          simpl in Hlen. lia. }
        rewrite <- Hra in Hm at 1.
        change (c :: run_of cls s' ++ after_run cls s')
          with ((c :: run_of cls s') ++ after_run cls s') in Hm.
        rewrite <- Hra at 1.
        change (c :: run_of cls s' ++ after_run cls s')
          with ((c :: run_of cls s') ++ after_run cls s').
        rewrite (findall_match [Group cls 1] (c :: run_of cls s')
                   (after_run cls s') [c :: run_of cls s'])
          by (discriminate || exact Hm).
        cbn [hd concat]. rewrite (IH _ Hlen').
        rewrite <- Hra at 3. rewrite filter_app, filter_run_of.
        reflexivity.
      + cbn [length Nat.leb] in Hm.
        rewrite findall_no_match by exact Hm.
        apply IH. simpl in Hlen. lia. }
  now apply (H (length s)).
Qed.

(** X6. The message printed for a reply is the body's characters in the
    range U+4E00 to U+9FA5, in their order, when the body has any; else
    it is the first 180 characters of the body. *)
Theorem message_spec (body : str) :
  (existsb is_cjk body = true -> message body = filter is_cjk body)
  /\ (existsb is_cjk body = false -> message body = firstn 180 body)
  /\ (body <> [] -> message body <> []).
Proof.
  unfold message. rewrite concat_findall_class.
  assert (Hex : existsb is_cjk body = true <-> filter is_cjk body <> []).
  { induction body as [|c body IH]; simpl.
    - split; [discriminate | intros H; contradiction].
    - destruct (is_cjk c); simpl; [split; [discriminate | reflexivity]|].
      exact IH. }
  split; [|split].
  - intros H. apply Hex in H.
    destruct (filter is_cjk body); [contradiction | reflexivity].
  - intros H. destruct (filter is_cjk body) eqn:E; [reflexivity|].
    assert (Ht : existsb is_cjk body = true) by (apply Hex; discriminate).
    congruence.
  - intros Hne. destruct (filter is_cjk body); [|discriminate].
    destruct body; [contradiction | discriminate].
Qed.

Lemma message_spec_witness :
  message (lit "<b>选课成功</b> ok") = filter is_cjk (lit "<b>选课成功</b> ok").
Proof.
  apply (proj1 (message_spec (lit "<b>选课成功</b> ok"))).
  vm_compute. reflexivity.
Defined.

Section SchedulerMore.

Variable R : runtime.
Variable C : codecs.
Variable W : world.

(** One attempt, step by step. *)
Lemma attempt_unfold (url : str) (data : form) (st : state) :
  attempt R C W url data st
  = match post_result W (length (log (throttle W st))) with
    | Raise _ => (false, snd (session_post W url data (throttle W st)))
    | Ok resp =>
        if is_login_bounce R resp
        then (false,
              record_post (snd (session_post W url data (throttle W st))))
        else
          match smart_read C resp with
          | Raise _ =>
              (false,
               record_post (snd (session_post W url data (throttle W st))))
          | Ok (body, _) =>
              (true,
               (if too_fast body (resp_status_code resp)
                then time_sleep W BACKOFF_SECONDS
                else fun s => s)
                 (print
                    (Reply (wall (throttle W st)
                            + post_duration W (length (log (throttle W st))))
                           (resp_status_code resp) (message body))
                    (record_post
                       (snd (session_post W url data (throttle W st))))))
          end
    end.
Proof.
  unfold attempt. cbn [session_post].
  destruct (post_result W (length (log (throttle W st)))) as [resp|e];
    [|reflexivity].
  destruct (is_login_bounce R resp); [reflexivity|].
  destruct (smart_read C resp) as [[body enc]|e]; [|reflexivity].
  destruct (too_fast body (resp_status_code resp)); reflexivity.
Qed.



Lemma throttle_posted (st : state) :
  posted (log (throttle W st)) = posted (log st)
  /\ sleeps (log (throttle W st))
     = (if Qltb (mono st - last_post_ts st) POST_MIN_GAP
        then [POST_MIN_GAP - (mono st - last_post_ts st)] else [])
       ++ sleeps (log st)
  /\ last_post_ts (throttle W st) = last_post_ts st.
Proof.
  unfold throttle.
  destruct (Qltb (mono st - last_post_ts st) POST_MIN_GAP); now repeat split.
Qed.

Lemma attempt_posted (url : str) (data : form) (st : state) :
  posted (log (snd (attempt R C W url data st)))
  = (url, data) :: posted (log st).
Proof.
  destruct (throttle_posted st) as (Hp & _ & _).
  rewrite attempt_unfold.
  destruct (post_result W (length (log (throttle W st)))) as [resp|e].
  - destruct (is_login_bounce R resp).
    + cbn [snd log record_post session_post advance emit posted].
      now rewrite Hp.
    + destruct (smart_read C resp) as [[body enc]|e].
      * destruct (too_fast body (resp_status_code resp));
          cbn [snd log record_post session_post advance emit posted print
               time_sleep]; now rewrite Hp.
      * cbn [snd log record_post session_post advance emit posted].
        now rewrite Hp.
  - cbn [snd log record_post session_post advance emit posted].
    now rewrite Hp.
Qed.

Lemma attempt_sent_head (url : str) (data : form) (st : state) :
  fst (attempt R C W url data st) = true ->
  not_failed (log (snd (attempt R C W url data st))).
Proof.
  rewrite attempt_unfold.
  destruct (post_result W (length (log (throttle W st)))) as [resp|e];
    [|discriminate].
  destruct (is_login_bounce R resp); [discriminate|].
  destruct (smart_read C resp) as [[body enc]|e]; [|discriminate].
  intros _ older.
  destruct (too_fast body (resp_status_code resp)); discriminate.
Qed.

(** The addresses tried for one course: a run of the list from its start,
    which stops at the first address that gives a usable response. *)
Lemma submit_posted (urls : list str) (data : form) (st : state) :
  exists k,
    (k <= length urls)%nat
    /\ posted (log (snd (submit R C W urls data st)))
       = rev (map (fun u => (u, data)) (firstn k urls)) ++ posted (log st)
    /\ (urls <> [] -> 1 <= k)%nat
    /\ (fst (submit R C W urls data st) = false -> k = length urls)
    /\ (fst (submit R C W urls data st) = true ->
        not_failed (log (snd (submit R C W urls data st)))).
Proof.
  revert st. induction urls as [|url urls IH]; intros st.
  - exists 0%nat. simpl. repeat split; auto; try lia; try discriminate.
    intros H. contradiction.
  - cbn [submit].
    pose proof (attempt_posted url data st) as Hp.
    pose proof (attempt_sent_head url data st) as Hh.
    destruct (attempt R C W url data st) as [[|] st'] eqn:E;
      cbn [fst snd] in *.
    + exists 1%nat. cbn [firstn map rev app length].
      repeat split; auto; try lia; try discriminate.
    + destruct (IH st') as (k & Hk & Hpk & _ & Hf & Ht).
      exists (S k). cbn [firstn map rev length].
      split; [lia|]. split.
      { rewrite Hpk, Hp, <- app_assoc. reflexivity. }
      split; [intros _; lia|]. split; [|exact Ht].
      intros H. now rewrite (Hf H).
Qed.

(** The POSTs of one course: one per address tried, in the order of the
    addresses, at least one when there is an address. *)
Lemma submit_course_posted (urls : list str) (data : form) (st : state) :
  exists k,
    (k <= length urls)%nat
    /\ (urls <> [] -> 1 <= k)%nat
    /\ posted (log (submit_course R C W urls st data))
       = rev (map (fun u => (u, data)) (firstn k urls)) ++ posted (log st).
Proof.
  destruct (submit_posted urls data st) as (k & Hk & Hp & H1 & _).
  exists k. unfold submit_course.
  destruct (submit R C W urls data st) as [[|] st']; cbn [fst snd] in *;
    repeat split; auto.
Qed.





(** X9. In a turn behind the open time the POSTs go out course by course
    in the order of the forms, and for each course address by address:
    between one and two POSTs per course with the two addresses of
    [post_urls], so at least as many POSTs as courses and at most twice as
    many. *)
Theorem turn_posts_in_order (dt : Q) (urls : list str) (fs : list form)
    (st : state) :
  urls <> [] -> dt <= wall st ->
  exists ks,
    length ks = length fs
    /\ Forall (fun k => 1 <= k <= length urls)%nat ks
    /\ rev (posted (log (iteration R C W dt urls fs st)))
       = rev (posted (log st))
         ++ flat_map (fun dk => map (fun u => (u, fst dk))
                                    (firstn (snd dk) urls))
                     (combine fs ks)
    /\ (length (posted (log st)) + length fs
        <= length (posted (log (iteration R C W dt urls fs st)))
        <= length (posted (log st)) + length urls * length fs)%nat.
Proof.
  intros Hurls Hopen. unfold iteration.
  apply Qle_bool_iff in Hopen. rewrite Hopen.
  cbn [time_sleep log advance emit posted]. clear Hopen.
  revert st. induction fs as [|data fs IH]; intros st.
  - exists []. simpl. rewrite app_nil_r. repeat split; auto; lia.
  - cbn [fold_left].
    destruct (submit_course_posted urls data st)
      as (k & Hk & H1 & Hp).
    destruct (IH (submit_course R C W urls st data))
      as (ks & Hlen & Hall & Hrev & Hcount).
    exists (k :: ks). cbn [length combine flat_map fst snd].
    split; [now rewrite Hlen|]. split; [constructor; auto|].
    specialize (H1 Hurls).
    assert (Hlk : length (posted (log (submit_course R C W urls st data)))
                  = (k + length (posted (log st)))%nat).
    { rewrite Hp, length_app, length_rev, length_map, length_firstn. lia. }
    split.
    + rewrite Hrev, Hp, rev_app_distr, rev_involutive, <- app_assoc.
      reflexivity.
    + rewrite Hlk in Hcount. nia.
Qed.

End SchedulerMore.

Section SchedulerClocks.

Variable R : runtime.
Variable C : codecs.
Variable W : world.

Lemma throttle_clock (st : state) :
  time_forward W ->
  mono st <= mono (throttle W st)
  /\ last_post_ts (throttle W st) = last_post_ts st.
Proof.
  intros [_ Hover]. unfold throttle.
  destruct (Qltb (mono st - last_post_ts st) POST_MIN_GAP) eqn:E.
  - apply Qltb_spec in E. pose proof (Hover (length (log st))) as Ho.
    step_state. split; [lra | reflexivity].
  - split; [lra | reflexivity].
Qed.

Lemma attempt_clock (url : str) (data : form) (st : state) :
  time_forward W ->
  mono st <= mono (snd (attempt R C W url data st))
  /\ (last_post_ts st <= mono st ->
      last_post_ts (snd (attempt R C W url data st))
      <= mono (snd (attempt R C W url data st))).
Proof.
  intros HW. destruct (throttle_clock st HW) as [Hm Hl].
  destruct HW as [Hdur Hover].
  pose proof (Hdur (length (log (throttle W st)))) as Hd.
  assert (Hb : 0 <= BACKOFF_SECONDS) by (unfold BACKOFF_SECONDS; lra).
  rewrite attempt_unfold.
  destruct (post_result W (length (log (throttle W st)))) as [resp|e].
  - destruct (is_login_bounce R resp); [step_state; split; lra|].
    destruct (smart_read C resp) as [[body enc]|e];
      [|step_state; split; lra].
    destruct (too_fast body (resp_status_code resp)).
    + match goal with
      | |- context [time_sleep W BACKOFF_SECONDS ?s] =>
          pose proof (Hover (length (log s))) as Ho
      end.
      step_state. split; lra.
    + step_state. split; lra.
  - step_state. rewrite Hl. split; lra.
Qed.

Lemma attempt_sleeps (url : str) (data : form) (st : state) :
  exists backoff : bool,
    sleeps (log (snd (attempt R C W url data st)))
    = (if backoff then [BACKOFF_SECONDS] else [])
      ++ (if Qltb (mono st - last_post_ts st) POST_MIN_GAP
          then [POST_MIN_GAP - (mono st - last_post_ts st)] else [])
      ++ sleeps (log st).
Proof.
  destruct (throttle_posted W st) as (_ & Hs & _).
  rewrite attempt_unfold.
  destruct (post_result W (length (log (throttle W st)))) as [resp|e].
  - destruct (is_login_bounce R resp).
    + exists false.
      cbn [snd log record_post session_post advance emit sleeps app].
      exact Hs.
    + destruct (smart_read C resp) as [[body enc]|e].
      * destruct (too_fast body (resp_status_code resp)).
        -- exists true.
           cbn [snd log record_post session_post advance emit sleeps app
                print time_sleep].
           now rewrite Hs.
        -- exists false.
           cbn [snd log record_post session_post advance emit sleeps app
                print].
           exact Hs.
      * exists false.
        cbn [snd log record_post session_post advance emit sleeps app].
        exact Hs.
  - exists false.
    cbn [snd log record_post session_post advance emit sleeps app].
    exact Hs.
Qed.

(** X10. The loop cannot spin: every turn, whether it posts or waits, ends
    in a sleep of [POST_INTERVAL], so with clocks that do not run
    backwards the monotonic clock has advanced by at least
    [POST_INTERVAL] per turn. *)
Theorem every_turn_sleeps (dt : Q) (urls : list str) (fs : list form) :
  time_forward W ->
  (forall st,
     (exists older,
        log (iteration R C W dt urls fs st) = Sleep POST_INTERVAL :: older)
     /\ mono st + POST_INTERVAL <= mono (iteration R C W dt urls fs st))
  /\ (forall turns st,
        mono st + inject_Z (Z.of_nat turns) * POST_INTERVAL
        <= mono (loop R C W turns dt urls fs st)).
Proof.
  intros HW.
  assert (Hturn : forall st,
     (exists older,
        log (iteration R C W dt urls fs st) = Sleep POST_INTERVAL :: older)
     /\ mono st + POST_INTERVAL <= mono (iteration R C W dt urls fs st)).
  { intros st. unfold iteration. split; [eexists; reflexivity|].
    assert (Hbody : mono st
              <= mono (if Qle_bool dt (wall st)
                       then fold_left (submit_course R C W urls) fs st
                       else print (NotOpenYet (dt - wall st)) st)).
    { destruct (Qle_bool dt (wall st)).
      - apply (pass_invariant R C W (fun s => mono st <= mono s) urls fs).
        + intros url data s _ _ Hs.
          destruct (attempt_clock url data s HW) as [Hm _]. lra.
        + intros l s Hs. exact Hs.
        + apply incl_refl.
        + lra.
      - step_state. lra. }
    destruct HW as [_ Hover].
    match goal with
    | |- context [time_sleep W POST_INTERVAL ?s] =>
        pose proof (Hover (length (log s))) as Ho; revert Hbody Ho;
        generalize s
    end.
    intros s Hbody Ho. step_state. lra. }
  split; [exact Hturn|].
  induction turns as [|k IH]; intros st.
  - cbn [loop Z.of_nat]. change (inject_Z 0) with 0. lra.
  - cbn [loop]. destruct (Hturn st) as [_ Hst].
    specialize (IH (iteration R C W dt urls fs st)).
    rewrite Nat2Z.inj_succ. unfold Z.succ. rewrite inject_Z_plus.
    change (inject_Z 1) with 1. revert IH Hst.
    generalize (inject_Z (Z.of_nat k)). unfold POST_INTERVAL.
    intros x IH Hst. lra.
Qed.

(** X11. [time.sleep] is never given a duration that is not positive, so
    it never raises.  When the monotonic clock starts at zero or more and
    no clock runs backwards, every sleep of a run either is the back-off
    of [BACKOFF_SECONDS] or lasts [POST_MIN_GAP] at most; and an attempt
    that starts with a last POST that is not stamped in the future ends
    that way, having slept at most twice: before its POST for the rest of
    the minimum gap, [POST_MIN_GAP] at most, and behind its reply for
    [BACKOFF_SECONDS]. *)
Theorem sleeps_are_positive (lesson_ids : list str) (pid used_param : str)
    (dt mono0 wall0 : Q) (turns : nat) :
  (forall d,
     In d (sleeps (log (grab_courses R C W lesson_ids pid used_param
                                     dt mono0 wall0 turns))) ->
     0 < d
     /\ (time_forward W -> 0 <= mono0 ->
         d = BACKOFF_SECONDS \/ d <= POST_MIN_GAP))
  /\ (time_forward W ->
      forall url data st,
        last_post_ts st <= mono st ->
        last_post_ts (snd (attempt R C W url data st))
        <= mono (snd (attempt R C W url data st))
        /\ exists backoff pacing,
             sleeps (log (snd (attempt R C W url data st)))
             = backoff ++ pacing ++ sleeps (log st)
             /\ (pacing = []
                 \/ exists p, pacing = [p] /\ 0 < p /\ p <= POST_MIN_GAP)
             /\ (backoff = [] \/ backoff = [BACKOFF_SECONDS])).
Proof.
  split.
  - intros d Hin.
    assert (Hpos : Forall (fun x => 0 < x)
                     (sleeps (log (grab_courses R C W lesson_ids pid
                                     used_param dt mono0 wall0 turns)))).
    { unfold grab_courses.
      apply (loop_invariant R C W
               (fun s => Forall (fun x => 0 < x) (sleeps (log s)))).
      - intros s Hs. unfold iteration.
        assert (Hbody : Forall (fun x => 0 < x)
                  (sleeps (log (if Qle_bool dt (wall s)
                                then fold_left
                                       (submit_course R C W
                                          (post_urls pid used_param))
                                       (forms lesson_ids) s
                                else print (NotOpenYet (dt - wall s)) s)))).
        { destruct (Qle_bool dt (wall s)); [|exact Hs].
          apply (pass_invariant R C W
                   (fun s' => Forall (fun x => 0 < x) (sleeps (log s')))
                   (post_urls pid used_param) (forms lesson_ids)).
          - intros url data s' _ _ Hs'.
            destruct (attempt_sleeps url data s') as [b ->].
            apply Forall_app. split; [destruct b; repeat constructor|].
            apply Forall_app. split; [|exact Hs'].
            destruct (Qltb (mono s' - last_post_ts s') POST_MIN_GAP) eqn:E;
              [|constructor].
            apply Qltb_spec in E. repeat constructor. lra.
          - intros l s' Hs'. exact Hs'.
          - apply incl_refl.
          - exact Hs. }
        cbn [time_sleep log advance emit sleeps].
        constructor; [reflexivity | exact Hbody].
      - simpl. constructor. }
    split; [rewrite Forall_forall in Hpos; now apply Hpos|].
    intros HW Hm0. revert d Hin. apply Forall_forall.
    assert (Hinv :
      (fun s => last_post_ts s <= mono s
                /\ Forall (fun x => x = BACKOFF_SECONDS \/ x <= POST_MIN_GAP)
                          (sleeps (log s)))
        (grab_courses R C W lesson_ids pid used_param dt mono0 wall0 turns)).
    { unfold grab_courses. apply loop_invariant.
      - intros s [Hl Hs]. unfold iteration.
        assert (Hbody :
          (fun s' => last_post_ts s' <= mono s'
                     /\ Forall (fun x => x = BACKOFF_SECONDS
                                         \/ x <= POST_MIN_GAP)
                               (sleeps (log s')))
            (if Qle_bool dt (wall s)
             then fold_left (submit_course R C W (post_urls pid used_param))
                            (forms lesson_ids) s
             else print (NotOpenYet (dt - wall s)) s)).
        { destruct (Qle_bool dt (wall s)); [|now split].
          apply (pass_invariant R C W
                   (fun s' => last_post_ts s' <= mono s'
                              /\ Forall (fun x => x = BACKOFF_SECONDS
                                                  \/ x <= POST_MIN_GAP)
                                        (sleeps (log s')))
                   (post_urls pid used_param) (forms lesson_ids)).
          - intros url data s' _ _ [Hl' Hs'].
            destruct (attempt_clock url data s' HW) as [_ Hc].
            split; [now apply Hc|].
            destruct (attempt_sleeps url data s') as [b ->].
            apply Forall_app. split.
            { destruct b; [|constructor].
              constructor; [now left | constructor]. }
            apply Forall_app. split; [|exact Hs'].
            destruct (Qltb (mono s' - last_post_ts s') POST_MIN_GAP);
              [|constructor].
            constructor; [right; lra | constructor].
          - intros l s' Hs'. exact Hs'.
          - apply incl_refl.
          - now split. }
        destruct Hbody as [Hl' Hs']. destruct HW as [_ Hover].
        match goal with
        | |- context [time_sleep W POST_INTERVAL ?s0] =>
            pose proof (Hover (length (log s0))) as Ho;
            revert Hl' Hs' Ho; generalize s0
        end.
        intros s0 Hl' Hs' Ho. cbn [time_sleep log advance emit sleeps
                                   mono last_post_ts].
        split; [unfold POST_INTERVAL; lra|].
        constructor; [right; unfold POST_INTERVAL, POST_MIN_GAP; lra
                     | exact Hs'].
      - simpl. split; [exact Hm0 | constructor]. }
    exact (proj2 Hinv).
  - intros HW url data st Hl.
    destruct (attempt_clock url data st HW) as [_ Hc].
    split; [now apply Hc|].
    destruct (attempt_sleeps url data st) as [b Hb].
    exists (if b then [BACKOFF_SECONDS] else []),
           (if Qltb (mono st - last_post_ts st) POST_MIN_GAP
            then [POST_MIN_GAP - (mono st - last_post_ts st)] else []).
    split; [exact Hb|]. split.
    + destruct (Qltb (mono st - last_post_ts st) POST_MIN_GAP) eqn:E;
        [|now left].
      apply Qltb_spec in E. right. eexists. split; [reflexivity|].
      split; lra.
    + destruct b; [now right | now left].
Qed.

End SchedulerClocks.



(** Two courses, the open time passed. *)
Lemma turn_posts_in_order_witness :
  exists ks,
    length ks = length (forms [lit "500"; lit "501"])
    /\ Forall (fun k => 1 <= k
                        <= length (post_urls (lit "4665") (lit "profileId")))%nat
              ks
    /\ rev (posted (log (iteration ascii_runtime sample_codecs answering 10
                           (post_urls (lit "4665") (lit "profileId"))
                           (forms [lit "500"; lit "501"]) fresh_state)))
       = rev (posted (log fresh_state))
         ++ flat_map (fun dk =>
                        map (fun u => (u, fst dk))
                            (firstn (snd dk)
                               (post_urls (lit "4665") (lit "profileId"))))
                     (combine (forms [lit "500"; lit "501"]) ks)
    /\ (length (posted (log fresh_state))
        + length (forms [lit "500"; lit "501"])
        <= length (posted (log (iteration ascii_runtime sample_codecs
                                  answering 10
                                  (post_urls (lit "4665") (lit "profileId"))
                                  (forms [lit "500"; lit "501"])
                                  fresh_state)))
        <= length (posted (log fresh_state))
           + length (post_urls (lit "4665") (lit "profileId"))
             * length (forms [lit "500"; lit "501"]))%nat.
Proof.
  assert (Hu : post_urls (lit "4665") (lit "profileId") <> [])
    by (vm_compute; discriminate).
  assert (Ho : 10 <= wall fresh_state) by (vm_compute; discriminate).
  exact (turn_posts_in_order ascii_runtime sample_codecs answering 10
           (post_urls (lit "4665") (lit "profileId"))
           (forms [lit "500"; lit "501"]) fresh_state Hu Ho).
Defined.

(** Three turns of waiting advance the clock by 2.1 seconds or more. *)
Lemma every_turn_sleeps_witness :
  mono fresh_state + inject_Z (Z.of_nat 3) * POST_INTERVAL
  <= mono (loop ascii_runtime sample_codecs answering 3 100
             (post_urls (lit "4665") (lit "profileId"))
             (forms [lit "500"]) fresh_state).
Proof.
  exact (proj2 (every_turn_sleeps ascii_runtime sample_codecs answering 100
                  (post_urls (lit "4665") (lit "profileId"))
                  (forms [lit "500"]) answering_time_forward)
               3%nat fresh_state).
Defined.

(** Two courses on a network that answers every POST within a tenth of
    a second: the second POST waits for the rest of the minimum gap, and
    the turn ends with the sleep of [POST_INTERVAL]. *)
Lemma sleeps_are_positive_witness :
  sleeps (log (grab_courses ascii_runtime sample_codecs answering
                 [lit "500"; lit "501"] (lit "4665") (lit "profileId")
                 10 1000 20 1))
  = [POST_INTERVAL; 0.800]
  /\ 0 < 0.800
  /\ (0.800 = BACKOFF_SECONDS \/ 0.800 <= POST_MIN_GAP).
Proof.
  split; [vm_compute; reflexivity|].
  destruct (proj1 (sleeps_are_positive ascii_runtime sample_codecs answering
                     [lit "500"; lit "501"] (lit "4665") (lit "profileId")
                     10 1000 20 1) 0.800) as [Hp Hc].
  - vm_compute. right. left. reflexivity.
  - split; [exact Hp|].
    apply Hc; [exact answering_time_forward | vm_compute; discriminate].
Defined.

(* ===================================================================== *)
(** * The profile ids read from a page                                    *)
(* ===================================================================== *)

Section ProfileIds.

Variable R : runtime.
Variable T : runtime_classes.

Lemma forallb_rev (cls : char -> bool) (l : str) :
  forallb cls l = true -> forallb cls (rev l) = true.
Proof.
  rewrite !forallb_forall. intros H x Hx. apply H. now apply in_rev.
Qed.

(** What a repetition hands on: a run of the class, of the least length
    or more, and the groups of what follows. *)
Lemma rx_repeat_groups cls least most capture next (s : str) :
  forall prev taken gs r,
    forallb cls taken = true ->
    rx_repeat cls least most capture next prev s taken = Some (gs, r) ->
    exists g prev' s' gs',
      (least <= length g)%nat /\ forallb cls g = true
      /\ next prev' s' = Some (gs', r)
      /\ gs = if capture then g :: gs' else gs'.
Proof.
  induction s as [|c s IH]; intros prev taken gs r Htaken H.
  - cbn [rx_repeat] in H.
    destruct (least <=? length taken)%nat eqn:Hl; [|discriminate].
    destruct (next prev []) as [[gs' r']|] eqn:Hn; [|discriminate].
    injection H as <- <-. exists (rev taken), prev, [], gs'.
    apply Nat.leb_le in Hl. rewrite length_rev.
    repeat split; auto using forallb_rev.
  - cbn [rx_repeat] in H.
    assert (Hstop :
      (if (least <=? length taken)%nat
       then match next prev (c :: s) with
            | Some (gs, r) => Some (if capture then rev taken :: gs else gs, r)
            | None => None
            end
       else None) = Some (gs, r) ->
      exists g prev' s' gs',
        (least <= length g)%nat /\ forallb cls g = true
        /\ next prev' s' = Some (gs', r)
        /\ gs = if capture then g :: gs' else gs').
    { intros H'.
      destruct (least <=? length taken)%nat eqn:Hl; [|discriminate].
      destruct (next prev (c :: s)) as [[gs' r']|] eqn:Hn; [|discriminate].
      injection H' as <- <-. exists (rev taken), prev, (c :: s), gs'.
      apply Nat.leb_le in Hl. rewrite length_rev.
      repeat split; auto using forallb_rev. }
    destruct (cls c && below most (length taken)) eqn:Hc; [|now apply Hstop].
    destruct (rx_repeat cls least most capture next (Some c) s (c :: taken))
      as [m|] eqn:Hm; [|now apply Hstop].
    injection H as ->. apply andb_prop in Hc as [Hc _].
    apply (IH (Some c) (c :: taken)); [|exact Hm].
    cbn [forallb]. now rewrite Hc.
Qed.

(** The groups of an alternative come first, one per capture and each a
    non-empty run of its class; the groups of what follows come after. *)
Lemma rx_items_groups (items : list rx_item) next :
  forall prev s gs r,
    rx_items T items next prev s = Some (gs, r) ->
    exists gs1 gs2 prev' s',
      gs = gs1 ++ gs2 /\ next prev' s' = Some (gs2, r)
      /\ Forall2 group_of (captures items) gs1.
Proof.
  induction items as [|it items IH]; intros prev s gs r H.
  - exists [], gs, prev, s. repeat split; [exact H | constructor].
  - destruct it as [l|cls|cls|cls|cls|]; cbn [rx_items] in H.
    + destruct (strip_prefix l s) as [s'|]; [|discriminate].
      apply IH in H. exact H.
    + apply rx_repeat_groups in H; [|reflexivity].
      destruct H as (g & prev' & s' & gs' & _ & _ & H & ->).
      apply IH in H. exact H.
    + apply rx_repeat_groups in H; [|reflexivity].
      destruct H as (g & prev' & s' & gs' & _ & _ & H & ->).
      apply IH in H. exact H.
    + apply rx_repeat_groups in H; [|reflexivity].
      destruct H as (g & prev' & s' & gs' & _ & _ & H & ->).
      apply IH in H. exact H.
    + apply rx_repeat_groups in H; [|reflexivity].
      destruct H as (g & prev' & s' & gs' & Hlen & Hcls & H & ->).
      apply IH in H. destruct H as (gs1 & gs2 & prev'' & s'' & -> & Hn & Hg).
      exists (g :: gs1), gs2, prev'', s''.
      repeat split; [exact Hn|]. cbn [captures flat_map app].
      constructor; [|exact Hg]. split; [|exact Hcls].
      intros ->. simpl in Hlen. lia.
    + destruct (xorb _ _); [|discriminate]. apply IH in H. exact H.
Qed.

Lemma rx_alts_groups (alts : list (list rx_item)) next :
  forall prev s gs r,
    rx_alts T alts next prev s = Some (gs, r) ->
    exists items gs1 gs2 prev' s',
      In items alts /\ gs = gs1 ++ gs2 /\ next prev' s' = Some (gs2, r)
      /\ Forall2 group_of (captures items) gs1.
Proof.
  induction alts as [|items alts IH]; intros prev s gs r H; [discriminate|].
  cbn [rx_alts] in H.
  destruct (rx_items T items next prev s) as [m|] eqn:Hm.
  - injection H as ->. apply rx_items_groups in Hm.
    destruct Hm as (gs1 & gs2 & prev' & s' & Hm).
    exists items, gs1, gs2, prev', s'. split; [now left | exact Hm].
  - apply IH in H. destruct H as (it & gs1 & gs2 & prev' & s' & Hin & H).
    exists it, gs1, gs2, prev', s'. split; [now right | exact H].
Qed.

(** A match of a pattern whose alternatives agree on their groups yields
    one group per capture, each a non-empty run of its class. *)
Lemma rx_match_groups (p : rx) :
  uniform p ->
  forall prev s gs r,
    rx_match T p prev s = Some (gs, r) ->
    Forall2 group_of (rx_captures p) gs.
Proof.
  induction p as [|alts p IH]; intros Hu prev s gs r H.
  - injection H as <- _. constructor.
  - inversion Hu as [|? ? Ha Hp]; subst. cbn [rx_match] in H.
    apply rx_alts_groups in H.
    destruct H as (items & gs1 & gs2 & prev' & s' & Hin & -> & Hn & Hg).
    rewrite Forall_forall in Ha. rewrite (Ha _ Hin) in Hg.
    cbn [rx_captures flat_map]. apply Forall2_app; [exact Hg|].
    now apply (IH Hp prev' s' gs2 r).
Qed.

Lemma rx_findall_from_In (p : rx) (cls : char -> bool) :
  uniform p -> rx_captures p = [cls] ->
  forall s skip prev g,
    In g (rx_findall_from T p skip prev s) -> group_of cls g.
Proof.
  intros Hu Hc. induction s as [|c s IH]; intros skip prev g H;
    [contradiction|].
  cbn [rx_findall_from] in H. destruct skip as [|k]; [|now apply IH in H].
  destruct (rx_match T p prev (c :: s)) as [[gs r]|] eqn:Hm;
    [|now apply IH in H].
  destruct H as [<- | H]; [|now apply IH in H].
  apply (rx_match_groups p Hu) in Hm. rewrite Hc in Hm.
  inversion Hm as [|? ? ? ? Hg Hrest]; subst. exact Hg.
Qed.

Lemma ID_PATTERNS_groups (pat : rx) :
  In pat (_ID_PATTERNS R T) ->
  uniform pat /\ rx_captures pat = [is_decimal R].
Proof.
  intros [<- | [<- | []]]; split; try reflexivity;
    repeat (constructor; try reflexivity).
Qed.

Lemma filter_implied {A} (f g : A -> bool) (l : list A) :
  (forall x, f x = true -> g x = true) ->
  filter f (filter g l) = filter f l.
Proof.
  intros H. induction l as [|x l IH]; [reflexivity|]. cbn [filter].
  destruct (g x) eqn:Hg; cbn [filter].
  - now rewrite IH.
  - destruct (f x) eqn:Hf; [|exact IH]. apply H in Hf. congruence.
Qed.

Lemma filter_both {A} (f g : A -> bool) (l : list A) :
  filter f (filter g l) = filter (fun x => negb (negb (g x) || negb (f x))) l.
Proof.
  induction l as [|x l IH]; [reflexivity|]. cbn [filter].
  destruct (g x); cbn [filter negb orb]; destruct (f x); cbn [negb];
    now rewrite IH.
Qed.

Lemma filter_all {A} (l : list A) : filter (fun _ => true) l = l.
Proof. induction l as [|x l IH]; [reflexivity|]. cbn [filter]. now rewrite IH. Qed.

(** The loop that drops the repetitions: what it has put out stays in
    front, and behind it come, in the order of their first occurrence and
    once each, the hits that were not seen before. *)
Lemma dedup_loop_spec (hits : list str) :
  forall seen out,
    dedup_loop hits seen out
    = out ++ filter (fun y => negb (existsb (str_eqb y) seen))
                    (first_seen hits).
Proof.
  induction hits as [|h hits IH]; intros seen out.
  - simpl. now rewrite app_nil_r.
  - cbn [dedup_loop first_seen filter].
    destruct (existsb (str_eqb h) seen) eqn:Hs; cbn [negb].
    + rewrite IH. f_equal. symmetry. apply filter_implied.
      intros y Hy. destruct (str_eqb y h) eqn:E; [|reflexivity].
      apply str_eqb_spec in E. subst y. now rewrite Hs in Hy.
    + rewrite IH, <- app_assoc. cbn [app]. do 2 f_equal.
      rewrite filter_both. apply filter_ext. intros y. cbn [existsb].
      rewrite negb_involutive.
      now destruct (str_eqb y h), (existsb (str_eqb y) seen).
Qed.

Lemma first_seen_In (l : list str) (x : str) :
  In x (first_seen l) <-> In x l.
Proof.
  induction l as [|h l IH]; [reflexivity|]. cbn [first_seen In].
  rewrite filter_In, IH. split.
  - intros [E | [H _]]; auto.
  - intros [E | H]; [now left|].
    destruct (str_eqb x h) eqn:E.
    + apply str_eqb_spec in E. now left.
    + right. now split.
Qed.

Lemma first_seen_NoDup (l : list str) : NoDup (first_seen l).
Proof.
  induction l as [|h l IH]; [constructor|]. cbn [first_seen]. constructor.
  - rewrite filter_In. intros [_ H].
    now rewrite (proj2 (str_eqb_spec h h) eq_refl) in H.
  - now apply NoDup_filter.
Qed.

Lemma first_seen_head (l : list str) : hd_error (first_seen l) = hd_error l.
Proof. now destruct l. Qed.

Lemma extract_profile_ids_first_seen (html : str) :
  _extract_profile_ids R T html = first_seen (id_hits R T html).
Proof.
  unfold _extract_profile_ids, id_hits. rewrite dedup_loop_spec.
  cbn [app existsb negb]. apply filter_all.
Qed.

(** Every id read from a page is a non-empty string of decimal digits. *)
Lemma extract_profile_ids_digits (html pid : str) :
  In pid (_extract_profile_ids R T html) ->
  pid <> [] /\ forallb (is_decimal R) pid = true /\ isdigit R pid = true.
Proof.
  rewrite extract_profile_ids_first_seen. intros Hin.
  apply (proj1 (first_seen_In _ _)) in Hin. unfold id_hits in Hin.
  apply in_flat_map in Hin as (pat & Hpat & Hin).
  destruct (ID_PATTERNS_groups pat Hpat) as [Hu Hc].
  destruct (rx_findall_from_In pat (is_decimal R) Hu Hc _ _ _ _ Hin)
    as [Hne Hall].
  repeat split; auto. now apply decimal_isdigit.
Qed.

(** X12. What [_extract_profile_ids] returns holds every hit of the two
    patterns and nothing else, each once, in the order in which the hits
    first occur, those of the first pattern before those of the second;
    and each of them is a non-empty string of decimal digits, so that
    [isdigit] accepts it. *)
Theorem extract_profile_ids_spec (html : str) :
  _extract_profile_ids R T html = first_seen (id_hits R T html)
  /\ NoDup (_extract_profile_ids R T html)
  /\ (forall pid, In pid (_extract_profile_ids R T html)
                  <-> In pid (id_hits R T html))
  /\ (forall pid, In pid (_extract_profile_ids R T html) ->
        pid <> [] /\ forallb (is_decimal R) pid = true
        /\ isdigit R pid = true).
Proof.
  split; [apply extract_profile_ids_first_seen|].
  split; [rewrite extract_profile_ids_first_seen; apply first_seen_NoDup|].
  split.
  - intros pid. rewrite extract_profile_ids_first_seen.
    apply first_seen_In.
  - intros pid. apply extract_profile_ids_digits.
Qed.

End ProfileIds.

(* ===================================================================== *)
(** * The cookie line and the session                                     *)
(* ===================================================================== *)

Section StripFacts.

Variable T : runtime_classes.

Lemma lstrip_after_run (s : str) : lstrip T s = after_run (is_space T) s.
Proof.
  induction s as [|c s IH]; [reflexivity|]. simpl. now rewrite IH.
Qed.

Lemma lstrip_parts (s : str) :
  run_of (is_space T) s ++ lstrip T s = s.
Proof. rewrite lstrip_after_run. apply run_after. Qed.

Lemma run_of_class (cls : char -> bool) (s : str) :
  forallb cls (run_of cls s) = true.
Proof.
  induction s as [|c s IH]; [reflexivity|]. simpl.
  destruct (cls c) eqn:E; [|reflexivity]. simpl. now rewrite E.
Qed.

Lemma lstrip_head (s : str) (c : char) (r : str) :
  lstrip T s = c :: r -> is_space T c = false.
Proof.
  induction s as [|d s IH]; [discriminate|]. simpl.
  destruct (is_space T d) eqn:E; [exact IH|]. now intros [= <- _].
Qed.

Lemma lstrip_fixed (c : char) (r : str) :
  is_space T c = false -> lstrip T (c :: r) = c :: r.
Proof. intros H. simpl. now rewrite H. Qed.

Lemma lstrip_idem (s : str) : lstrip T (lstrip T s) = lstrip T s.
Proof.
  destruct (lstrip T s) as [|c r] eqn:E; [reflexivity|].
  apply lstrip_fixed. now apply lstrip_head in E.
Qed.

(** Stripping on the left leaves the last character in place when it is no
    white space. *)
Lemma lstrip_keeps_last (x : str) (c : char) :
  is_space T c = false -> exists l, lstrip T (x ++ [c]) = l ++ [c].
Proof.
  intros H. induction x as [|d x IH].
  - exists []. simpl. now rewrite H.
  - cbn [app lstrip]. destruct (is_space T d); [exact IH|]. now exists (d :: x).
Qed.

(** What [strip] leaves does not begin with white space. *)
Lemma str_strip_first (s : str) (c : char) (r : str) :
  str_strip T s = c :: r -> is_space T c = false.
Proof.
  unfold str_strip. intros H.
  destruct (lstrip T s) as [|d a] eqn:Ea; [discriminate|].
  pose proof (lstrip_head _ _ _ Ea) as Hd.
  cbn [rev] in H. destruct (lstrip_keeps_last (rev a) d Hd) as [l Hl].
  rewrite Hl, rev_app_distr in H. simpl in H. now injection H as <- _.
Qed.

(** [strip] changes nothing in what it has left. *)
Lemma str_strip_twice (s : str) :
  str_strip T (str_strip T s) = str_strip T s.
Proof.
  destruct (str_strip T s) as [|c b] eqn:Eb; [reflexivity|].
  pose proof (str_strip_first s c b Eb) as Hc.
  unfold str_strip at 1. rewrite (lstrip_fixed c b Hc), <- Eb.
  unfold str_strip. now rewrite rev_involutive, lstrip_idem.
Qed.

(** X13. [strip] cuts white space, and nothing else, from both ends: the
    string is the stripped one between two runs of white space, and the
    stripped one neither begins nor ends with white space.  Stripping a
    second time, as [make_session] does with the cookie that
    [get_cookie_manual] has stripped, changes nothing. *)
Theorem str_strip_spec (s : str) :
  (exists pre post,
      s = pre ++ str_strip T s ++ post
      /\ forallb (is_space T) pre = true
      /\ forallb (is_space T) post = true)
  /\ (forall c r, str_strip T s = c :: r -> is_space T c = false)
  /\ (forall r c, str_strip T s = r ++ [c] -> is_space T c = false)
  /\ str_strip T (get_cookie_manual T s) = get_cookie_manual T s.
Proof.
  split; [|split; [apply str_strip_first | split]].
  - exists (run_of (is_space T) s),
           (rev (run_of (is_space T) (rev (lstrip T s)))).
    split; [|split].
    + unfold str_strip. rewrite <- rev_app_distr, lstrip_parts, rev_involutive.
      symmetry. apply lstrip_parts.
    + apply run_of_class.
    + apply forallb_rev, run_of_class.
  - unfold str_strip. intros r c H. apply (f_equal (@rev char)) in H.
    rewrite rev_involutive, rev_app_distr in H. simpl in H.
    now apply lstrip_head in H.
  - unfold get_cookie_manual. apply str_strip_twice.
Qed.

End StripFacts.

Section SessionFacts.

Variable R : runtime.
Variable T : runtime_classes.
Variable C : codecs.
Variable Wb : web.



Lemma sends_nothing (s : session) : sends s [] s.
Proof. repeat split. constructor. Qed.

Lemma sends_more (s s1 s2 : session) (n1 n2 : list request) :
  sends s n1 s1 -> sends s1 n2 s2 -> sends s (n2 ++ n1) s2.
Proof.
  intros (H1 & E1 & F1) (H2 & E2 & F2). split; [congruence|]. split.
  - now rewrite E2, E1, app_assoc.
  - apply Forall_app. split; [|exact F1].
    eapply Forall_impl; [|exact F2]. cbv beta. congruence.
Qed.

Lemma session_get_sends (url : str) (s : session) :
  sends s [{| req_url := url; req_headers := sess_headers s |}]
        (snd (session_get Wb url s)).
Proof. repeat split. now repeat constructor. Qed.

Lemma session_get_result (url : str) (s : session) :
  fst (session_get Wb url s)
  = get_result Wb (length (sess_sent s))
               {| req_url := url; req_headers := sess_headers s |}.
Proof. reflexivity. Qed.

(** The two ways the source writes the test agree. *)
Lemma rejected_accepted (status : Z) (text : str) :
  rejected R status text = negb (accepted R status text).
Proof.
  unfold rejected, accepted.
  now destruct (status =? 200)%Z, (py_in (lit "id:") text),
               (py_in (lit "<html") (str_lower R text)).
Qed.





(** [_try_fetch_data], whatever the web answers. *)
Lemma try_fetch_data_sends (s : session) (pid : str) :
  exists new,
    sends s new (snd (_try_fetch_data R C Wb s pid))
    /\ (1 <= length new <= 2)%nat
    /\ Forall (fun rq => exists param,
                 In param param_names /\ req_url rq = data_url param pid) new.
Proof.
  unfold _try_fetch_data, session_get. cbn [sess_headers sess_sent].
  set (rq1 := {| req_url := data_url (lit "electionProfile.id") pid;
                 req_headers := sess_headers s |}).
  set (rq2 := {| req_url := data_url (lit "profileId") pid;
                 req_headers := sess_headers s |}).
  assert (H1 : sends s [rq1] {| sess_headers := sess_headers s;
                                sess_sent := rq1 :: sess_sent s |}).
  { repeat split. now repeat constructor. }
  assert (H2 : sends s [rq2; rq1] {| sess_headers := sess_headers s;
                                     sess_sent := rq2 :: rq1 :: sess_sent s |}).
  { repeat split. now repeat constructor. }
  assert (P1 : exists param, In param param_names
                             /\ req_url rq1 = data_url param pid).
  { exists (lit "electionProfile.id"). split; [now left | reflexivity]. }
  assert (P2 : exists param, In param param_names
                             /\ req_url rq2 = data_url param pid).
  { exists (lit "profileId"). split; [right; now left | reflexivity]. }
  assert (A1 : exists new,
             sends s new {| sess_headers := sess_headers s;
                            sess_sent := rq1 :: sess_sent s |}
             /\ (1 <= length new <= 2)%nat
             /\ Forall (fun rq => exists param,
                          In param param_names
                          /\ req_url rq = data_url param pid) new).
  { exists [rq1]. split; [exact H1|]. split; [simpl; lia|].
    now repeat constructor. }
  assert (A2 : exists new,
             sends s new {| sess_headers := sess_headers s;
                            sess_sent := rq2 :: rq1 :: sess_sent s |}
             /\ (1 <= length new <= 2)%nat
             /\ Forall (fun rq => exists param,
                          In param param_names
                          /\ req_url rq = data_url param pid) new).
  { exists [rq2; rq1]. split; [exact H2|]. split; [simpl; lia|].
    now repeat constructor. }
  destruct (get_result Wb (length (sess_sent s)) rq1) as [r1|e1];
    [|exact A1].
  destruct (smart_read C r1) as [[t1 enc1]|e]; [|exact A1].
  destruct (accepted R (resp_status_code r1) t1); [exact A1|].
  cbn [length].
  destruct (get_result Wb (S (length (sess_sent s))) rq2) as [r2|e2];
    [|exact A2].
  destruct (smart_read C r2) as [[t2 enc2]|e]; exact A2.
Qed.

(** What [_try_fetch_data] returns when no call raises. *)
Lemma try_fetch_data_result (s : session) (pid : str)
    (r : result (Z * str * str)) (s' : session) :
  _try_fetch_data R C Wb s pid = (r, s') ->
  (exists new,
      sends s new s' /\ (1 <= length new <= 2)%nat
      /\ Forall (fun rq => exists param,
                   In param param_names /\ req_url rq = data_url param pid)
                new)
  /\ forall status text used,
       r = Ok (status, text, used) ->
       answered C Wb (sess_sent s') (data_url used pid) status text
       /\ ((used = lit "electionProfile.id"
            /\ accepted R status text = true
            /\ length (sess_sent s') = S (length (sess_sent s)))
           \/ (used = lit "profileId"
               /\ length (sess_sent s') = S (S (length (sess_sent s)))
               /\ exists status1 text1,
                    accepted R status1 text1 = false
                    /\ answered C Wb (tl (sess_sent s'))
                         (data_url (lit "electionProfile.id") pid)
                         status1 text1)).
Proof.
  intros H. split.
  - pose proof (try_fetch_data_sends s pid) as Hs. now rewrite H in Hs.
  - revert H. unfold _try_fetch_data, session_get.
    cbn [sess_headers sess_sent].
    set (rq1 := {| req_url := data_url (lit "electionProfile.id") pid;
                   req_headers := sess_headers s |}).
    set (rq2 := {| req_url := data_url (lit "profileId") pid;
                   req_headers := sess_headers s |}).
    destruct (get_result Wb (length (sess_sent s)) rq1) as [r1|e1] eqn:E1;
      [|intros [= <- <-]; discriminate].
    destruct (smart_read C r1) as [[t1 enc1]|e] eqn:S1;
      [|intros [= <- <-]; discriminate].
    destruct (accepted R (resp_status_code r1) t1) eqn:A1.
    + intros [= <- <-] status text used [= <- <- <-]. split.
      * exists rq1, (sess_sent s), r1, enc1. now repeat split.
      * left. now repeat split.
    + cbn [length].
      destruct (get_result Wb (S (length (sess_sent s))) rq2) as [r2|e2] eqn:E2;
        [|intros [= <- <-]; discriminate].
      destruct (smart_read C r2) as [[t2 enc2]|e] eqn:S2;
        [|intros [= <- <-]; discriminate].
      intros [= <- <-] status text used [= <- <- <-]. split.
      * exists rq2, (rq1 :: sess_sent s), r2, enc2. now repeat split.
      * right. split; [reflexivity|]. split; [reflexivity|].
        exists (resp_status_code r1), t1. split; [exact A1|].
        exists rq1, (sess_sent s), r1, enc1. now repeat split.
Qed.

(** X15. [_try_fetch_data] sends one GET or two, to the catalog address
    of the profile under the parameter electionProfile.id and then under
    profileId, with the headers of the session; the second is sent only
    when the first answer was read and not accepted.  What it returns are
    the status and the text of the answer to its last GET and the
    parameter name of that GET; with electionProfile.id the returned
    answer was accepted, with profileId it is returned accepted or not.
    When it raises, its newest GET raised, or [smart_read] raised on the
    answer to it. *)
Theorem try_fetch_data_spec (s : session) (pid : str) :
  (exists new,
      sends s new (snd (_try_fetch_data R C Wb s pid))
      /\ (1 <= length new <= 2)%nat
      /\ Forall (fun rq => exists param,
                   In param param_names /\ req_url rq = data_url param pid)
                new)
  /\ match fst (_try_fetch_data R C Wb s pid) with
     | Ok (status, text, used) =>
         answered C Wb (sess_sent (snd (_try_fetch_data R C Wb s pid)))
                  (data_url used pid) status text
         /\ ((used = lit "electionProfile.id"
              /\ accepted R status text = true
              /\ length (sess_sent (snd (_try_fetch_data R C Wb s pid)))
                 = S (length (sess_sent s)))
             \/ (used = lit "profileId"
                 /\ length (sess_sent (snd (_try_fetch_data R C Wb s pid)))
                    = S (S (length (sess_sent s)))
                 /\ exists status1 text1,
                      accepted R status1 text1 = false
                      /\ answered C Wb
                           (tl (sess_sent
                                  (snd (_try_fetch_data R C Wb s pid))))
                           (data_url (lit "electionProfile.id") pid)
                           status1 text1))
     | Raise e =>
         exists rq older,
           sess_sent (snd (_try_fetch_data R C Wb s pid)) = rq :: older
           /\ (get_result Wb (length older) rq = Raise e
               \/ exists resp,
                    get_result Wb (length older) rq = Ok resp
                    /\ smart_read C resp = Raise e)
     end.
Proof.
  split; [apply try_fetch_data_sends|].
  destruct (_try_fetch_data R C Wb s pid) as [[[[st t] u]|e] s'] eqn:E;
    cbn [fst snd].
  - exact (proj2 (try_fetch_data_result s pid _ _ E) st t u eq_refl).
  - revert E. unfold _try_fetch_data, session_get.
    cbn [sess_headers sess_sent].
    destruct (get_result Wb (length (sess_sent s)) _) as [r1|e1] eqn:E1.
    2:{ intros [= <- <-]. eexists _, _. split; [reflexivity|]. now left. }
    destruct (smart_read C r1) as [[t1 enc1]|e1] eqn:S1.
    2:{ intros [= <- <-]. eexists _, _. split; [reflexivity|]. right.
        now exists r1. }
    destruct (accepted R (resp_status_code r1) t1); [discriminate|].
    cbn [length].
    destruct (get_result Wb (S (length (sess_sent s))) _) as [r2|e2] eqn:E2.
    2:{ intros [= <- <-]. eexists _, _. split; [reflexivity|]. now left. }
    destruct (smart_read C r2) as [[t2 enc2]|e2] eqn:S2; [discriminate|].
    intros [= <- <-]. eexists _, _. split; [reflexivity|]. right.
    now exists r2.
Qed.

End SessionFacts.

(* ===================================================================== *)
(** * The catalog fetch                                                   *)
(* ===================================================================== *)

Section FetchFacts.

Variable R : runtime.
Variable T : runtime_classes.
Variable C : codecs.
Variable Wb : web.

Lemma sends_length (s s' : session) (new : list request) :
  sends s new s' ->
  length (sess_sent s') = (length new + length (sess_sent s))%nat.
Proof. intros (_ & E & _). now rewrite E, length_app. Qed.

(** The loop over the candidates: it ends at the first candidate whose
    answer is accepted, with that candidate in force; when no answer is
    accepted the profile id in force is the one it started with, and what
    the loop holds is the answer to its last GET, the second one for the
    last candidate. *)
Lemma try_candidates_result (cands : list str) :
  forall cur s status text used p s',
    try_candidates R C Wb cands cur s = (Ok (status, text, used, p), s') ->
    exists new,
      sends s new s'
      /\ (cands <> [] -> 1 <= length new)%nat
      /\ ((accepted R status text = true /\ In p cands
           /\ In used param_names
           /\ answered C Wb (sess_sent s') (data_url used p) status text)
          \/ (p = snd cur
              /\ ((status, text, used, p) = cur
                  \/ accepted R status text = false)
              /\ (cands <> [] ->
                  accepted R status text = false
                  /\ In used param_names
                  /\ (2 <= length new)%nat
                  /\ exists cand,
                       In cand cands
                       /\ answered C Wb (sess_sent s') (data_url used cand)
                                   status text))).
Proof.
  induction cands as [|cand rest IH]; intros cur s status text used p s' H.
  - cbn [try_candidates] in H. injection H as Hc <-. subst cur.
    exists []. split; [apply sends_nothing|]. split; [congruence|].
    right. split; [reflexivity|]. split; [now left | congruence].
  - cbn [try_candidates] in H.
    destruct (_try_fetch_data R C Wb s cand) as [[[[st1 t1] u1]|e] s1] eqn:E;
      [|discriminate].
    destruct (try_fetch_data_result R C Wb s cand _ _ E)
      as [(new1 & Hs1 & Hl1 & _) Hok].
    destruct (Hok st1 t1 u1 eq_refl) as [Hans Hcase].
    assert (Hu1 : In u1 param_names).
    { destruct Hcase as [(-> & _) | (-> & _)]; [now left | right; now left]. }
    destruct (accepted R st1 t1) eqn:A.
    + injection H as <- <- <- <- <-. exists new1.
      split; [exact Hs1|]. split; [lia|].
      left. split; [exact A|]. split; [now left|]. now split.
    + assert (Hl2 : (2 <= length new1)%nat).
      { pose proof (sends_length _ _ _ Hs1) as Hl.
        destruct Hcase as [(_ & Hacc & _) | (_ & Hlen & _)];
          [congruence | lia]. }
      destruct rest as [|c2 rest].
      * cbn [try_candidates] in H. injection H as <- <- <- <- <-.
        exists new1. split; [exact Hs1|]. split; [lia|].
        right. cbn [snd]. split; [reflexivity|]. split; [now right|].
        intros _. split; [exact A|]. split; [exact Hu1|].
        split; [exact Hl2|]. exists cand. split; [now left | exact Hans].
      * apply IH in H. destruct H as (new2 & Hs2 & _ & H).
        exists (new2 ++ new1). split; [now apply sends_more with s1|].
        split; [rewrite length_app; lia|].
        destruct H as [(A2 & Hin & Hu & Hans2) | (-> & _ & Hne)].
        -- left. split; [exact A2|]. split; [now right|]. now split.
        -- destruct Hne as (Hrej & Hu & _ & cand' & Hin & Hans');
             [discriminate|].
           right. cbn [snd]. split; [reflexivity|]. split; [now right|].
           intros _. split; [exact Hrej|]. split; [exact Hu|].
           split; [rewrite length_app; lia|].
           exists cand'. split; [now right | exact Hans'].
Qed.

Lemma page_at_more (new sent : list request) (k : nat) (url text : str) :
  page_at Wb sent k url text -> page_at Wb (new ++ sent) k url text.
Proof.
  intros (newer & req & older & resp & -> & H).
  exists (new ++ newer), req, older, resp. now rewrite <- app_assoc.
Qed.

Lemma candidates_read_more (new sent : list request) (k : nat)
    (pid : str) (cands : list str) :
  candidates_read R T Wb sent k pid cands ->
  candidates_read R T Wb (new ++ sent) k pid cands.
Proof.
  intros (warm & Hw & H). exists warm. split; [now apply page_at_more|].
  destruct H as [H | (E & dp & Hd & Hc)]; [now left|].
  right. split; [exact E|]. exists dp. split; [now apply page_at_more|].
  exact Hc.
Qed.

(** The candidates read from the pages are strings of digits. *)
Lemma candidates_read_digits (sent : list request) (k : nat)
    (pid : str) (cands : list str) (c : str) :
  candidates_read R T Wb sent k pid cands -> In c cands ->
  isdigit R c = true.
Proof.
  intros (warm & _ & [(_ & ->) | (_ & dp & _ & ->)]) Hin.
  - now apply (extract_profile_ids_digits R T warm).
  - now apply (extract_profile_ids_digits R T dp).
Qed.

(** A GET that has returned a page is a page of the session at its
    number. *)
Lemma session_get_page (url : str) (s s' : session) (resp : response)
    (text : str) :
  session_get Wb url s = (Ok resp, s') -> resp_text resp = Ok text ->
  page_at Wb (sess_sent s') (length (sess_sent s)) url text.
Proof.
  unfold session_get. intros [= Hr <-] Ht. cbn [sess_sent].
  exists [], {| req_url := url; req_headers := sess_headers s |},
         (sess_sent s), resp.
  repeat split; auto.
Qed.

(** The fetch of [course_info], when no call raises: at least one GET is
    sent, and what is fetched is the answer to the newest GET, which went
    to the catalog address of the given profile or of a candidate read
    from the pages the function has fetched.  An accepted answer is that
    of the profile in force; an answer that is not accepted is held only
    after five GETs or more, the pages among them. *)
Lemma course_info_fetch_result (s : session) (pid : str)
    status text used p s' :
  course_info_fetch R T C Wb s pid = (Ok (status, text, used, p), s') ->
  (exists new, sends s new s' /\ (1 <= length new)%nat)
  /\ (accepted R status text = true ->
      In used param_names
      /\ answered C Wb (sess_sent s') (data_url used p) status text
      /\ (p = pid
          \/ exists cands,
               candidates_read R T Wb (sess_sent s') (length (sess_sent s))
                               pid cands
               /\ In p cands))
  /\ (accepted R status text = false ->
      p = pid
      /\ In used param_names
      /\ (exists new, sends s new s' /\ (5 <= length new)%nat)
      /\ exists cands cand,
           candidates_read R T Wb (sess_sent s') (length (sess_sent s))
                           pid cands
           /\ In cand (pid :: cands)
           /\ answered C Wb (sess_sent s') (data_url used cand) status text).
Proof.
  unfold course_info_fetch.
  destruct (_try_fetch_data R C Wb s pid) as [[[[st1 t1] u1]|e] s1] eqn:E;
    [|discriminate].
  destruct (try_fetch_data_result R C Wb s pid _ _ E)
    as [(new1 & Hs1 & Hl1 & _) Hok].
  destruct (Hok st1 t1 u1 eq_refl) as [Hans Hcase].
  rewrite rejected_accepted. destruct (accepted R st1 t1) eqn:A; cbn [negb].
  - intros [= <- <- <- <- <-]. split; [|split].
    + exists new1. split; [exact Hs1 | lia].
    + intros _. split.
      * destruct Hcase as [(-> & _) | (-> & _)];
          [now left | right; now left].
      * split; [exact Hans | now left].
    + congruence.
  - assert (Hk : length (sess_sent s1) = (length (sess_sent s) + 2)%nat).
    { destruct Hcase as [(_ & Hacc & _) | (_ & Hlen & _)];
        [congruence | lia]. }
    assert (Hl2 : (2 <= length new1)%nat).
    { pose proof (sends_length _ _ _ Hs1) as Hl. lia. }
    pose proof (session_get_sends Wb (DEFAULT_TPL pid) s1) as Hw.
    pose proof (session_get_page (DEFAULT_TPL pid) s1) as Hpw.
    destruct (session_get Wb (DEFAULT_TPL pid) s1) as [rw s2] eqn:Ew.
    cbn [snd] in Hw. destruct rw as [warm|e]; [|discriminate].
    assert (Htry : forall cands sa newa,
              sends s newa sa -> (3 <= length newa)%nat ->
              candidates_read R T Wb (sess_sent sa) (length (sess_sent s))
                              pid cands ->
              try_candidates R C Wb (pid :: cands) (st1, t1, u1, pid) sa
              = (Ok (status, text, used, p), s') ->
              (exists new, sends s new s' /\ (1 <= length new)%nat)
              /\ (accepted R status text = true ->
                  In used param_names
                  /\ answered C Wb (sess_sent s') (data_url used p) status text
                  /\ (p = pid
                      \/ exists cands,
                           candidates_read R T Wb (sess_sent s')
                                           (length (sess_sent s)) pid cands
                           /\ In p cands))
              /\ (accepted R status text = false ->
                  p = pid
                  /\ In used param_names
                  /\ (exists new, sends s new s' /\ (5 <= length new)%nat)
                  /\ exists cands cand,
                       candidates_read R T Wb (sess_sent s')
                                       (length (sess_sent s)) pid cands
                       /\ In cand (pid :: cands)
                       /\ answered C Wb (sess_sent s') (data_url used cand)
                                   status text)).
    { intros cands sa newa Hsa Hla Hcands H.
      apply try_candidates_result in H.
      destruct H as (new2 & Hs2 & _ & H).
      pose proof (sends_more _ _ _ _ _ Hsa Hs2) as Hall.
      assert (Hcands' : candidates_read R T Wb (sess_sent s')
                          (length (sess_sent s)) pid cands).
      { destruct Hs2 as (_ & -> & _). now apply candidates_read_more. }
      split; [|split].
      - exists (new2 ++ newa). split; [exact Hall|].
        rewrite length_app. lia.
      - intros Hacc.
        destruct H as [(_ & Hin & Hu & Hans2) | (_ & _ & Hrej)].
        + split; [exact Hu|]. split; [exact Hans2|].
          destruct Hin as [<- | Hin]; [now left|].
          right. now exists cands.
        + destruct Hrej as (Hrej & _); [discriminate | congruence].
      - intros Hrej.
        destruct H as [(Hacc & _) | (-> & _ & Hne)]; [congruence|].
        destruct Hne as (_ & Hu & Hl & cand & Hin & Hans2); [discriminate|].
        cbn [snd]. split; [reflexivity|]. split; [exact Hu|]. split.
        + exists (new2 ++ newa). split; [exact Hall|].
          rewrite length_app. lia.
        + now exists cands, cand. }
    assert (Hs2 : sends s (_ ++ new1) s2)
      by (apply (sends_more _ _ _ _ _ Hs1 Hw)).
    unfold page_candidates.
    destruct (resp_text warm) as [tw|e] eqn:Etw; [|discriminate].
    specialize (Hpw s2 warm tw eq_refl Etw). rewrite Hk in Hpw.
    destruct (_extract_profile_ids R T tw) as [|c0 cs] eqn:Ec.
    + pose proof (session_get_sends Wb
                    (BASE ++ lit "/eams/stdElectCourse!defaultPage.action") s2)
        as Hd.
      pose proof (session_get_page
                    (BASE ++ lit "/eams/stdElectCourse!defaultPage.action") s2)
        as Hpd.
      assert (Hk2 : length (sess_sent s2) = (length (sess_sent s) + 3)%nat).
      { rewrite (sends_length _ _ _ Hw), Hk. simpl. lia. }
      destruct (session_get Wb _ s2) as [rd s3] eqn:Ed.
      cbn [snd] in Hd. destruct rd as [dp|e]; [|discriminate].
      destruct (resp_text dp) as [td|e] eqn:Etd; [|discriminate].
      specialize (Hpd s3 dp td eq_refl Etd). rewrite Hk2 in Hpd.
      apply (Htry _ s3 _ (sends_more _ _ _ _ _ Hs2 Hd)).
      * rewrite !length_app. simpl. lia.
      * exists tw. split.
        { destruct Hd as (_ & -> & _). now apply page_at_more. }
        right. split; [exact Ec|]. now exists td.
    + apply (Htry _ s2 _ Hs2).
      * rewrite length_app. simpl. lia.
      * exists tw. split; [exact Hpw|]. left. rewrite Ec.
        split; [discriminate | reflexivity].
Qed.

(** The first line [course_info] prints, however it ends. *)
Lemma course_info_session_first_line (s : session) (pid : str)
    (tokens : list str) :
  hd_error (fst (fst (course_info_session R T C Wb s pid tokens)))
  = Some Fetching.
Proof.
  unfold course_info_session.
  destruct (course_info_fetch R T C Wb s pid)
    as [[[[[status text] used0] p]|e] s1]; [|reflexivity].
  destruct (rejected R status text); [reflexivity|].
  destruct (id_list R text) as [|i0 ids]; [reflexivity|].
  destruct (select_loop R (i0 :: ids) _ tokens [] []) as [warn [[|c ch]|e]];
    reflexivity.
Qed.

(** What [course_info] has done when it returns. *)
Lemma course_info_session_returned (s : session) (pid : str)
    (tokens : list str) (out : list course_line) (chosen : list str)
    (pid' used : str) (s' : session) :
  course_info_session R T C Wb s pid tokens
  = (out, Returned (chosen, pid', used), s') ->
  (exists new, sends s new s' /\ (1 <= length new)%nat)
  /\ In used param_names
  /\ (pid' = pid
      \/ exists cands,
           candidates_read R T Wb (sess_sent s') (length (sess_sent s))
                           pid cands
           /\ In pid' cands)
  /\ (isdigit R pid = true -> isdigit R pid' = true)
  /\ In (HitProfile pid' used) out
  /\ exists status text,
       accepted R status text = true
       /\ answered C Wb (sess_sent s') (data_url used pid') status text
       /\ chosen <> []
       /\ (length chosen <= length tokens)%nat
       /\ Forall (fun cid => In cid (id_list R text) /\ isdigit R cid = true)
                 chosen.
Proof.
  unfold course_info_session.
  destruct (course_info_fetch R T C Wb s pid)
    as [[[[[status text] used0] p]|e] s1] eqn:E; [|discriminate].
  apply course_info_fetch_result in E. destruct E as (Hsends & Hacc & _).
  rewrite rejected_accepted.
  destruct (accepted R status text) eqn:A; cbn [negb]; [|discriminate].
  destruct (Hacc eq_refl) as (Hu & Hans & Hp). clear Hacc.
  destruct (id_list R text) as [|i0 ids] eqn:Eids; [discriminate|].
  destruct (select_loop R (i0 :: ids)
              (entry_count (i0 :: ids) (name_list text)) tokens [] [])
    as [warn r] eqn:El.
  apply select_loop_result in El; [|unfold entry_count; lia].
  destruct El as [(added & -> & Hall & Hlen) | (-> & _)]; [|discriminate].
  cbn [app]. destruct added as [|c added]; [discriminate|].
  intros [= <- <- <- <- <-].
  split; [exact Hsends|]. split; [exact Hu|]. split; [exact Hp|]. split.
  { intros Hd. destruct Hp as [-> | (cands & Hc & Hin)]; [exact Hd|].
    now apply (candidates_read_digits _ _ _ _ _ Hc). }
  split; [cbn [app]; right; now left|].
  exists status, text. split; [exact A|]. split; [exact Hans|].
  split; [discriminate|]. split; [exact Hlen|].
  eapply Forall_impl; [|exact Hall]. cbv beta. intros cid Hcid.
  rewrite <- Eids in Hcid. split; [exact Hcid|].
  destruct (id_list_decimal R text cid Hcid). now apply decimal_isdigit.
Qed.

(** X16. When [course_info] returns, the newest GET of the session went
    to the catalog address of the returned profile id under the returned
    parameter name, and its answer, read by [smart_read], was accepted:
    status 200, with an id: marker and no html tag.  The returned course
    ids were parsed from that answer; there is at least one, at most one
    per token, and each is a string of digits.  The returned profile id is
    the given one or one that [_extract_profile_ids] read from a page the
    function has fetched: the default page of the given profile, the
    answer to its third GET, or, when that page holds no id, the default
    page without a profile, the answer to its fourth GET.  So it is a
    string of digits whenever the given one is; the parameter name is one
    of the two the code knows, and both are printed behind the first
    line. *)
Theorem course_info_session_returns (s : session) (pid : str)
    (tokens : list str) (out : list course_line) (chosen : list str)
    (pid' used : str) (s' : session) :
  course_info_session R T C Wb s pid tokens
  = (out, Returned (chosen, pid', used), s') ->
  (exists new, sends s new s' /\ (1 <= length new)%nat)
  /\ In used param_names
  /\ (pid' = pid
      \/ exists cands,
           candidates_read R T Wb (sess_sent s') (length (sess_sent s))
                           pid cands
           /\ In pid' cands)
  /\ (isdigit R pid = true -> isdigit R pid' = true)
  /\ (exists rest, out = Fetching :: rest /\ In (HitProfile pid' used) rest)
  /\ exists status text,
       accepted R status text = true
       /\ answered C Wb (sess_sent s') (data_url used pid') status text
       /\ chosen <> []
       /\ (length chosen <= length tokens)%nat
       /\ Forall (fun cid => In cid (id_list R text) /\ isdigit R cid = true)
                 chosen.
Proof.
  intros H.
  pose proof (course_info_session_first_line s pid tokens) as Hline.
  rewrite H in Hline. cbn [fst] in Hline.
  destruct (course_info_session_returned s pid tokens out chosen pid' used
              s' H) as (Hs & Hu & Hp & Hd & Hhit & Hrest).
  split; [exact Hs|]. split; [exact Hu|]. split; [exact Hp|].
  split; [exact Hd|]. split; [|exact Hrest].
  destruct out as [|l rest]; [discriminate|]. injection Hline as ->.
  exists rest. split; [reflexivity|].
  destruct Hhit as [E | Hin]; [discriminate | exact Hin].
Qed.

(** X19. [course_info] prints the status line only when it gives up, and
    it gives up only after five GETs or more, among them that of the
    default page of the given profile, its third GET, and, when that page
    holds no id, that of the default page without a profile, its fourth.
    The status and the excerpt it prints are those of the answer to the
    newest GET, a catalog request for the given profile or for a
    candidate that [_extract_profile_ids] read from those pages, whose
    answer was not accepted; it prints nothing else behind its first
    line, and it exits with the code 1. *)
Theorem course_info_session_gives_up (s : session) (pid : str)
    (tokens : list str) (out : list course_line)
    (e : ending (list str * str * str)) (s' : session) (status : Z) :
  course_info_session R T C Wb s pid tokens = (out, e, s') ->
  In (BadStatus status) out ->
  e = SysExit 1
  /\ exists text used cands cand,
       out = [Fetching; BadStatus status; Excerpt (firstn 300 text)]
       /\ accepted R status text = false
       /\ In used param_names
       /\ candidates_read R T Wb (sess_sent s') (length (sess_sent s))
                           pid cands
       /\ In cand (pid :: cands)
       /\ answered C Wb (sess_sent s') (data_url used cand) status text
       /\ exists new, sends s new s' /\ (5 <= length new)%nat.
Proof.
  unfold course_info_session.
  destruct (course_info_fetch R T C Wb s pid)
    as [[[[[st text] used0] p]|err] s1] eqn:E.
  2:{ intros [= <- _ _] [H | []]. discriminate. }
  apply course_info_fetch_result in E. destruct E as (_ & _ & Hrej).
  rewrite rejected_accepted.
  destruct (accepted R st text) eqn:A; cbn [negb].
  - assert (Hno : forall (rows : list (nat * str * str))
                         (warn : list info_line) (tail : list course_line),
              (forall l, In l tail -> l <> BadStatus status) ->
              ~ In (BadStatus status)
                  (([Fetching; HitProfile p used0; Available]
                    ++ map (fun r => Info (CourseRow (fst (fst r))
                                             (snd (fst r)) (snd r))) rows
                    ++ [AskTokens])
                   ++ map Info warn ++ tail)).
    { intros rows warn tail Htail Hin.
      apply in_app_or in Hin as [Hin | Hin].
      - cbn [app] in Hin.
        destruct Hin as [H | [H | [H | Hin]]]; try discriminate.
        apply in_app_or in Hin as [Hin | [H | []]]; [|discriminate].
        apply in_map_iff in Hin as (r & H & _). discriminate.
      - apply in_app_or in Hin as [Hin | Hin].
        + apply in_map_iff in Hin as (r & H & _). discriminate.
        + now apply (Htail _ Hin). }
    destruct (id_list R text) as [|i0 ids].
    { intros [= <- _ _] [H | [H | []]]; discriminate. }
    destruct (select_loop R (i0 :: ids) _ tokens [] []) as [warn [[|c ch]|err]];
      intros [= <- _ _] Hin; exfalso.
    + apply (Hno _ warn [Info NothingChosen]) in Hin; [exact Hin|].
      intros l [<- | []]. discriminate.
    + rewrite <- (app_nil_r (map Info warn)) in Hin.
      apply (Hno _ warn []) in Hin; [exact Hin | intros l []].
    + rewrite <- (app_nil_r (map Info warn)) in Hin.
      apply (Hno _ warn []) in Hin; [exact Hin | intros l []].
  - destruct (Hrej eq_refl) as (_ & Hu & Hnew & cands & cand & Hc & Hin & Hans).
    intros [= <- <- <-] [H | [H | [H | []]]]; try discriminate.
    injection H as <-. split; [reflexivity|].
    exists text, used0, cands, cand. split; [reflexivity|].
    split; [exact A|]. split; [exact Hu|]. split; [exact Hc|].
    split; [exact Hin|]. split; [exact Hans | exact Hnew].
Qed.

End FetchFacts.

(* ===================================================================== *)
(** * [main]: from the cookie to the submissions                          *)
(* ===================================================================== *)

Section MainFacts.

Variable R : runtime.
Variable T : runtime_classes.
Variable C : codecs.
Variable Wb : web.
Variable W : world.







End MainFacts.

Section MainEnds.

Variable R : runtime.
Variable T : runtime_classes.
Variable C : codecs.
Variable Wb : web.
Variable W : world.






End MainEnds.

(* ===================================================================== *)
(** * Concrete runs of the fetch and of [main]                            *)
(* ===================================================================== *)

(** The id in the link of a page. *)
Lemma extract_profile_ids_spec_witness :
  lit "4665" <> []
  /\ forallb (is_decimal ascii_runtime) (lit "4665") = true
  /\ isdigit ascii_runtime (lit "4665") = true.
Proof.
  apply (proj2 (proj2 (proj2
           (extract_profile_ids_spec ascii_runtime ascii_classes
              (lit "<a href='defaultPage.action?electionProfile.id=4665'>"))))
         (lit "4665")).
  vm_compute. left. reflexivity.
Defined.

(** A pasted line with blanks around it. *)
Lemma str_strip_spec_witness :
  is_space ascii_classes 74%N = false.
Proof.
  apply (proj1 (proj2 (str_strip_spec ascii_classes
                         (lit "  JSESSIONID=abc; GSESSIONID=abc  ")))
         74%N (lit "SESSIONID=abc; GSESSIONID=abc")).
  vm_compute. reflexivity.
Defined.


(** The catalog of the profile 4665 comes with the second GET. *)
Lemma try_fetch_data_spec_witness :
  answered sample_codecs sample_web
    (sess_sent (snd (_try_fetch_data ascii_runtime sample_codecs sample_web
                       new_session (lit "4665"))))
    (data_url (lit "profileId") (lit "4665")) 200 sample_catalog.
Proof.
  destruct (try_fetch_data_spec ascii_runtime sample_codecs sample_web
              new_session (lit "4665")) as [_ H].
  assert (E : fst (_try_fetch_data ascii_runtime sample_codecs sample_web
                     new_session (lit "4665"))
              = Ok (200%Z, sample_catalog, lit "profileId"))
    by (vm_compute; reflexivity).
  rewrite E in H. exact (proj1 H).
Defined.

(** For the profile 1, which [sample_web] does not know, the id 4665 is
    read from the default page. *)
Lemma course_info_session_returns_witness :
  In (lit "profileId") param_names
  /\ (lit "4665" = lit "1"
      \/ exists cands,
           candidates_read ascii_runtime ascii_classes sample_web
             (sess_sent
                (snd (course_info_session ascii_runtime ascii_classes
                        sample_codecs sample_web new_session (lit "1")
                        [lit "0"; lit "398319"])))
             (length (sess_sent new_session)) (lit "1") cands
           /\ In (lit "4665") cands).
Proof.
  assert (H : course_info_session ascii_runtime ascii_classes sample_codecs
                sample_web new_session (lit "1") [lit "0"; lit "398319"]
              = (fst (fst (course_info_session ascii_runtime ascii_classes
                             sample_codecs sample_web new_session (lit "1")
                             [lit "0"; lit "398319"])),
                 Returned ([lit "400785"; lit "398319"], lit "4665",
                           lit "profileId"),
                 snd (course_info_session ascii_runtime ascii_classes
                        sample_codecs sample_web new_session (lit "1")
                        [lit "0"; lit "398319"])))
    by (vm_compute; reflexivity).
  pose proof (course_info_session_returns ascii_runtime ascii_classes
                sample_codecs sample_web _ _ _ _ _ _ _ _ H) as Hr.
  exact (conj (proj1 (proj2 Hr)) (proj1 (proj2 (proj2 Hr)))).
Defined.



(** On [login_web] no catalog is served: [course_info] gives up after six
    GETs. *)
Lemma course_info_session_gives_up_witness :
  snd (fst (course_info_session ascii_runtime ascii_classes sample_codecs
              login_web new_session (lit "4665") fixed_tokens))
  = SysExit 1
  /\ exists text used cands cand,
       fst (fst (course_info_session ascii_runtime ascii_classes
                   sample_codecs login_web new_session (lit "4665")
                   fixed_tokens))
       = [Fetching; BadStatus 200; Excerpt (firstn 300 text)]
       /\ accepted ascii_runtime 200 text = false
       /\ In used param_names
       /\ candidates_read ascii_runtime ascii_classes login_web
            (sess_sent
               (snd (course_info_session ascii_runtime ascii_classes
                       sample_codecs login_web new_session (lit "4665")
                       fixed_tokens)))
            (length (sess_sent new_session)) (lit "4665") cands
       /\ In cand (lit "4665" :: cands)
       /\ answered sample_codecs login_web
            (sess_sent
               (snd (course_info_session ascii_runtime ascii_classes
                       sample_codecs login_web new_session (lit "4665")
                       fixed_tokens)))
            (data_url used cand) 200 text
       /\ exists new,
            sends new_session new
              (snd (course_info_session ascii_runtime ascii_classes
                      sample_codecs login_web new_session (lit "4665")
                      fixed_tokens))
            /\ (5 <= length new)%nat.
Proof.
  apply (course_info_session_gives_up ascii_runtime ascii_classes
           sample_codecs login_web new_session (lit "4665") fixed_tokens).
  - now destruct (course_info_session ascii_runtime ascii_classes
                    sample_codecs login_web new_session (lit "4665")
                    fixed_tokens) as [[o e] s].
  - vm_compute. right. left. reflexivity.
Defined.
